(** * ChronoClash backend: the in-memory session coordinator

    A shallow embedding of [GameStateManager] (the class that owns the
    [rooms], [players] and [playerToRoom] maps) and of the chat handler of
    [controllers/gameController.js], followed by the properties of the
    specification that concern them.

    Conventions of the embedding:
    - the three JavaScript [Map]s are [gmap]s keyed by strings; the
      iteration order of a [Map] is not observable in the modelled code;
    - JavaScript numbers are integers ([Z]), which is what the code
      computes on safe integers and not beyond (see [exact_sub]);
      [Date.now()] is the explicit argument [now] of every operation that
      reads the clock;
    - strings are their UTF-8 bytes;
    - [null]/[undefined] fields are [option]s, and so is what a client
      sends where the code reads it unchecked and its absence changes what
      happens: the action of [processGameAction], the [abilities] array
      of a character, the room id of a leave request;
    - an operation returns the new manager together with what the call
      produced: a returned value or a thrown [TypeError]. *)

From Stdlib Require Import ZArith String Ascii List Lia.
From stdpp Require Import base tactics option list gmap strings pretty.

Local Open Scope Z_scope.
Local Open Scope string_scope.

(** ** Data model *)

Record Ability := mkAbility {
  ab_id : string;
  ab_name : string;
  manaCost : Z;
  damage : Z
}.

(** A character is the object a client sent with [select_character]:
    [c_abilities] is [None] when it carries no [abilities] array; where it
    carries one, its elements are ability objects. *)
Record Character := mkCharacter {
  c_id : string;
  c_name : string;
  c_health : Z;
  c_mana : Z;
  c_abilities : option (list Ability)
}.

(** The abilities a character declares. *)
Definition abilities (c : Character) : list Ability :=
  match c_abilities c with Some l => l | None => [] end.

Record Player := mkPlayer {
  p_id : string;
  p_name : string;
  isConnected : bool;
  character : option Character;
  isReady : bool;
  health : Z;
  maxHealth : Z;
  mana : Z;
  maxMana : Z;
  lastActive : Z
}.

Inductive Status := Waiting | Ready | InProgress | Completed.

#[global] Instance Status_eq_dec : EqDecision Status.
Proof. solve_decision. Defined.

Record GameData := mkGameData {
  turnCount : Z;
  currentTurn : option string;
  battleLog : list string;
  startTime : option Z;
  endTime : option Z;
  winner : option string
}.

Record Room := mkRoom {
  r_id : string;
  r_name : string;
  hostId : string;
  guestId : option string;
  status : Status;
  isPrivate : bool;
  maxPlayers : nat;
  r_players : list string;
  spectators : list string;
  gameData : GameData;
  createdAt : Z;
  lastActivity : Z
}.

(** [this.rooms], [this.players], [this.playerToRoom]. *)
Record GameStateManager := mkGSM {
  rooms : gmap string Room;
  players : gmap string Player;
  playerToRoom : gmap string string
}.

(** [constructor()] *)
Definition constructor : GameStateManager := mkGSM ∅ ∅ ∅.

(** What a call produced: a value, or an uncaught [TypeError]. *)
Inductive outcome (R : Type) :=
  | Returned (r : R)
  | Thrown (e : string).
Arguments Returned {R} r.
Arguments Thrown {R} e.

(** The tagged results of the registry operations. *)
Inductive Result :=
  | Failure (error : string)                 (* {success: false, error} *)
  | RoomOk (room : Room)                     (* {success: true, room} *)
  | RoomClosed                               (* {success: true, roomClosed: true} *)
  | NoRoomFound                              (* {success: true, noRoomFound: true} *)
  | PlayerRoomOk (player : Player) (room : Room)
  | ReadyOk (player : Player) (room : Room) (allReady : bool).

Definition is_failure (r : Result) : bool :=
  match r with Failure _ => true | _ => false end.

(** ** Field updates (assignments to one field of an object) *)

Definition set_players (r : Room) (v : list string) : Room :=
  mkRoom (r_id r) (r_name r) (hostId r) (guestId r) (status r) (isPrivate r)
         (maxPlayers r) v (spectators r) (gameData r) (createdAt r) (lastActivity r).

Definition set_hostId (r : Room) (v : string) : Room :=
  mkRoom (r_id r) (r_name r) v (guestId r) (status r) (isPrivate r)
         (maxPlayers r) (r_players r) (spectators r) (gameData r) (createdAt r) (lastActivity r).

Definition set_guestId (r : Room) (v : option string) : Room :=
  mkRoom (r_id r) (r_name r) (hostId r) v (status r) (isPrivate r)
         (maxPlayers r) (r_players r) (spectators r) (gameData r) (createdAt r) (lastActivity r).

Definition set_status (r : Room) (v : Status) : Room :=
  mkRoom (r_id r) (r_name r) (hostId r) (guestId r) v (isPrivate r)
         (maxPlayers r) (r_players r) (spectators r) (gameData r) (createdAt r) (lastActivity r).

Definition set_gameData (r : Room) (v : GameData) : Room :=
  mkRoom (r_id r) (r_name r) (hostId r) (guestId r) (status r) (isPrivate r)
         (maxPlayers r) (r_players r) (spectators r) v (createdAt r) (lastActivity r).

Definition set_lastActivity (r : Room) (v : Z) : Room :=
  mkRoom (r_id r) (r_name r) (hostId r) (guestId r) (status r) (isPrivate r)
         (maxPlayers r) (r_players r) (spectators r) (gameData r) (createdAt r) v.

Definition set_turnCount (g : GameData) (v : Z) : GameData :=
  mkGameData v (currentTurn g) (battleLog g) (startTime g) (endTime g) (winner g).

Definition set_currentTurn (g : GameData) (v : option string) : GameData :=
  mkGameData (turnCount g) v (battleLog g) (startTime g) (endTime g) (winner g).

Definition set_endTime (g : GameData) (v : option Z) : GameData :=
  mkGameData (turnCount g) (currentTurn g) (battleLog g) (startTime g) v (winner g).

Definition set_winner (g : GameData) (v : option string) : GameData :=
  mkGameData (turnCount g) (currentTurn g) (battleLog g) (startTime g) (endTime g) v.

(** [battleLog.push(line)] *)
Definition push_log (g : GameData) (line : string) : GameData :=
  mkGameData (turnCount g) (currentTurn g) (battleLog g ++ [line])
             (startTime g) (endTime g) (winner g).

Definition set_isReady (p : Player) (v : bool) : Player :=
  mkPlayer (p_id p) (p_name p) (isConnected p) (character p) v
           (health p) (maxHealth p) (mana p) (maxMana p) (lastActive p).

Definition set_health (p : Player) (v : Z) : Player :=
  mkPlayer (p_id p) (p_name p) (isConnected p) (character p) (isReady p)
           v (maxHealth p) (mana p) (maxMana p) (lastActive p).

Definition set_mana (p : Player) (v : Z) : Player :=
  mkPlayer (p_id p) (p_name p) (isConnected p) (character p) (isReady p)
           (health p) (maxHealth p) v (maxMana p) (lastActive p).

Definition set_lastActive (p : Player) (v : Z) : Player :=
  mkPlayer (p_id p) (p_name p) (isConnected p) (character p) (isReady p)
           (health p) (maxHealth p) (mana p) (maxMana p) v.

(** The fields [setPlayerCharacter] hands to [Object.assign]. *)
Definition assign_character (c : Character) (p : Player) : Player :=
  mkPlayer (p_id p) (p_name p) (isConnected p) (Some c) false
           (c_health c) (c_health c) (c_mana c) (c_mana c) (lastActive p).

Definition set_rooms (s : GameStateManager) (v : gmap string Room) : GameStateManager :=
  mkGSM v (players s) (playerToRoom s).

Definition set_playersMap (s : GameStateManager) (v : gmap string Player) : GameStateManager :=
  mkGSM (rooms s) v (playerToRoom s).

Definition set_playerToRoom (s : GameStateManager) (v : gmap string string) : GameStateManager :=
  mkGSM (rooms s) (players s) v.

(** A string is falsy exactly when it is empty. *)
Definition truthy (x : string) : bool :=
  match x with EmptyString => false | _ => true end.

(** [x || y] on an optional string. *)
Definition or_else (x : option string) (y : string) : string :=
  match x with
  | Some v => if truthy v then v else y
  | None => y
  end.

(** ** Player registry *)

(** [registerPlayer(socketId, playerData)] *)
Definition registerPlayer (socketId : string) (name : option string) (now : Z)
    (s : GameStateManager) : GameStateManager * Player :=
  let p := mkPlayer socketId
             (or_else name ("Player_" +:+ String.substring 0 5 socketId))
             true None false 0 0 0 0 now in
  (set_playersMap s (<[socketId := p]> (players s)), p).

(** [getPlayer(socketId)] *)
Definition getPlayer (socketId : string) (s : GameStateManager) : option Player :=
  players s !! socketId.

(** [updatePlayer(socketId, updates)]: [updates] is the effect of
    [Object.assign(player, updates)]. *)
Definition updatePlayer (socketId : string) (updates : Player → Player) (now : Z)
    (s : GameStateManager) : GameStateManager * option Player :=
  match players s !! socketId with
  | None => (s, None)
  | Some player =>
      let player' := set_lastActive (updates player) now in
      (set_playersMap s (<[socketId := player']> (players s)), Some player')
  end.

(** ** Room registry *)

(** The assignments [removePlayerFromRoom] makes to the room object, in
    source order; [None] when the call deletes the room instead (the host
    left and nobody remains). *)
Definition depart (socketId : string) (now : Z) (room : Room) : option Room :=
  let room1 := set_players room
                 (filter (λ id, id ≠ socketId) (r_players room)) in
  let after_host : option Room :=
    if decide (socketId = hostId room1) then
      match r_players room1 with
      | next :: _ =>
          let room2 := set_hostId room1 next in
          Some (if decide (guestId room2 = Some (hostId room2))
                then set_guestId room2 None else room2)
      | [] => None
      end
    else Some room1 in
  match after_host with
  | None => None
  | Some room3 =>
      let room4 := if decide (Some socketId = guestId room3)
                   then set_guestId room3 None else room3 in
      let room5 :=
        if decide (status room4 = InProgress) then
          set_gameData (set_status room4 Completed)
            (set_winner (set_endTime (gameData room4) (Some now))
                        (head (r_players room4)))
        else room4 in
      Some (set_lastActivity room5 now)
  end.

(** [removePlayerFromRoom(socketId, roomId)] *)
Definition removePlayerFromRoom (socketId roomId : string) (now : Z)
    (s : GameStateManager) : GameStateManager * Result :=
  match rooms s !! roomId with
  | None => (s, Failure "Room not found")
  | Some room =>
      let idx := delete socketId (playerToRoom s) in
      match depart socketId now room with
      | None => (mkGSM (delete roomId (rooms s)) (players s) idx, RoomClosed)
      | Some room' =>
          (mkGSM (<[roomId := room']> (rooms s)) (players s) idx, RoomOk room')
      end
  end.

(** [leaveAllRooms(socketId)] *)
Definition leaveAllRooms (socketId : string) (now : Z)
    (s : GameStateManager) : GameStateManager * Result :=
  match playerToRoom s !! socketId with
  | Some roomId => removePlayerFromRoom socketId roomId now s
  | None => (s, NoRoomFound)
  end.

(** [unregisterPlayer(socketId)] *)
Definition unregisterPlayer (socketId : string) (now : Z)
    (s : GameStateManager) : GameStateManager :=
  let s1 := match playerToRoom s !! socketId with
            | Some roomId => fst (removePlayerFromRoom socketId roomId now s)
            | None => s
            end in
  mkGSM (rooms s1) (delete socketId (players s1)) (delete socketId (playerToRoom s1)).

(** *** Room codes *)

Definition chars : string := "ABCDEFGHJKLMNPQRSTUVWXYZ23456789".

(** [s.charAt(i)]: the empty string when [i] is out of range. *)
Definition charAt (s : string) (i : nat) : string :=
  match String.get i s with
  | Some c => String c EmptyString
  | None => EmptyString
  end.

(** One pass of the inner [for] loop consumes six values of
    [Math.floor(Math.random() * chars.length)]; a random value is modelled
    by a natural number reduced modulo the alphabet length. *)
Definition draw : Type := (nat * nat * nat * nat * nat * nat)%type.

Definition pick (n : nat) : string := charAt chars (n mod String.length chars)%nat.

Definition code_of_draw (d : draw) : string :=
  match d with
  | (a, b, c, d', e, f) =>
      pick a +:+ pick b +:+ pick c +:+ pick d' +:+ pick e +:+ pick f
  end.

(** [generateRoomCode()]: the [do ... while (this.rooms.has(code))] loop
    over the supplied random draws; [None] when they are exhausted before an
    unused code shows up (the loop has not terminated yet). *)
Fixpoint generateRoomCode (rms : gmap string Room) (rand : list draw) : option string :=
  match rand with
  | [] => None
  | d :: rest =>
      let code := code_of_draw d in
      match rms !! code with
      | Some _ => generateRoomCode rms rest
      | None => Some code
      end
  end.

Record RoomData := mkRoomData {
  rd_name : option string;
  rd_isPrivate : option bool;
  rd_roomId : option string
}.

(** [roomData.roomId || this.generateRoomCode()] *)
Definition resolveRoomId (roomData : RoomData) (rand : list draw)
    (s : GameStateManager) : option string :=
  match rd_roomId roomData with
  | Some v => if truthy v then Some v else generateRoomCode (rooms s) rand
  | None => generateRoomCode (rooms s) rand
  end.

(** [createRoom(hostId, roomData)]; the result is [null] when the host is
    not registered. *)
Definition createRoom (hostId_ : string) (roomData : RoomData) (rand : list draw)
    (now : Z) (s : GameStateManager) : option (GameStateManager * option Room) :=
  match resolveRoomId roomData rand s with
  | None => None
  | Some roomId =>
      let s1 := fst (leaveAllRooms hostId_ now s) in
      match players s1 !! hostId_ with
      | None => Some (s1, None)
      | Some host =>
          let room :=
            mkRoom roomId
                   (or_else (rd_name roomData) (p_name host +:+ "'s Room"))
                   hostId_ None Waiting
                   (default false (rd_isPrivate roomData))
                   2%nat [hostId_] []
                   (mkGameData 0 None [] None None None)
                   now now in
          Some (mkGSM (<[roomId := room]> (rooms s1)) (players s1)
                      (<[hostId_ := roomId]> (playerToRoom s1)),
                Some room)
      end
  end.

(** [addPlayerToRoom(socketId, roomId)].  [room] is fetched before
    [leaveAllRooms] runs and mutated after it.  [leaveAllRooms] touches that
    same object only when the player's index entry names [roomId]; the
    object is then still registered unless the call closed the room, so
    re-reading [roomId] after the call yields the object being mutated, and
    when the entry is gone the object is the closed room with the player
    filtered out of its roster: the pushes then land on an object that is no
    longer in [rooms]. *)
Definition addPlayerToRoom (socketId roomId : string) (now : Z)
    (s : GameStateManager) : GameStateManager * Result :=
  match rooms s !! roomId with
  | None => (s, Failure "Room not found")
  | Some room =>
      match players s !! socketId with
      | None => (s, Failure "Player not found")
      | Some player =>
          if (maxPlayers room <=? length (r_players room))%nat then
            (s, Failure "Room is full")
          else if decide (status room ≠ Waiting) then
            (s, Failure "Room is not accepting new players")
          else
            let s1 := fst (leaveAllRooms socketId now s) in
            let registered := rooms s1 !! roomId in
            let room1 := default
                           (set_players room
                              (filter (λ id, id ≠ socketId) (r_players room)))
                           registered in
            let room2 := set_players room1 (r_players room1 ++ [socketId]) in
            let room3 := if decide (length (r_players room2) = 2%nat)
                         then set_guestId room2 (Some socketId) else room2 in
            let room4 := set_lastActivity room3 now in
            (mkGSM (match registered with
                    | Some _ => <[roomId := room4]> (rooms s1)
                    | None => rooms s1
                    end)
                   (players s1)
                   (<[socketId := roomId]> (playerToRoom s1)),
             RoomOk room4)
      end
  end.

(** ** Match engine *)

(** [setPlayerCharacter(socketId, character)] *)
Definition setPlayerCharacter (socketId : string) (c : Character) (now : Z)
    (s : GameStateManager) : GameStateManager * Result :=
  match updatePlayer socketId (assign_character c) now s with
  | (_, None) => (s, Failure "Player not found")
  | (s1, Some player) =>
      match playerToRoom s1 !! socketId with
      | None => (s1, Failure "Player not in a room")
      | Some roomId =>
          if negb (truthy roomId) then (s1, Failure "Player not in a room")
          else
            match rooms s1 !! roomId with
            | None => (s1, Failure "Room not found")
            | Some room =>
                let room1 := set_lastActivity room now in
                (set_rooms s1 (<[roomId := room1]> (rooms s1)),
                 PlayerRoomOk player room1)
            end
      end
  end.

(** [room.players.every(id => this.players.get(id).isReady)]: stops at the
    first player who is not ready, throws on a roster entry without a player
    record. *)
Fixpoint every_isReady (ps : gmap string Player) (roster : list string) : outcome bool :=
  match roster with
  | [] => Returned true
  | id :: rest =>
      match ps !! id with
      | None => Thrown "TypeError: Cannot read properties of undefined (reading 'isReady')"
      | Some p => if isReady p then every_isReady ps rest else Returned false
      end
  end.

(** [setPlayerReady(socketId, isReady)] *)
Definition setPlayerReady (socketId : string) (ready : bool) (now : Z)
    (s : GameStateManager) : GameStateManager * outcome Result :=
  match updatePlayer socketId (λ p, set_isReady p ready) now s with
  | (_, None) => (s, Returned (Failure "Player not found"))
  | (s1, Some player) =>
      match playerToRoom s1 !! socketId with
      | None => (s1, Returned (Failure "Player not in a room"))
      | Some roomId =>
          if negb (truthy roomId) then (s1, Returned (Failure "Player not in a room"))
          else
            match rooms s1 !! roomId with
            | None => (s1, Returned (Failure "Room not found"))
            | Some room =>
                let all :=
                  if decide (length (r_players room) = 2%nat)
                  then every_isReady (players s1) (r_players room)
                  else Returned false in
                match all with
                | Thrown e => (s1, Thrown e)
                | Returned allReady =>
                    let room1 :=
                      if allReady && bool_decide (status room = Waiting)
                      then set_status room Ready else room in
                    let room2 := set_lastActivity room1 now in
                    (set_rooms s1 (<[roomId := room2]> (rooms s1)),
                     Returned (ReadyOk player room2 allReady))
                end
            end
      end
  end.

(** [startGame(roomId)].  The status is assigned before the object literal
    for [gameData] is evaluated, so a missing host record throws with the
    status already changed. *)
Definition startGame (roomId : string) (now : Z)
    (s : GameStateManager) : GameStateManager * outcome Result :=
  match rooms s !! roomId with
  | None => (s, Returned (Failure "Room not found"))
  | Some room =>
      if decide (status room ≠ Ready) then
        (s, Returned (Failure "Not all players are ready"))
      else if decide (length (r_players room) ≠ 2%nat) then
        (s, Returned (Failure "Need exactly 2 players to start"))
      else
        let room1 := set_status room InProgress in
        match players s !! hostId room1 with
        | None =>
            (set_rooms s (<[roomId := room1]> (rooms s)),
             Thrown "TypeError: Cannot read properties of undefined (reading 'name')")
        | Some host =>
            let room2 := set_gameData room1
                           (mkGameData 1 (Some (hostId room1))
                              ["Battle started!"; p_name host +:+ " goes first!"]
                              (Some now) None None) in
            let room3 := set_lastActivity room2 now in
            (set_rooms s (<[roomId := room3]> (rooms s)), Returned (RoomOk room3))
        end
  end.

Record Action := mkAction {
  a_type : string;
  abilityId : option string
}.

(** The object [processGameAction] returns: the fields of the dispatch
    result spread over [{success: true}], plus [gameOver], [winner] and
    [room].  [actingPlayer] and [targetPlayer] are the two player objects as
    the caller sees them after the call. *)
Record ActionResult := mkActionResult {
  success : bool;
  error : option string;
  ar_ability : option Ability;
  ar_damage : option Z;
  surrender : bool;
  ar_actingPlayer : option Player;
  ar_targetPlayer : option Player;
  gameOver : bool;
  ar_winner : option string;
  ar_room : option Room
}.

Definition failed (e : string) : ActionResult :=
  mkActionResult false (Some e) None None false None None false None None.

Definition with_players (r : ActionResult) (a t : Player) : ActionResult :=
  mkActionResult (success r) (error r) (ar_ability r) (ar_damage r) (surrender r)
    (ar_actingPlayer r ≫= λ _, Some a) (ar_targetPlayer r ≫= λ _, Some t)
    (gameOver r) (ar_winner r) (ar_room r).

Definition with_gameOver (r : ActionResult) (w : string) : ActionResult :=
  mkActionResult (success r) (error r) (ar_ability r) (ar_damage r) (surrender r)
    (ar_actingPlayer r) (ar_targetPlayer r) true (Some w) (ar_room r).

Definition with_room (r : ActionResult) (room : Room) : ActionResult :=
  mkActionResult (success r) (error r) (ar_ability r) (ar_damage r) (surrender r)
    (ar_actingPlayer r) (ar_targetPlayer r) (gameOver r) (ar_winner r) (Some room).

(** [character?.abilities.find(a => a.id === action.abilityId)] throws
    when there is a character and it carries no [abilities] array. *)
Definition abilities_missing (c : option Character) : bool :=
  match c with
  | Some ch => match c_abilities ch with Some _ => false | None => true end
  | None => false
  end.

(** What [character?.abilities.find(a => a.id === action.abilityId)] finds
    when it does not throw. *)
Definition find_ability (c : option Character) (aid : option string) : option Ability :=
  c ≫= λ ch, List.find (λ a, bool_decide (Some (ab_id a) = aid)) (abilities ch).

(** [Number.isSafeInteger]: the integers that are doubles and whose
    neighbours are too. *)
Definition isSafeInteger (n : Z) : Prop := (- (2 ^ 53 - 1) ≤ n ≤ 2 ^ 53 - 1)%Z.

(** The numbers of the code are doubles, those of this file integers.
    The code's [x - y] is the integer [x - y] when both operands and the
    difference are safe integers; outside that range the code rounds, and
    the integer equations of this file say nothing about it. *)
Definition exact_sub (x y : Z) : Prop :=
  isSafeInteger x ∧ isSafeInteger y ∧ isSafeInteger (x - y).

(** [processAbilityUse(actingPlayer, targetPlayer, action, room)].  The two
    player objects live in [this.players] under [actingId] and [targetId];
    the assignments to them are updates of those entries, in source order,
    so that they compose when both names denote one object.  Mana, health,
    cost and damage are integers here: see [exact_sub] for where
    [Math.max(0, x - y)] is [Z.max 0 (x - y)]. *)
Definition processAbilityUse (actingId targetId : string)
    (actingPlayer targetPlayer : Player) (action : Action) (room : Room)
    (ps : gmap string Player) : outcome (gmap string Player * Room * ActionResult) :=
  if abilities_missing (character actingPlayer) then
    Thrown "TypeError: Cannot read properties of undefined (reading 'find')"
  else
    Returned
      match find_ability (character actingPlayer) (abilityId action) with
      | None => (ps, room, failed "Ability not found")
      | Some ability =>
          if (mana actingPlayer <? manaCost ability)%Z then
            (ps, room, failed "Not enough mana")
          else
            let ps1 := alter (λ p, set_mana p
                                     (Z.max 0 (mana actingPlayer - manaCost ability)))
                             actingId ps in
            let dmg := damage ability in
            let ps2 := alter (λ p, set_health p (Z.max 0 (health targetPlayer - dmg)))
                             targetId ps1 in
            let g1 := push_log (gameData room)
                        (p_name actingPlayer +:+ " used " +:+ ab_name ability +:+ "!") in
            let g2 := push_log g1
                        (p_name targetPlayer +:+ " took " +:+ pretty dmg +:+ " damage!") in
            (ps2, set_gameData room g2,
             mkActionResult true None (Some ability) (Some dmg) false
               (Some actingPlayer) (Some targetPlayer) false None None)
      end.

(** [processSurrender(actingPlayer, targetPlayer, room)] *)
Definition processSurrender (actingId : string) (actingPlayer targetPlayer : Player)
    (room : Room) (ps : gmap string Player) : gmap string Player * Room * ActionResult :=
  let ps1 := alter (λ p, set_health p 0) actingId ps in
  let g1 := push_log (gameData room) (p_name actingPlayer +:+ " surrendered!") in
  (ps1, set_gameData room g1,
   mkActionResult true None None None true
     (Some actingPlayer) (Some targetPlayer) false None None).

(** The [switch (action.type)] of [processGameAction].  [action] is what
    the caller passed: [None] is [undefined] or [null], on which
    [action.type] throws.  [Returned None] is the [default] branch. *)
Definition dispatch (actingId targetId : string) (actingPlayer targetPlayer : Player)
    (action : option Action) (room : Room) (ps : gmap string Player)
    : outcome (option (gmap string Player * Room * ActionResult)) :=
  match action with
  | None => Thrown "TypeError: Cannot read properties of undefined (reading 'type')"
  | Some act =>
      if decide (a_type act = "ability") then
        match processAbilityUse actingId targetId actingPlayer targetPlayer
                                act room ps with
        | Thrown e => Thrown e
        | Returned r => Returned (Some r)
        end
      else if decide (a_type act = "surrender") then
        Returned (Some (processSurrender actingId actingPlayer targetPlayer room ps))
      else Returned None
  end.

(** The turn owner after a non-terminal action:
    [currentTurn === room.hostId ? room.guestId : room.hostId]. *)
Definition next_turn (room : Room) : option string :=
  if decide (currentTurn (gameData room) = Some (hostId room))
  then guestId room else Some (hostId room).

(** The part of [processGameAction] after the [switch]: win detection or
    turn advance, then the activity stamp.  [ps] and [room] are the players
    table and the room object as the dispatch left them. *)
Definition finishAction (socketId targetId roomId : string)
    (actingPlayer targetPlayer : Player) (now : Z) (s : GameStateManager)
    (ps : gmap string Player) (room : Room) (res : ActionResult)
    : GameStateManager * outcome ActionResult :=
  let acting := default actingPlayer (ps !! socketId) in
  let target := default targetPlayer (ps !! targetId) in
  let res1 := with_players res acting target in
  if ((health acting <=? 0) || (health target <=? 0))%Z then
    let w := if (health acting <=? 0)%Z then p_id target else p_id acting in
    let room1 := set_gameData (set_status room Completed)
                   (set_winner (set_endTime (gameData room) (Some now)) (Some w)) in
    match ps !! w with
    | None =>
        (mkGSM (<[roomId := room1]> (rooms s)) ps (playerToRoom s),
         Thrown "TypeError: Cannot read properties of undefined (reading 'name')")
    | Some wp =>
        let room2 := set_gameData room1
                       (push_log (gameData room1) (p_name wp +:+ " wins the battle!")) in
        let room3 := set_lastActivity room2 now in
        (mkGSM (<[roomId := room3]> (rooms s)) ps (playerToRoom s),
         Returned (with_room (with_gameOver res1 w) room3))
    end
  else
    let next := next_turn room in
    let room1 := set_gameData room
                   (set_turnCount (set_currentTurn (gameData room) next)
                                  (turnCount (gameData room) + 1)) in
    match next ≫= (ps !!.) with
    | None =>
        (mkGSM (<[roomId := room1]> (rooms s)) ps (playerToRoom s),
         Thrown "TypeError: Cannot read properties of undefined (reading 'name')")
    | Some np =>
        let room2 := set_gameData room1
                       (push_log (gameData room1) (p_name np +:+ "'s turn!")) in
        let room3 := set_lastActivity room2 now in
        (mkGSM (<[roomId := room3]> (rooms s)) ps (playerToRoom s),
         Returned (with_room res1 room3))
    end.

(** [processGameAction(socketId, action)] *)
Definition processGameAction (socketId : string) (action : option Action) (now : Z)
    (s : GameStateManager) : GameStateManager * outcome ActionResult :=
  match playerToRoom s !! socketId with
  | None => (s, Returned (failed "Player not in a room"))
  | Some roomId =>
      if negb (truthy roomId) then (s, Returned (failed "Player not in a room"))
      else
        match rooms s !! roomId with
        | None => (s, Returned (failed "Room not found"))
        | Some room =>
            if decide (status room ≠ InProgress) then
              (s, Returned (failed "Game is not in progress"))
            else if decide (currentTurn (gameData room) ≠ Some socketId) then
              (s, Returned (failed "Not your turn"))
            else
              let target := if decide (socketId = hostId room)
                            then guestId room else Some (hostId room) in
              match players s !! socketId,
                    target ≫= (λ t, (λ p, (t, p)) <$> players s !! t) with
              | Some actingPlayer, Some (targetId, targetPlayer) =>
                  match dispatch socketId targetId actingPlayer targetPlayer
                                 action room (players s) with
                  | Thrown e => (s, Thrown e)
                  | Returned None => (s, Returned (failed "Unknown action type"))
                  | Returned (Some (ps, room1, res)) =>
                      finishAction socketId targetId roomId
                                   actingPlayer targetPlayer now s ps room1 res
                  end
              | _, _ => (s, Returned (failed "Player data missing"))
              end
        end
  end.

(** ** Reaper *)

Definition defaultRoomTimeout : Z := (30 * 60 * 1000)%Z.
Definition defaultPlayerTimeout : Z := (60 * 60 * 1000)%Z.

(** [now - room.lastActivity > roomTimeout] *)
Definition room_expired (roomTimeout now : Z) (room : Room) : Prop :=
  roomTimeout < now - lastActivity room.

#[global] Instance room_expired_dec rt now room : Decision (room_expired rt now room).
Proof. unfold room_expired. apply _. Defined.

(** [cleanupInactive(roomTimeout, playerTimeout)].  The first [forEach]
    deletes every expired room and the index entry of each name on its
    roster; whether a room is expired does not depend on the deletions made
    so far, so the loop is a filter.  The second [forEach] then consults the
    index as the first loop left it. *)
Definition cleanupInactive (roomTimeout playerTimeout now : Z)
    (s : GameStateManager) : GameStateManager :=
  let evicted := filter (λ kv, room_expired roomTimeout now kv.2) (rooms s) in
  let occupants := map_to_list evicted ≫= (λ kv, r_players kv.2) in
  let idx := foldr delete (playerToRoom s) occupants in
  let rooms' := filter (λ kv, ¬ room_expired roomTimeout now kv.2) (rooms s) in
  let players' :=
    filter (λ kv, ¬ (playerTimeout < now - lastActive kv.2 ∧ idx !! kv.1 = None))
           (players s) in
  mkGSM rooms' players' idx.

(** ** The controller's state changes

    [handleUserDisconnection] and [handleLeaveRoom] of
    [controllers/gameController.js], reduced to what they do to the
    manager (the socket emissions are left out). *)

Definition handleUserDisconnection (socketId : string) (now : Z)
    (s : GameStateManager) : GameStateManager :=
  let s1 :=
    match playerToRoom s !! socketId with
    | Some roomId =>
        match rooms s !! roomId with
        | Some _ => fst (removePlayerFromRoom socketId roomId now s)
        | None => s
        end
    | None => s
    end in
  unregisterPlayer socketId now s1.

(** [handleLeaveRoom].  [data.roomId] is whatever the client sent: only a
    string can equal an index entry and only [undefined] equals a missing
    one, so it is an optional string here.  The guard
    [currentRoomId !== data.roomId] rejects the request before the manager
    is called.  A request without [roomId] from a player without an index
    entry passes the guard: [removePlayerFromRoom(id, undefined)] is
    called and finds no room, every key of [rooms] being a string. *)
Definition handleLeaveRoom (socketId : string) (roomId : option string) (now : Z)
    (s : GameStateManager) : GameStateManager * option Result :=
  if decide (playerToRoom s !! socketId ≠ roomId) then (s, None)
  else
    match roomId with
    | Some r =>
        let '(s1, res) := removePlayerFromRoom socketId r now s in (s1, Some res)
    | None => (s, Some (Failure "Room not found"))
    end.

(** ** Operation sequences *)

Inductive Op :=
  | OpRegisterPlayer (socketId : string) (name : option string) (now : Z)
  | OpUnregisterPlayer (socketId : string) (now : Z)
  | OpCreateRoom (hostId_ : string) (roomData : RoomData) (rand : list draw) (now : Z)
  | OpAddPlayerToRoom (socketId roomId : string) (now : Z)
  | OpRemovePlayerFromRoom (socketId roomId : string) (now : Z)
  | OpLeaveAllRooms (socketId : string) (now : Z)
  | OpSetPlayerCharacter (socketId : string) (c : Character) (now : Z)
  | OpSetPlayerReady (socketId : string) (ready : bool) (now : Z)
  | OpStartGame (roomId : string) (now : Z)
  | OpProcessGameAction (socketId : string) (action : option Action) (now : Z)
  | OpCleanupInactive (roomTimeout playerTimeout now : Z).

(** The manager after one call; [None] only for a [createRoom] whose code
    generator has not produced a code. *)
Definition step (op : Op) (s : GameStateManager) : option GameStateManager :=
  match op with
  | OpRegisterPlayer p n now => Some (fst (registerPlayer p n now s))
  | OpUnregisterPlayer p now => Some (unregisterPlayer p now s)
  | OpCreateRoom h rd rand now => fst <$> createRoom h rd rand now s
  | OpAddPlayerToRoom p r now => Some (fst (addPlayerToRoom p r now s))
  | OpRemovePlayerFromRoom p r now => Some (fst (removePlayerFromRoom p r now s))
  | OpLeaveAllRooms p now => Some (fst (leaveAllRooms p now s))
  | OpSetPlayerCharacter p c now => Some (fst (setPlayerCharacter p c now s))
  | OpSetPlayerReady p b now => Some (fst (setPlayerReady p b now s))
  | OpStartGame r now => Some (fst (startGame r now s))
  | OpProcessGameAction p a now => Some (fst (processGameAction p a now s))
  | OpCleanupInactive rt pt now => Some (cleanupInactive rt pt now s)
  end.

Fixpoint run (ops : list Op) (s : GameStateManager) : option GameStateManager :=
  match ops with
  | [] => Some s
  | op :: rest =>
      match step op s with
      | Some s' => run rest s'
      | None => None
      end
  end.

(** The states a manager can be in: those some sequence of calls produces
    from a fresh manager. *)
Inductive reachable : GameStateManager → Prop :=
  | reachable_init : reachable constructor
  | reachable_step op s s' : reachable s → step op s = Some s' → reachable s'.

(** A run of [processGameAction] calls. *)
Fixpoint play (calls : list (string * option Action * Z)) (s : GameStateManager)
    : GameStateManager :=
  match calls with
  | [] => s
  | (p, a, now) :: rest => play rest (fst (processGameAction p a now s))
  end.

(** ** Invariants *)

(** The reverse index agrees with the rosters. *)
Definition index_consistent (s : GameStateManager) : Prop :=
  ∀ p r, playerToRoom s !! p = Some r ↔
         ∃ room, rooms s !! r = Some room ∧ p ∈ r_players room.

(** Shape of a registered room: one or two seats, the host in the first,
    the guest field naming the second. *)
Definition room_ok (room : Room) : Prop :=
  maxPlayers room = 2%nat ∧
  match r_players room with
  | [h] => hostId room = h ∧ guestId room = None
  | [h; g] => hostId room = h ∧ guestId room = Some g
  | _ => False
  end.

Definition rooms_ok (s : GameStateManager) : Prop :=
  ∀ r room, rooms s !! r = Some room → room_ok room ∧ r ≠ EmptyString.

(** ** The chat handler *)

#[warnings="-register-all"] Inductive JsVal :=
  | JsUndefined
  | JsNull
  | JsBool (b : bool)
  | JsNum (n : Z)
  | JsStr (str : string)
  | JsObj (fields : list (string * JsVal)).

(** [v.k]: a [TypeError] on [undefined] and [null]. *)
Definition get_prop (v : JsVal) (k : string) : outcome JsVal :=
  match v with
  | JsUndefined | JsNull =>
      Thrown ("TypeError: Cannot read properties of undefined (reading '" +:+ k +:+ "')")
  | JsObj fields =>
      Returned (default JsUndefined (snd <$> List.find (λ kv, bool_decide (kv.1 = k)) fields))
  | _ => Returned JsUndefined
  end.

Definition js_truthy (v : JsVal) : bool :=
  match v with
  | JsUndefined | JsNull => false
  | JsBool b => b
  | JsNum n => negb (n =? 0)%Z
  | JsStr str => truthy str
  | JsObj _ => true
  end.

(** What [String.prototype.trim] strips: the code points of WhiteSpace
    (TAB, VT, FF, SP, NBSP, ZWNBSP and the space separators U+1680,
    U+2000 to U+200A, U+202F, U+205F, U+3000) and of LineTerminator (LF,
    CR, U+2028, U+2029).  Strings are held as their UTF-8 bytes, so a code
    point is one, two or three bytes here. *)
Definition white1 (a : ascii) : bool :=
  let n := N_of_ascii a in
  ((9 <=? n) && (n <=? 13) || (n =? 32))%N.

Definition white2 (a b : ascii) : bool :=
  ((N_of_ascii a =? 194) && (N_of_ascii b =? 160))%N.

Definition white3 (a b c : ascii) : bool :=
  let x := N_of_ascii a in
  let y := N_of_ascii b in
  let z := N_of_ascii c in
  ((x =? 225) && (y =? 154) && (z =? 128) ||
   (x =? 226) && (y =? 128) &&
     ((128 <=? z) && (z <=? 138) || (z =? 168) || (z =? 169) || (z =? 175)) ||
   (x =? 226) && (y =? 129) && (z =? 159) ||
   (x =? 227) && (y =? 128) && (z =? 128) ||
   (x =? 239) && (y =? 187) && (z =? 191))%N.

Fixpoint trimStart (x : string) : string :=
  match x with
  | String a rest =>
      if white1 a then trimStart rest
      else
        match rest with
        | String b rest2 =>
            if white2 a b then trimStart rest2
            else
              match rest2 with
              | String c rest3 => if white3 a b c then trimStart rest3 else x
              | EmptyString => x
              end
        | EmptyString => x
        end
  | EmptyString => x
  end.

(** The same on a reversed string, where the bytes of a code point come
    last byte first. *)
Fixpoint trimEnd_rev (x : string) : string :=
  match x with
  | String a rest =>
      if white1 a then trimEnd_rev rest
      else
        match rest with
        | String b rest2 =>
            if white2 b a then trimEnd_rev rest2
            else
              match rest2 with
              | String c rest3 => if white3 c b a then trimEnd_rev rest3 else x
              | EmptyString => x
              end
        | EmptyString => x
        end
  | EmptyString => x
  end.

(** [x.trim()] *)
Definition trim (x : string) : string :=
  String.rev (trimEnd_rev (String.rev (trimStart x))).

Record ChatMessage := mkChatMessage {
  cm_id : string;
  cm_playerId : string;
  cm_playerName : string;
  cm_message : string;
  cm_timestamp : Z
}.

Inductive ChatEffect :=
  | Ignored
  | Broadcast (roomId : JsVal) (message : ChatMessage).

(** The names bound inside [handleChatMessage]: its parameters and the
    top-level declarations of [gameController.js]. *)
Definition handleChatMessage_scope : list string :=
  ["socket"; "data"; "io";
   "handleUserConnection"; "handleUserDisconnection"; "handleCreateRoom";
   "handleJoinRoom"; "handleLeaveRoom"; "handleCharacterSelect";
   "handlePlayerReady"; "handleGameAction"; "handleChatMessage"].

(** Evaluating an identifier that no enclosing scope binds: a property of
    the global object when there is one, a [ReferenceError] otherwise.
    [gameState] is such an identifier inside [handleChatMessage]. *)
Definition lookup_global (x : string) (globalObject : list (string * GameStateManager))
    : outcome GameStateManager :=
  match List.find (λ kv, bool_decide (kv.1 = x)) globalObject with
  | Some kv => Returned kv.2
  | None => Thrown ("ReferenceError: " +:+ x +:+ " is not defined")
  end.

(** The entry file declares [const gameState] in its own module scope and
    passes [(socket, data, io)] to the handler: nothing defines a
    [gameState] property on the global object. *)
Definition globalObject : list (string * GameStateManager) := [].

(** [handleChatMessage(socket, data, io)], with [socket.id] for [socket]. *)
Definition handleChatMessage (globals : list (string * GameStateManager))
    (socketId : string) (data : JsVal) (now : Z) : outcome ChatEffect :=
  match get_prop data "roomId" with
  | Thrown e => Thrown e
  | Returned roomId =>
      match get_prop data "message" with
      | Thrown e => Thrown e
      | Returned message =>
          match message with
          | JsStr text =>
              if negb (truthy text) || bool_decide (trim text = EmptyString)
              then Returned Ignored
              else
                match lookup_global "gameState" globals with
                | Thrown e => Thrown e
                | Returned gs =>
                    match getPlayer socketId gs with
                    | None => Returned Ignored
                    | Some player =>
                        Returned (Broadcast roomId
                          (mkChatMessage (pretty now) socketId (p_name player)
                             (String.substring 0 500 (trim text)) now))
                    end
                end
          | _ => Returned Ignored
          end
      end
  end.

(** ** Sample data for the scenarios *)

Definition bolt : Ability := mkAbility "bolt" "Bolt" 10 20.
Definition smash : Ability := mkAbility "smash" "Smash" 0 25.
Definition mage : Character := mkCharacter "mage" "Mage" 100 10 (Some [bolt; smash]).

Definition useAbility (aid : string) : option Action :=
  Some (mkAction "ability" (Some aid)).
Definition doSurrender : option Action := Some (mkAction "surrender" None).

Definition unnamed : RoomData := mkRoomData None None None.
Definition named (r : string) : RoomData := mkRoomData None None (Some r).

(** Two outputs of the code generator: [ABCDEF] and [BBBBBB]. *)
Definition draw1 : draw := (0, 1, 2, 3, 4, 5)%nat.
Definition draw2 : draw := (1, 1, 1, 1, 1, 1)%nat.

(** Two registered players, [A] hosting a room under a generated code. *)
Definition lobby_ops : list Op :=
  [OpRegisterPlayer "A" None 0; OpRegisterPlayer "B" None 0;
   OpCreateRoom "A" unnamed [draw1] 1].

(** Scenario A: [B] joins, both pick the mage and ready up; then the game
    starts. *)
Definition ready_ops : list Op :=
  lobby_ops ++
  [OpAddPlayerToRoom "B" "ABCDEF" 2;
   OpSetPlayerCharacter "A" mage 3; OpSetPlayerCharacter "B" mage 4;
   OpSetPlayerReady "A" true 5; OpSetPlayerReady "B" true 6].

Definition match_ops : list Op := ready_ops ++ [OpStartGame "ABCDEF" 7].

Definition after (ops : list Op) : GameStateManager :=
  default constructor (run ops constructor).

(** A character object without an [abilities] array, and the match of
    scenario A with the host playing it. *)
Definition bare : Character := mkCharacter "bare" "Bare" 100 10 None.

Definition bare_ops : list Op :=
  lobby_ops ++
  [OpAddPlayerToRoom "B" "ABCDEF" 2;
   OpSetPlayerCharacter "A" bare 3; OpSetPlayerCharacter "B" mage 4;
   OpSetPlayerReady "A" true 5; OpSetPlayerReady "B" true 6;
   OpStartGame "ABCDEF" 7].

(** What an operation may do to a registered room, as far as the seating
    and the terminal status are concerned. *)
Definition same_seats (room room' : Room) : Prop :=
  r_players room' = r_players room ∧ hostId room' = hostId room ∧
  guestId room' = guestId room ∧ maxPlayers room' = maxPlayers room.

Definition room_moves (room room' : Room) : Prop :=
  (room_ok room → room_ok room') ∧
  (status room = Completed → status room' = Completed).

(** The room [createRoom] has just put under [r]. *)
Definition created (op : Op) (s : GameStateManager) (r : string) (room' : Room) : Prop :=
  ∃ h rd rand now,
    op = OpCreateRoom h rd rand now ∧ resolveRoomId rd rand s = Some r ∧
    r_players room' = [h] ∧ hostId room' = h ∧ guestId room' = None ∧
    status room' = Waiting ∧ maxPlayers room' = 2%nat.

(** A third player hosting a room of their own next to the running match. *)
Definition bystander_ops : list Op :=
  match_ops ++ [OpRegisterPlayer "C" None 8; OpCreateRoom "C" unnamed [draw2] 8].

(** [A] asks to join the room [A] is already hosting alone. *)
Definition rejoin_ops : list Op :=
  lobby_ops ++ [OpAddPlayerToRoom "A" "ABCDEF" 2].

(** [B] creates a room under the code of [A]'s room. *)
Definition overwrite_ops : list Op :=
  lobby_ops ++ [OpCreateRoom "B" (named "ABCDEF") [] 2].

(** [A] and [B] each host a room; [A] is removed from [B]'s room, in which
    [A] has no seat, and then joins the room [A] is hosting. *)
Definition double_seat_ops : list Op :=
  lobby_ops ++
  [OpCreateRoom "B" unnamed [draw2] 2;
   OpRemovePlayerFromRoom "A" "BBBBBB" 3;
   OpAddPlayerToRoom "A" "ABCDEF" 4].

(** A chat message as the client sends it. *)
Definition chat (roomId text : string) : JsVal :=
  JsObj [("roomId", JsStr roomId); ("message", JsStr text)].

(** A no-break space, U+00A0. *)
Definition nbsp : string :=
  String (ascii_of_nat 194) (String (ascii_of_nat 160) EmptyString).

(** [p] has a seat in a room the sweep evicts. *)
Definition evicted_occupant (rt now : Z) (s : GameStateManager) (p : string) : Prop :=
  ∃ r room, rooms s !! r = Some room ∧ room_expired rt now room ∧ p ∈ r_players room.

(** Scenario E: [A]'s room was last touched at 0, [B]'s two minutes
    later; the sweep runs at minute 31 and again an hour after the start. *)
Definition idle_ops : list Op :=
  [OpRegisterPlayer "A" None 0; OpRegisterPlayer "B" None 0;
   OpCreateRoom "A" unnamed [draw1] 0;
   OpCreateRoom "B" unnamed [draw2] (2 * 60 * 1000)].

Definition minutes (n : Z) : Z := (n * 60 * 1000)%Z.

(** The call is a [createRoom] whose room code resolves to [r]. *)
Definition creates_at (r : string) (op : Op) (s : GameStateManager) : Prop :=
  ∃ h rd rand now, op = OpCreateRoom h rd rand now ∧ resolveRoomId rd rand s = Some r.

(** Some call of the sequence, run from [s], is a [createRoom] at [r]. *)
Fixpoint creates_during (r : string) (ops : list Op) (s : GameStateManager) : Prop :=
  match ops with
  | [] => False
  | op :: rest =>
      creates_at r op s ∨
      match step op s with
      | Some s1 => creates_during r rest s1
      | None => False
      end
  end.

(** The room under [r] is gone or completed. *)
Definition closed_at (r : string) (s : GameStateManager) : Prop :=
  match rooms s !! r with
  | Some room => status room = Completed
  | None => True
  end.

(** The match of scenario A after the host has surrendered, and the guest
    then creating a room under the finished room's code. *)
Definition finished_ops : list Op :=
  match_ops ++ [OpProcessGameAction "A" doSurrender 8].

Definition reuse_code : Op := OpCreateRoom "B" (named "ABCDEF") [] 9.

(** The shape of a running match between [h] and [g]: turn 1 is the
    host's, and the turn owner follows the parity of the counter. *)
Definition turn_of (h g : string) (n : Z) : string := if Z.odd n then h else g.

Definition match_inv (h g : string) (room : Room) : Prop :=
  r_players room = [h; g] ∧ hostId room = h ∧ guestId room = Some g ∧
  (status room = Completed ∨
   (status room = InProgress ∧ (1 ≤ turnCount (gameData room))%Z ∧
    currentTurn (gameData room) = Some (turn_of h g (turnCount (gameData room))))).

(** What one [processGameAction] call by [p] did to the room: nothing, or
    it ended the match with the counter as it was, or it passed the turn to
    the other player and added one to the counter. *)
Definition action_effect (h g p : string) (room room' : Room) : Prop :=
  room' = room ∨
  (status room = InProgress ∧ currentTurn (gameData room) = Some p ∧
   ((status room' = Completed ∧
     turnCount (gameData room') = turnCount (gameData room)) ∨
    (status room' = InProgress ∧
     turnCount (gameData room') = (turnCount (gameData room) + 1)%Z ∧
     currentTurn (gameData room') = Some (if decide (p = h) then g else h)))).

(** ** Listings *)

(** [getRoom(roomId)] *)
Definition getRoom (roomId : string) (s : GameStateManager) : option Room :=
  rooms s !! roomId.

(** One entry of the public listing. *)
Record RoomSummary := mkRoomSummary {
  rs_id : string;
  rs_name : string;
  rs_hostId : string;
  rs_hostName : string;
  rs_players : nat;
  rs_maxPlayers : nat;
  rs_createdAt : Z
}.

(** [!room.isPrivate && room.status === 'waiting' &&
     room.players.length < room.maxPlayers] *)
Definition listed (room : Room) : Prop :=
  isPrivate room = false ∧ status room = Waiting ∧
  (length (r_players room) < maxPlayers room)%nat.

#[global] Instance listed_dec room : Decision (listed room).
Proof. unfold listed. apply _. Defined.

Definition summary (s : GameStateManager) (room : Room) : RoomSummary :=
  mkRoomSummary (r_id room) (r_name room) (hostId room)
    (or_else (p_name <$> players s !! hostId room) "Unknown Host")
    (length (r_players room)) (maxPlayers room) (createdAt room).

(** [getPublicRooms()].  The source pushes the summaries in the insertion
    order of the [Map]; the table here does not record that order, so the
    list comes in the order of the keys and only what is on it is meant. *)
Definition getPublicRooms (s : GameStateManager) : list RoomSummary :=
  summary s <$> filter listed (map_to_list (rooms s)).*2.

(** ** Socket events

    The handlers of [controllers/gameController.js] as the manager sees
    them: which manager calls an event leads to, guards included.  The
    emissions are left out; a handler that throws before it calls the
    manager leaves the manager as it was. *)

Inductive Event :=
  | EvConnect (socketId : string) (now : Z)
  | EvDisconnect (socketId : string) (now : Z)
  | EvCreateRoom (socketId : string) (name : option string)
                 (isPrivate_ : option bool) (rand : list draw) (now : Z)
  | EvJoinRoom (socketId roomId : string) (now : Z)
  | EvLeaveRoom (socketId : string) (roomId : option string) (now : Z)
  | EvSelectCharacter (socketId : string) (c : Character) (now : Z)
  | EvPlayerReady (socketId : string) (ready : bool) (now : Z)
  | EvCountdown (roomId : string) (now : Z)
  | EvGameAction (socketId : string) (action : option Action) (now : Z).

(** [handleUserConnection]: the name is always supplied. *)
Definition handleUserConnection (socketId : string) (now : Z)
    (s : GameStateManager) : GameStateManager :=
  (registerPlayer socketId (Some ("Player_" +:+ String.substring 0 5 socketId)) now s).1.

(** [handleCreateRoom]: only [name] and [isPrivate] are passed on. *)
Definition handleCreateRoom (socketId : string) (name : option string)
    (isPrivate_ : option bool) (rand : list draw) (now : Z)
    (s : GameStateManager) : option GameStateManager :=
  fst <$> createRoom socketId (mkRoomData name isPrivate_ None) rand now s.

(** [handleJoinRoom] *)
Definition handleJoinRoom (socketId roomId : string) (now : Z)
    (s : GameStateManager) : GameStateManager :=
  (addPlayerToRoom socketId roomId now s).1.

(** The guard [const roomId = gameState.playerToRoom.get(socket.id);
    if (!roomId) ...] shared by the next three handlers. *)
Definition in_a_room (socketId : string) (s : GameStateManager) : bool :=
  match playerToRoom s !! socketId with
  | Some roomId => truthy roomId
  | None => false
  end.

(** [handleCharacterSelect] *)
Definition handleCharacterSelect (socketId : string) (c : Character) (now : Z)
    (s : GameStateManager) : GameStateManager :=
  if in_a_room socketId s then (setPlayerCharacter socketId c now s).1 else s.

(** [handlePlayerReady], up to the countdown: [player.character] throws on
    a missing player and stops the handler on a missing character. *)
Definition handlePlayerReady (socketId : string) (ready : bool) (now : Z)
    (s : GameStateManager) : GameStateManager :=
  if in_a_room socketId s then
    match getPlayer socketId s with
    | Some player =>
        match character player with
        | Some _ => (setPlayerReady socketId ready now s).1
        | None => s
        end
    | None => s
    end
  else s.

(** [handleGameAction]: [data] is the action.  The handler's first
    statement reads [data.type] for its log line, so on a missing [data] it
    throws before the manager is called. *)
Definition handleGameAction (socketId : string) (action : option Action) (now : Z)
    (s : GameStateManager) : GameStateManager :=
  match action with
  | None => s
  | Some _ =>
      if in_a_room socketId s then (processGameAction socketId action now s).1 else s
  end.

(** The manager after one event; [EvCountdown] is the timer that
    [handlePlayerReady] sets firing [startGame]. *)
Definition handle (ev : Event) (s : GameStateManager) : option GameStateManager :=
  match ev with
  | EvConnect p now => Some (handleUserConnection p now s)
  | EvDisconnect p now => Some (handleUserDisconnection p now s)
  | EvCreateRoom p n pr rand now => handleCreateRoom p n pr rand now s
  | EvJoinRoom p r now => Some (handleJoinRoom p r now s)
  | EvLeaveRoom p r now => Some (handleLeaveRoom p r now s).1
  | EvSelectCharacter p c now => Some (handleCharacterSelect p c now s)
  | EvPlayerReady p b now => Some (handlePlayerReady p b now s)
  | EvCountdown r now => Some (startGame r now s).1
  | EvGameAction p a now => Some (handleGameAction p a now s)
  end.

(** The states a server reaches from a fresh manager through socket
    events. *)
Inductive served : GameStateManager → Prop :=
  | served_init : served constructor
  | served_event ev s s' : served s → handle ev s = Some s' → served s'.

(** ** Further invariants *)

(** A call of [removePlayerFromRoom] is guarded when it names the room the
    index gives for the player, as both call sites in the controller do. *)
Definition guarded (op : Op) (s : GameStateManager) : Prop :=
  match op with
  | OpRemovePlayerFromRoom p r _ => playerToRoom s !! p = Some r
  | _ => True
  end.

Inductive reachable_guarded : GameStateManager → Prop :=
  | guarded_init : reachable_guarded constructor
  | guarded_step op s s' :
      reachable_guarded s → guarded op s → step op s = Some s' →
      reachable_guarded s'.

(** Every name on a roster is registered, is indexed to that room, and is
    on the roster once. *)
Definition seated_once (s : GameStateManager) : Prop :=
  ∀ r room, rooms s !! r = Some room →
    NoDup (r_players room) ∧
    ∀ p, p ∈ r_players room →
         playerToRoom s !! p = Some r ∧ is_Some (players s !! p).

(** Player records are filed under their own id. *)
Definition players_ok (s : GameStateManager) : Prop :=
  ∀ k pl, players s !! k = Some pl → p_id pl = k.

(** Rooms are filed under their own id. *)
Definition rooms_keyed (s : GameStateManager) : Prop :=
  ∀ r room, rooms s !! r = Some room → r_id room = r.

Definition status_rank (st : Status) : nat :=
  match st with Waiting => 0 | Ready => 1 | InProgress => 2 | Completed => 3 end.

(** What stays of a room object for as long as it is registered. *)
Definition same_room (room room' : Room) : Prop :=
  r_id room' = r_id room ∧ r_name room' = r_name room ∧
  isPrivate room' = isPrivate room ∧ maxPlayers room' = maxPlayers room ∧
  createdAt room' = createdAt room ∧
  (status_rank (status room) ≤ status_rank (status room'))%nat.






(** The room object after the pushes of [addPlayerToRoom]. *)
Definition seat (socketId : string) (now : Z) (room : Room) : Room :=
  let room2 := set_players room (r_players room ++ [socketId]) in
  let room3 := if decide (length (r_players room2) = 2%nat)
               then set_guestId room2 (Some socketId) else room2 in
  set_lastActivity room3 now.

(** What a game action leaves of a player record. *)
Definition same_identity (pl pl' : Player) : Prop :=
  p_id pl' = p_id pl ∧ p_name pl' = p_name pl ∧ isConnected pl' = isConnected pl ∧
  character pl' = character pl ∧ isReady pl' = isReady pl ∧
  maxHealth pl' = maxHealth pl ∧ maxMana pl' = maxMana pl ∧
  lastActive pl' = lastActive pl.

(** What a game action may do to a player record in state [s]: pay the
    cost of one of the player's own abilities, and be set to zero health or
    take the damage of an ability some registered player's character
    declares. *)
Definition battle_step (s : GameStateManager) (pl pl' : Player) : Prop :=
  same_identity pl pl' ∧
  (mana pl' = mana pl ∨
   ∃ c ab, character pl = Some c ∧ ab ∈ abilities c ∧
           mana pl' = Z.max 0 (mana pl - manaCost ab)) ∧
  (health pl' = health pl ∨ health pl' = 0%Z ∨
   ∃ q plq c ab, players s !! q = Some plq ∧ character plq = Some c ∧
                 ab ∈ abilities c ∧
                 health pl' = Z.max 0 (health pl - damage ab)).

(** [p] is on no roster. *)
Definition unseated (p : string) (s : GameStateManager) : Prop :=
  ∀ r room, rooms s !! r = Some room → p ∉ r_players room.

(** A run of socket events. *)
Fixpoint serve (evs : list Event) (s : GameStateManager) : option GameStateManager :=
  match evs with
  | [] => Some s
  | ev :: rest =>
      match handle ev s with
      | Some s' => serve rest s'
      | None => None
      end
  end.

(** Scenario A as the sockets deliver it, up to the countdown. *)
Definition match_events : list Event :=
  [EvConnect "A" 0; EvConnect "B" 0; EvCreateRoom "A" None None [draw1] 1;
   EvJoinRoom "B" "ABCDEF" 2;
   EvSelectCharacter "A" mage 3; EvSelectCharacter "B" mage 4;
   EvPlayerReady "A" true 5; EvPlayerReady "B" true 6].

(** The match of scenario A played through the sockets until the host
    surrenders. *)
Definition finished_events : list Event :=
  match_events ++ [EvCountdown "ABCDEF" 7; EvGameAction "A" doSurrender 8].

(** At some point of the run of [evs] from [s] no room is registered
    under [r]. *)
Fixpoint vacated_during (r : string) (evs : list Event) (s : GameStateManager) : Prop :=
  match evs with
  | [] => False
  | ev :: rest =>
      match handle ev s with
      | Some s1 => rooms s1 !! r = None ∨ vacated_during r rest s1
      | None => False
      end
  end.

(** What every stored player record satisfies: it is filed under its own
    id, has a name, is marked connected, and its maxima are those of the
    character it carries. *)
Definition record_ok (k : string) (pl : Player) : Prop :=
  p_id pl = k ∧ p_name pl ≠ EmptyString ∧ isConnected pl = true ∧
  match character pl with
  | Some c => maxHealth pl = c_health c ∧ maxMana pl = c_mana c
  | None => maxHealth pl = 0%Z ∧ maxMana pl = 0%Z
  end.

(** * Properties *)

(** ** Basic facts *)

(** Closes an equation between closed terms by evaluation. *)
Ltac by_compute := vm_compute; reflexivity.

Ltac case_all :=
  repeat (case_decide || case_bool_decide || case_match); simplify_eq/=.

Lemma truthy_nonempty x : truthy x = true ↔ x ≠ EmptyString.
Proof. destruct x; simpl; split; (done || congruence). Qed.

Lemma run_app ops1 ops2 s :
  run (ops1 ++ ops2) s = run ops1 s ≫= run ops2.
Proof.
  revert s. induction ops1 as [|op ops1 IH]; intros s; simpl; [done|].
  destruct (step op s); simpl; auto.
Qed.

Lemma run_reachable ops s s' : reachable s → run ops s = Some s' → reachable s'.
Proof.
  revert s. induction ops as [|op ops IH]; simpl; intros s Hs Hrun.
  - by simplify_eq.
  - destruct (step op s) as [s1|] eqn:Hstep; [|done].
    eapply IH; [|done]. by eapply reachable_step.
Qed.

(** ** The room object under [removePlayerFromRoom] *)

Lemma filter_ne_cons (p h : string) (l : list string) :
  filter (λ id, id ≠ p) (h :: l) =
  if decide (h = p) then filter (λ id, id ≠ p) l else h :: filter (λ id, id ≠ p) l.
Proof. rewrite filter_cons. repeat case_decide; congruence. Qed.

Lemma filter_ne_notin (p : string) (l : list string) :
  p ∉ l → filter (λ id, id ≠ p) l = l.
Proof.
  induction l as [|h l IH]; [done|].
  rewrite not_elem_of_cons. intros [Hne Hl].
  rewrite filter_ne_cons. case_decide; [congruence|]. by rewrite IH.
Qed.

Lemma depart_ok p now room room' :
  room_ok room → depart p now room = Some room' → room_ok room'.
Proof.
  destruct room as [i n h g st pr mp ps sp gd ca la].
  unfold room_ok, depart; simpl. intros [-> Hshape] Hd.
  destruct ps as [|a [|b [|c ps]]]; try done; destruct Hshape as [-> ->];
    rewrite ?filter_ne_cons, ?filter_nil in Hd; simpl in Hd;
    case_all; done.
Qed.

Lemma depart_length p now room room' :
  depart p now room = Some room' →
  (length (r_players room') ≤ length (r_players room))%nat.
Proof.
  destruct room as [i n h g st pr mp ps sp gd ca la].
  unfold depart; simpl. intros Hd.
  assert (length (filter (λ id, id ≠ p) ps) ≤ length ps)%nat by apply length_filter.
  case_all; simpl; done.
Qed.

Lemma depart_completed p now room room' :
  depart p now room = Some room' → status room = Completed →
  status room' = Completed.
Proof.
  destruct room as [i n h g st pr mp ps sp gd ca la].
  unfold depart; simpl. intros Hd ->. case_all; done.
Qed.

(** ** What each operation does to the rooms table *)

Lemma room_moves_refl room : room_moves room room.
Proof. by split. Qed.

Lemma room_moves_depart p now room room' :
  depart p now room = Some room' → room_moves room room'.
Proof. split; eauto using depart_ok, depart_completed. Qed.

Lemma same_seats_moves room room' :
  same_seats room room' → (status room = Completed → status room' = Completed) →
  room_moves room room'.
Proof.
  intros (Hp & Hh & Hg & Hm) Hst. split; [|done].
  unfold room_ok. by rewrite Hp, Hh, Hg, Hm.
Qed.

Lemma removePlayerFromRoom_room p r now s r' room' :
  rooms (removePlayerFromRoom p r now s).1 !! r' = Some room' →
  ∃ room, rooms s !! r' = Some room ∧
          (room' = room ∨ (r' = r ∧ depart p now room = Some room')).
Proof.
  unfold removePlayerFromRoom.
  destruct (rooms s !! r) as [room|] eqn:Hr; simpl; [|by eauto].
  destruct (depart p now room) as [room1|] eqn:Hd; simpl.
  - rewrite lookup_insert_Some. intros [[<- <-]|[? ?]]; eauto.
  - rewrite lookup_delete_Some. intros [? ?]; eauto.
Qed.

Lemma leaveAllRooms_room p now s r' room' :
  rooms (leaveAllRooms p now s).1 !! r' = Some room' →
  ∃ room, rooms s !! r' = Some room ∧
          (room' = room ∨
           (playerToRoom s !! p = Some r' ∧ depart p now room = Some room')).
Proof.
  unfold leaveAllRooms. destruct (playerToRoom s !! p) as [r|] eqn:Hi; simpl.
  - intros (room & ? & [?|[-> ?]])%removePlayerFromRoom_room; eauto.
  - eauto.
Qed.

Lemma depart_status p now room room' :
  depart p now room = Some room' → status room ≠ InProgress →
  status room' = status room.
Proof.
  destruct room as [i n h g st pr mp ps sp gd ca la].
  unfold depart; simpl. intros Hd Hst. case_all; done.
Qed.

Lemma leaveAllRooms_moves p now s r' room' :
  rooms (leaveAllRooms p now s).1 !! r' = Some room' →
  ∃ room, rooms s !! r' = Some room ∧ room_moves room room' ∧
          (length (r_players room') ≤ length (r_players room))%nat ∧
          (status room ≠ InProgress → status room' = status room).
Proof.
  intros (room & Hr & [->|[_ Hd]])%leaveAllRooms_room.
  - exists room. split_and!; auto using room_moves_refl.
  - exists room. split_and!; eauto using room_moves_depart, depart_length, depart_status.
Qed.

Lemma same_seats_refl room : same_seats room room.
Proof. by repeat split. Qed.

(** Closes a goal about a table entry the operation left as it was. *)
Ltac unchanged :=
  intros; eexists; split; [eassumption|];
  repeat split; auto using same_seats_refl.

Lemma updatePlayer_rooms p f now s : rooms (updatePlayer p f now s).1 = rooms s.
Proof. unfold updatePlayer. by destruct (players s !! p). Qed.

Lemma updatePlayer_index p f now s :
  playerToRoom (updatePlayer p f now s).1 = playerToRoom s.
Proof. unfold updatePlayer. by destruct (players s !! p). Qed.

Lemma addPlayerToRoom_moves p r now s r' room' :
  rooms (addPlayerToRoom p r now s).1 !! r' = Some room' →
  ∃ room, rooms s !! r' = Some room ∧ room_moves room room'.
Proof.
  unfold addPlayerToRoom.
  destruct (rooms s !! r) as [room|] eqn:Hr; simpl; [|by eauto using room_moves_refl].
  destruct (players s !! p) as [pl|] eqn:Hp; simpl; [|by eauto using room_moves_refl].
  destruct (maxPlayers room <=? length (r_players room))%nat eqn:Hfull; simpl;
    [by eauto using room_moves_refl|].
  apply Nat.leb_gt in Hfull.
  case_decide as Hst; simpl; [by eauto using room_moves_refl|].
  assert (status room = Waiting) as Hw by (by destruct (status room)).
  destruct (rooms (leaveAllRooms p now s).1 !! r) as [r1|] eqn:Hreg; simpl.
  - rewrite lookup_insert_Some. intros [[<- <-]|[Hne Hl]].
    + apply leaveAllRooms_moves in Hreg as (room0 & Hr0 & [Hok _] & Hlen & Hkeep).
      assert (room0 = room) as -> by congruence.
      exists room. split; [done|]. split; [|by rewrite Hw].
      intros Hroom. specialize (Hok Hroom).
      destruct Hroom as [Hmax _]. rewrite Hmax in Hfull.
      destruct r1 as [i n h g st pr mp ps sp gd ca la].
      unfold room_ok in *; simpl in *.
      destruct Hok as [-> Hshape].
      destruct ps as [|a [|b ps]]; simpl in *; try done; try lia.
      destruct Hshape as [-> ->]. try case_decide; done.
    + apply leaveAllRooms_moves in Hl as (room0 & ? & ? & _). eauto.
  - intros Hl. apply leaveAllRooms_moves in Hl as (room0 & ? & ? & _). eauto.
Qed.

Lemma createRoom_moves h rd rand now s s' res r' room' :
  createRoom h rd rand now s = Some (s', res) →
  rooms s' !! r' = Some room' →
  (∃ room, rooms s !! r' = Some room ∧ room_moves room room') ∨
  created (OpCreateRoom h rd rand now) s r' room'.
Proof.
  unfold createRoom. destruct (resolveRoomId rd rand s) as [rid|] eqn:Hid; [|done].
  destruct (players (leaveAllRooms h now s).1 !! h) as [host|]; intros ?; simplify_eq/=.
  - rewrite lookup_insert_Some. intros [[<- <-]|[Hne Hl]].
    + right. by exists h, rd, rand, now.
    + left. apply leaveAllRooms_moves in Hl as (room0 & ? & ? & _). eauto.
  - intros Hl. left. apply leaveAllRooms_moves in Hl as (room0 & ? & ? & _). eauto.
Qed.

Lemma setPlayerCharacter_moves p c now s r' room' :
  rooms (setPlayerCharacter p c now s).1 !! r' = Some room' →
  ∃ room, rooms s !! r' = Some room ∧ same_seats room room' ∧
          status room' = status room.
Proof.
  unfold setPlayerCharacter.
  pose proof (updatePlayer_rooms p (assign_character c) now s) as Hrooms.
  destruct (updatePlayer p (assign_character c) now s) as [s1 [pl|]]; simpl in *;
    [|by unchanged].
  destruct (playerToRoom s1 !! p) as [rid|]; simpl; rewrite Hrooms; [|by unchanged].
  destruct (truthy rid); simpl; rewrite ?Hrooms; [|by unchanged].
  destruct (rooms s !! rid) as [room|] eqn:Hr; simpl; rewrite ?Hrooms; [|by unchanged].
  rewrite lookup_insert_Some. intros [[<- <-]|[? ?]]; [|by unchanged].
  exists room. by repeat split.
Qed.

Lemma setPlayerReady_moves p b now s r' room' :
  rooms (setPlayerReady p b now s).1 !! r' = Some room' →
  ∃ room, rooms s !! r' = Some room ∧ same_seats room room' ∧
          (status room' = status room ∨
           (status room = Waiting ∧ status room' = Ready)).
Proof.
  unfold setPlayerReady.
  pose proof (updatePlayer_rooms p (λ q, set_isReady q b) now s) as Hrooms.
  destruct (updatePlayer p (λ q, set_isReady q b) now s) as [s1 [pl|]]; simpl in *;
    [|by unchanged].
  destruct (playerToRoom s1 !! p) as [rid|]; simpl; rewrite Hrooms; [|by unchanged].
  destruct (truthy rid); simpl; rewrite ?Hrooms; [|by unchanged].
  destruct (rooms s !! rid) as [room|] eqn:Hr; simpl; rewrite ?Hrooms; [|by unchanged].
  destruct (if decide (length (r_players room) = 2%nat)
            then every_isReady (players s1) (r_players room)
            else Returned false) as [all|e]; simpl; rewrite ?Hrooms; [|by unchanged].
  rewrite lookup_insert_Some. intros [[<- <-]|[? ?]]; [|by unchanged].
  exists room. split; [done|].
  destruct all, (status room) eqn:Hst; simpl;
    (split; [by repeat split | auto]).
Qed.

Lemma startGame_moves r now s r' room' :
  rooms (startGame r now s).1 !! r' = Some room' →
  ∃ room, rooms s !! r' = Some room ∧ same_seats room room' ∧
          (room' = room ∨ (r' = r ∧ status room = Ready ∧ status room' = InProgress)).
Proof.
  unfold startGame.
  destruct (rooms s !! r) as [room|] eqn:Hr; simpl; [|by unchanged].
  case_decide as Hst; simpl; [by unchanged|].
  case_decide as Hlen; simpl; [by unchanged|].
  assert (status room = Ready) by (by destruct (status room)).
  destruct (players s !! hostId room) as [host|]; simpl;
    rewrite lookup_insert_Some; (intros [[<- <-]|[? ?]]; [|by unchanged]);
    exists room; by repeat split; auto.
Qed.

(** ** The match engine on one room *)

Lemma dispatch_room a t ap tp act room ps ps' room1 res :
  dispatch a t ap tp act room ps = Returned (Some (ps', room1, res)) →
  same_seats room room1 ∧ status room1 = status room ∧
  turnCount (gameData room1) = turnCount (gameData room) ∧
  currentTurn (gameData room1) = currentTurn (gameData room).
Proof.
  unfold dispatch, processAbilityUse, processSurrender.
  intros H. case_all; by repeat split.
Qed.

Lemma finishAction_room p t rid ap tp now s ps room1 res s' out :
  finishAction p t rid ap tp now s ps room1 res = (s', out) →
  ∃ room', rooms s' = <[rid := room']> (rooms s) ∧
           playerToRoom s' = playerToRoom s ∧
           same_seats room1 room' ∧
           ((status room' = Completed ∧
             turnCount (gameData room') = turnCount (gameData room1) ∧
             currentTurn (gameData room') = currentTurn (gameData room1)) ∨
            (status room' = status room1 ∧
             turnCount (gameData room') = turnCount (gameData room1) + 1 ∧
             currentTurn (gameData room') = next_turn room1)).
Proof.
  unfold finishAction. intros H.
  destruct ((health (default ap (ps !! p)) <=? 0)
            || (health (default tp (ps !! t)) <=? 0))%Z.
  - case_match; simplify_eq/=; eexists; (split; [done|]); (split; [done|]);
      (split; [by repeat split|]); left; by repeat split.
  - case_match; simplify_eq/=; eexists; (split; [done|]); (split; [done|]);
      (split; [by repeat split|]); right; by repeat split.
Qed.


Lemma processGameAction_cases p a now s s' out :
  processGameAction p a now s = (s', out) →
  (s' = s ∧ ∃ e, out = Returned (failed e) ∧
     e ∈ ["Player not in a room"; "Room not found"; "Game is not in progress";
          "Not your turn"; "Player data missing"; "Unknown action type"]) ∨
  (s' = s ∧ ∃ e rid room t ap tp,
     out = Thrown e ∧
     playerToRoom s !! p = Some rid ∧ rooms s !! rid = Some room ∧
     status room = InProgress ∧ currentTurn (gameData room) = Some p ∧
     players s !! p = Some ap ∧
     dispatch p t ap tp a room (players s) = Thrown e) ∨
  (∃ rid room t ap tp ps room1 res,
     playerToRoom s !! p = Some rid ∧ rid ≠ EmptyString ∧
     rooms s !! rid = Some room ∧ status room = InProgress ∧
     currentTurn (gameData room) = Some p ∧
     players s !! p = Some ap ∧ players s !! t = Some tp ∧
     (if decide (p = hostId room) then guestId room else Some (hostId room)) = Some t ∧
     dispatch p t ap tp a room (players s) = Returned (Some (ps, room1, res)) ∧
     finishAction p t rid ap tp now s ps room1 res = (s', out)).
Proof.
  unfold processGameAction.
  destruct (playerToRoom s !! p) as [rid|] eqn:Hi;
    [|intros; simplify_eq; left; split; [done|]; eexists; split; [done|set_solver]].
  destruct (truthy rid) eqn:Ht; simpl;
    [|intros; simplify_eq; left; split; [done|]; eexists; split; [done|set_solver]].
  apply truthy_nonempty in Ht.
  destruct (rooms s !! rid) as [room|] eqn:Hr;
    [|intros; simplify_eq; left; split; [done|]; eexists; split; [done|set_solver]].
  case_decide as Hst;
    [intros; simplify_eq; left; split; [done|]; eexists; split; [done|set_solver]|].
  case_decide as Hturn;
    [intros; simplify_eq; left; split; [done|]; eexists; split; [done|set_solver]|].
  assert (status room = InProgress) as Hst' by (by destruct (status room)).
  assert (currentTurn (gameData room) = Some p) as Hturn'
    by (by destruct (decide (currentTurn (gameData room) = Some p))).
  destruct (players s !! p) as [ap|] eqn:Hap;
    [|intros; simplify_eq; left; split; [done|]; eexists; split; [done|set_solver]].
  destruct (if decide (p = hostId room) then guestId room else Some (hostId room))
    as [t|] eqn:Htarget; simpl;
    [|intros; simplify_eq; left; split; [done|]; eexists; split; [done|set_solver]].
  destruct (players s !! t) as [tp|] eqn:Htp; simpl;
    [|intros; simplify_eq; left; split; [done|]; eexists; split; [done|set_solver]].
  destruct (dispatch p t ap tp a room (players s)) as [[[[ps room1] res]|]|e] eqn:Hd;
    [|intros; simplify_eq; left; split; [done|]; eexists; split; [done|set_solver]|].
  - intros Hfin. right; right. exists rid, room, t, ap, tp, ps, room1, res.
    by repeat split.
  - intros [= <- <-]. right; left. split; [done|].
    exists e, rid, room, t, ap, tp. by repeat split.
Qed.

Lemma processGameAction_room p a now s r' room' :
  rooms (processGameAction p a now s).1 !! r' = Some room' →
  ∃ room, rooms s !! r' = Some room ∧ same_seats room room' ∧
    (room' = room ∨
     (playerToRoom s !! p = Some r' ∧ status room = InProgress ∧
      currentTurn (gameData room) = Some p ∧
      ((status room' = Completed ∧
        turnCount (gameData room') = turnCount (gameData room) ∧
        currentTurn (gameData room') = Some p) ∨
       (status room' = InProgress ∧
        turnCount (gameData room') = turnCount (gameData room) + 1 ∧
        currentTurn (gameData room') = next_turn room)))).
Proof.
  destruct (processGameAction p a now s) as [s' out] eqn:Hcall; simpl.
  apply processGameAction_cases in Hcall as [[-> _]|[[-> _]|Hcall]];
    [by unchanged..|].
  destruct Hcall as (rid & room & t & ap & tp & ps & room1 & res & Hi & _ & Hr &
                     Hst & Hturn & _ & _ & _ & Hd & Hfin).
  apply dispatch_room in Hd as (Hseats & Hst1 & Htc & Hct).
  apply finishAction_room in Hfin as (roomF & -> & _ & HseatsF & Hfin).
  rewrite lookup_insert_Some. intros [[<- <-]|[? ?]]; [|by unchanged].
  exists room. split; [done|].
  destruct Hseats as (? & ? & ? & ?), HseatsF as (? & ? & ? & ?).
  split; [repeat split; congruence|].
  right. split_and!; [done..|].
  unfold next_turn in *.
  destruct Hfin as [(? & ? & ?)|(? & ? & Hn)]; [left|right]; split_and!; try congruence.
  rewrite Hn. repeat case_decide; congruence.
Qed.

Lemma processGameAction_moves p a now s r' room' :
  rooms (processGameAction p a now s).1 !! r' = Some room' →
  ∃ room, rooms s !! r' = Some room ∧ room_moves room room'.
Proof.
  intros (room & Hr & Hseats & Hcase)%processGameAction_room.
  exists room. split; [done|]. apply same_seats_moves; [done|].
  destruct Hcase as [->|(_ & Hst & _)]; [done|congruence].
Qed.

Lemma cleanupInactive_room rt pt now s r' room' :
  rooms (cleanupInactive rt pt now s) !! r' = Some room' →
  rooms s !! r' = Some room' ∧ ¬ room_expired rt now room'.
Proof. unfold cleanupInactive; simpl. by rewrite map_lookup_filter_Some. Qed.

Lemma unregisterPlayer_room p now s r' room' :
  rooms (unregisterPlayer p now s) !! r' = Some room' →
  ∃ room, rooms s !! r' = Some room ∧ room_moves room room'.
Proof.
  unfold unregisterPlayer; simpl.
  destruct (playerToRoom s !! p) as [r|]; [|by eauto using room_moves_refl].
  intros (room & ? & [->|[_ ?]])%removePlayerFromRoom_room;
    eauto using room_moves_refl, room_moves_depart.
Qed.

(** Every operation either moves a registered room along, or has just
    created the room. *)
Lemma step_room op s s' r' room' :
  step op s = Some s' → rooms s' !! r' = Some room' →
  (∃ room, rooms s !! r' = Some room ∧ room_moves room room') ∨
  created op s r' room'.
Proof.
  destruct op; simpl; intros Hstep Hl;
    try (injection Hstep as <-).
  - left. eauto using room_moves_refl.
  - left. eauto using unregisterPlayer_room.
  - apply fmap_Some in Hstep as ([s1 res] & Hc & ->).
    eauto using createRoom_moves.
  - left. eauto using addPlayerToRoom_moves.
  - left. apply removePlayerFromRoom_room in Hl as (room & ? & [->|[_ ?]]);
      eauto using room_moves_refl, room_moves_depart.
  - left. apply leaveAllRooms_moves in Hl as (room & ? & ? & _). eauto.
  - left. apply setPlayerCharacter_moves in Hl as (room & ? & ? & Hst).
    exists room. split; [done|]. apply same_seats_moves; [done|congruence].
  - left. apply setPlayerReady_moves in Hl as (room & ? & ? & Hst).
    exists room. split; [done|]. apply same_seats_moves; [done|].
    destruct Hst as [?|[? ?]]; congruence.
  - left. apply startGame_moves in Hl as (room & ? & ? & Hst).
    exists room. split; [done|]. apply same_seats_moves; [done|].
    destruct Hst as [->|(_ & ? & ?)]; [done|congruence].
  - left. eauto using processGameAction_moves.
  - left. apply cleanupInactive_room in Hl as [? _]. eauto using room_moves_refl.
Qed.

(** ** Room codes *)

Lemma pick_cons n : ∃ c, pick n = String c EmptyString.
Proof.
  unfold pick, charAt.
  assert (n mod String.length chars < 32)%nat as Hlt
    by (apply Nat.mod_upper_bound; discriminate).
  revert Hlt. generalize (n mod String.length chars)%nat. intros i Hi.
  do 32 (destruct i as [|i]; [simpl; eauto|]). lia.
Qed.

Lemma code_of_draw_nonempty d : code_of_draw d ≠ EmptyString.
Proof.
  destruct d as [[[[[a b] c] d] e] f]. unfold code_of_draw.
  destruct (pick_cons a) as [x ->]. intros H.
  cbv beta iota delta [String.append] in H. discriminate.
Qed.

Lemma generateRoomCode_fresh rms rand code :
  generateRoomCode rms rand = Some code →
  rms !! code = None ∧ code ≠ EmptyString.
Proof.
  induction rand as [|d rand IH]; simpl; [done|].
  destruct (rms !! code_of_draw d) eqn:Hl; [done|].
  intros [= <-]. split; [done|]. apply code_of_draw_nonempty.
Qed.

Lemma resolveRoomId_nonempty rd rand s r :
  resolveRoomId rd rand s = Some r → r ≠ EmptyString.
Proof.
  unfold resolveRoomId.
  destruct (rd_roomId rd) as [v|]; [destruct (truthy v) eqn:Hv|].
  - intros [= <-]. by apply truthy_nonempty.
  - by intros [_ ?]%generateRoomCode_fresh.
  - by intros [_ ?]%generateRoomCode_fresh.
Qed.

(** A code that names a registered room is only resolved when the caller
    supplies it. *)
Lemma resolveRoomId_live rd rand s r :
  resolveRoomId rd rand s = Some r → is_Some (rooms s !! r) →
  rd_roomId rd = Some r.
Proof.
  unfold resolveRoomId. intros Hres [room Hroom].
  destruct (rd_roomId rd) as [v|]; [destruct (truthy v)|].
  - congruence.
  - apply generateRoomCode_fresh in Hres as [? _]. congruence.
  - apply generateRoomCode_fresh in Hres as [? _]. congruence.
Qed.

(** ** The seating invariant *)

Lemma created_ok op s r room : created op s r room → room_ok room ∧ r ≠ EmptyString.
Proof.
  intros (h & rd & rand & now & _ & Hres & Hp & Hh & Hg & _ & Hm).
  split; [|by eapply resolveRoomId_nonempty].
  unfold room_ok. by rewrite Hp, Hm.
Qed.

Lemma step_rooms_ok op s s' : rooms_ok s → step op s = Some s' → rooms_ok s'.
Proof.
  intros Hok Hstep r room' Hl.
  destruct (step_room _ _ _ _ _ Hstep Hl) as [(room & Hr & [Hmove _])|Hc].
  - destruct (Hok _ _ Hr). auto.
  - by eapply created_ok.
Qed.

Lemma reachable_rooms_ok s : reachable s → rooms_ok s.
Proof.
  induction 1 as [|op s s' _ IH Hstep]; [|by eapply step_rooms_ok].
  intros r room. unfold constructor; simpl. by rewrite lookup_empty.
Qed.

(** ** Ability use *)

Lemma with_players_success res a t : success (with_players res a t) = success res.
Proof. done. Qed.

Lemma find_ability_present c aid ab :
  find_ability c aid = Some ab → abilities_missing c = false.
Proof.
  unfold find_ability, abilities_missing, abilities.
  destruct c as [ch|]; simpl; [|done]. by destruct (c_abilities ch).
Qed.

(** C6.  On the turn of a player [p] of an in-progress room, host or
    guest, with opponent [t], an ability that [p]'s character declares is
    refused exactly when [p]'s mana is strictly below its cost.  Otherwise
    the call succeeds, [p]'s mana becomes [max 0 (mana - cost)], the
    opponent's health becomes [max 0 (health - damage)], neither is
    negative, and when nobody is down the turn passes to the opponent and
    the turn counter grows by one.  The two subtractions are those of the
    code where they are exact, on safe integers.  Scenario B (mana 10,
    cost 10, damage 20, health 100, turn 1) is the instance 0, 80, guest,
    2. *)
Theorem C6_ability_use p t rid room ap tp ab aid now s :
  playerToRoom s !! p = Some rid → rid ≠ EmptyString →
  rooms s !! rid = Some room →
  status room = InProgress → currentTurn (gameData room) = Some p →
  (if decide (p = hostId room) then guestId room else Some (hostId room)) = Some t →
  t ≠ p →
  players s !! p = Some ap → players s !! t = Some tp →
  p_id ap = p → p_id tp = t →
  find_ability (character ap) (Some aid) = Some ab →
  exact_sub (mana ap) (manaCost ab) → exact_sub (health tp) (damage ab) →
  ∃ s' res, processGameAction p (useAbility aid) now s = (s', Returned res) ∧
    if (mana ap <? manaCost ab)%Z then
      success res = false ∧ error res = Some "Not enough mana"
    else
      success res = true ∧ error res = None ∧
      ∃ ap' tp' room',
        players s' !! p = Some ap' ∧ players s' !! t = Some tp' ∧
        rooms s' !! rid = Some room' ∧
        mana ap' = Z.max 0 (mana ap - manaCost ab) ∧
        health tp' = Z.max 0 (health tp - damage ab) ∧
        (0 ≤ mana ap')%Z ∧ (0 ≤ health tp')%Z ∧
        health ap' = health ap ∧
        ((0 < health ap)%Z → (0 < health tp')%Z →
         status room' = InProgress ∧
         currentTurn (gameData room') = Some t ∧
         turnCount (gameData room') = (turnCount (gameData room) + 1)%Z).
Proof.
  intros Hi Hrid Hr Hst Hturn Htarget Hne Hap Htp Hida Hidt Hfind _ _.
  assert (next_turn room = Some t) as Hnext.
  { unfold next_turn. rewrite Hturn. destruct (decide (p = hostId room)) as [->|Hnh].
    - by rewrite decide_True.
    - rewrite decide_False; [done|]. congruence. }
  unfold processGameAction. rewrite Hi.
  apply truthy_nonempty in Hrid. rewrite Hrid; simpl. rewrite Hr.
  rewrite decide_False by (by intros []).
  rewrite decide_False by (by intros []).
  rewrite Hap, Htarget; simpl. rewrite Htp; simpl.
  unfold dispatch, processAbilityUse; simpl.
  rewrite (find_ability_present _ _ _ Hfind), Hfind.
  destruct (mana ap <? manaCost ab)%Z eqn:Hmana.
  - unfold finishAction. rewrite Hap, Htp; simpl.
    destruct ((health ap <=? 0) || (health tp <=? 0))%Z.
    + destruct (health ap <=? 0)%Z; rewrite ?Hida, ?Hidt, ?Hap, ?Htp;
        do 2 eexists; (split; [reflexivity|]); by simpl.
    + rewrite Hnext; simpl. rewrite Htp.
      do 2 eexists; (split; [reflexivity|]); by simpl.
  - unfold finishAction.
    set (ps := alter _ t (alter _ p (players s))).
    assert (ps !! p = Some (set_mana ap (Z.max 0 (mana ap - manaCost ab)))) as Hp'.
    { unfold ps. rewrite lookup_alter_ne by done. by rewrite lookup_alter_eq, Hap. }
    assert (ps !! t = Some (set_health tp (Z.max 0 (health tp - damage ab)))) as Ht'.
    { unfold ps. rewrite lookup_alter_eq, lookup_alter_ne by done. by rewrite Htp. }
    assert (next_turn
              (set_gameData room
                 (push_log
                    (push_log (gameData room)
                       (p_name ap +:+ " used " +:+ ab_name ab +:+ "!"))
                    (p_name tp +:+ " took " +:+ pretty (damage ab) +:+ " damage!")))
            = Some t) as Hnext' by exact Hnext.
    rewrite Hp', Ht'; simpl.
    destruct (health ap <=? 0)%Z eqn:Ha; simpl.
    + rewrite Hidt, Ht'. do 2 eexists. split; [done|]. simpl.
      split_and!; [done..|]. do 3 eexists. simpl.
      rewrite lookup_insert_eq. split_and!; [done..|simpl; lia|simpl; lia|done|]; simpl.
      apply Z.leb_le in Ha. lia.
    + destruct (Z.max 0 (health tp - damage ab) <=? 0)%Z eqn:Hb; simpl.
      * rewrite Hida, Hp'. do 2 eexists. split; [done|]. simpl.
        split_and!; [done..|]. do 3 eexists. simpl.
        rewrite lookup_insert_eq. split_and!; [done..|simpl; lia|simpl; lia|done|]; simpl.
        apply Z.leb_le in Hb. lia.
      * rewrite Hnext'; simpl. rewrite Ht'. do 2 eexists. split; [done|]. simpl.
        split_and!; [done..|]. do 3 eexists. simpl.
        rewrite lookup_insert_eq. split_and!; [done..|simpl; lia|simpl; lia|done|]; simpl.
        intros _ _. split_and!; [done|..]; by rewrite ?Hturn.
Qed.

(** Scenario B, and the guest's reply to it with an ability that costs
    nothing and deals 25. *)
Lemma C6_scenario_B :
  (∃ s' res ap' tp' room',
     processGameAction "A" (useAbility "bolt") 8 (after match_ops) = (s', Returned res) ∧
     success res = true ∧
     players s' !! "A" = Some ap' ∧ mana ap' = 0%Z ∧
     players s' !! "B" = Some tp' ∧ health tp' = 80%Z ∧
     rooms s' !! "ABCDEF" = Some room' ∧
     currentTurn (gameData room') = Some "B" ∧
     turnCount (gameData room') = 2%Z) ∧
  (∃ s' res ap' tp' room',
     processGameAction "B" (useAbility "smash") 9
       (play [("A", useAbility "bolt", 8%Z)] (after match_ops)) = (s', Returned res) ∧
     success res = true ∧
     players s' !! "B" = Some ap' ∧ mana ap' = 10%Z ∧
     players s' !! "A" = Some tp' ∧ health tp' = 75%Z ∧
     rooms s' !! "ABCDEF" = Some room' ∧
     currentTurn (gameData room') = Some "A" ∧
     turnCount (gameData room') = 3%Z).
Proof.
  split.
  - opose proof* (C6_ability_use "A" "B" "ABCDEF" _ _ _ bolt "bolt" 8 (after match_ops))
      as (s' & res & Hcall & H);
      [vm_compute; reflexivity | discriminate | vm_compute; reflexivity
      | reflexivity | reflexivity | reflexivity | discriminate
      | vm_compute; reflexivity | vm_compute; reflexivity
      | reflexivity | reflexivity | reflexivity
      | vm_compute; repeat split; discriminate
      | vm_compute; repeat split; discriminate |].
    simpl in H.
    destruct H as (Hs & _ & ap' & tp' & room' & Ha & Hb & Hr & Hm & Hh & _ & _ & Hha & Hnext).
    destruct Hnext as (_ & Hturn & Hcount); [reflexivity | rewrite Hh; reflexivity |].
    exists s', res, ap', tp', room'.
    repeat split; assumption.
  - opose proof* (C6_ability_use "B" "A" "ABCDEF" _ _ _ smash "smash" 9
                    (play [("A", useAbility "bolt", 8%Z)] (after match_ops)))
      as (s' & res & Hcall & H);
      [vm_compute; reflexivity | discriminate | vm_compute; reflexivity
      | reflexivity | reflexivity | reflexivity | discriminate
      | vm_compute; reflexivity | vm_compute; reflexivity
      | reflexivity | reflexivity | reflexivity
      | vm_compute; repeat split; discriminate
      | vm_compute; repeat split; discriminate |].
    simpl in H.
    destruct H as (Hs & _ & ap' & tp' & room' & Ha & Hb & Hr & Hm & Hh & _ & _ & Hha & Hnext).
    destruct Hnext as (_ & Hturn & Hcount); [reflexivity | rewrite Hh; reflexivity |].
    exists s', res, ap', tp', room'.
    repeat split; assumption.
Defined.

(** ** Leaving a room *)

(** C5. In an in-progress room seating two different players, removing
    either of them ends the match in that call: the room stays registered
    with status [Completed], the end timestamp is the time of the call and
    the winner is the occupant who stays.  When the guest leaves the winner
    is the host; when the host leaves the guest is promoted to host and
    wins.  The same holds when the removal comes from the disconnect
    handler or from the guarded leave handler. *)
Theorem C5_departure_forfeits p h g rid room now s :
  rooms s !! rid = Some room → status room = InProgress →
  r_players room = [h; g] → h ≠ g → hostId room = h → guestId room = Some g →
  p = h ∨ p = g →
  let stays := if decide (p = h) then g else h in
  ∃ room',
    removePlayerFromRoom p rid now s =
      (mkGSM (<[rid := room']> (rooms s)) (players s) (delete p (playerToRoom s)),
       RoomOk room') ∧
    status room' = Completed ∧
    endTime (gameData room') = Some now ∧
    winner (gameData room') = Some stays ∧
    r_players room' = [stays] ∧ hostId room' = stays ∧ guestId room' = None ∧
    (playerToRoom s !! p = Some rid →
     rooms (handleUserDisconnection p now s) !! rid = Some room' ∧
     rooms (handleLeaveRoom p (Some rid) now s).1 !! rid = Some room').
Proof.
  intros Hr Hst Hps Hne Hh Hg Hp stays.
  assert (∃ room', depart p now room = Some room' ∧
            status room' = Completed ∧ endTime (gameData room') = Some now ∧
            winner (gameData room') = Some stays ∧ r_players room' = [stays] ∧
            hostId room' = stays ∧ guestId room' = None) as (room' & Hd & Hfacts).
  { destruct room as [i n h0 g0 st pr mp ps sp gd ca la]; simpl in *.
    subst h0 g0 st ps stays. unfold depart; simpl.
    rewrite !filter_ne_cons, filter_nil.
    destruct Hp as [->| ->]; repeat (case_decide; simplify_eq/=);
      eexists; (split; [reflexivity|]); by repeat split. }
  exists room'. unfold removePlayerFromRoom. rewrite Hr, Hd.
  split; [done|]. destruct Hfacts as (? & ? & ? & ? & ? & ?).
  split_and!; [done..|].
  intros Hi. split.
  - unfold handleUserDisconnection, unregisterPlayer. rewrite Hi, Hr.
    unfold removePlayerFromRoom. rewrite Hr, Hd; simpl.
    rewrite lookup_delete_eq; simpl. by rewrite lookup_insert_eq.
  - unfold handleLeaveRoom. rewrite decide_False by (by intros []).
    unfold removePlayerFromRoom. rewrite Hr, Hd; simpl.
    by rewrite lookup_insert_eq.
Qed.

Lemma C5_scenario_D :
  ∃ room',
    rooms (handleUserDisconnection "B" 9 (after match_ops)) !! "ABCDEF" = Some room' ∧
    status room' = Completed ∧ endTime (gameData room') = Some 9%Z ∧
    winner (gameData room') = Some "A".
Proof.
  opose proof* (C5_departure_forfeits "B" "A" "B" "ABCDEF" _ 9 (after match_ops))
    as (room' & _ & Hst & Hend & Hwin & _ & _ & _ & Hhandlers);
    [vm_compute; reflexivity | reflexivity | reflexivity | discriminate
    | reflexivity | reflexivity | right; reflexivity |].
  destruct Hhandlers as [Hdisc _]; [vm_compute; reflexivity|].
  exists room'. repeat split; assumption.
Defined.

(** C10. In a reachable state, removing from an in-progress room a player
    who is not on its roster returns the success result with the room,
    leaves the roster as it was, deletes the player's index entry whatever
    room it named, and ends the match: status [Completed], end timestamp
    set, winner the first name on the roster, who is the host. *)
Theorem C10_non_member_removal p rid room now s :
  reachable s → rooms s !! rid = Some room → status room = InProgress →
  p ∉ r_players room →
  ∃ room',
    removePlayerFromRoom p rid now s =
      (mkGSM (<[rid := room']> (rooms s)) (players s) (delete p (playerToRoom s)),
       RoomOk room') ∧
    r_players room' = r_players room ∧
    hostId room' = hostId room ∧ guestId room' = guestId room ∧
    status room' = Completed ∧
    endTime (gameData room') = Some now ∧
    winner (gameData room') = head (r_players room) ∧
    winner (gameData room') = Some (hostId room) ∧
    playerToRoom (removePlayerFromRoom p rid now s).1 !! p = None.
Proof.
  intros Hreach Hr Hst Hnotin.
  destruct (reachable_rooms_ok _ Hreach _ _ Hr) as [[_ Hshape] _].
  assert (∃ room', depart p now room = Some room' ∧
            r_players room' = r_players room ∧
            hostId room' = hostId room ∧ guestId room' = guestId room ∧
            status room' = Completed ∧ endTime (gameData room') = Some now ∧
            winner (gameData room') = head (r_players room) ∧
            winner (gameData room') = Some (hostId room))
    as (room' & Hd & Hfacts).
  { unfold depart. rewrite (filter_ne_notin _ _ Hnotin).
    destruct room as [i n h0 g0 st pr mp ps sp gd ca la]; simpl in *. subst st.
    destruct ps as [|a [|b [|c ps]]]; try done; destruct Hshape as [-> ->];
      rewrite ?not_elem_of_cons in Hnotin; destruct_and?;
      repeat (case_decide; simplify_eq/=);
      eexists; (split; [reflexivity|]); by repeat split. }
  exists room'. unfold removePlayerFromRoom. rewrite Hr, Hd; simpl.
  destruct Hfacts as (? & ? & ? & ? & ? & ? & ?).
  split_and!; try done. apply lookup_delete_eq.
Qed.

Lemma C10_bystander_ends_match :
  ∃ s s' room',
    run bystander_ops constructor = Some s ∧
    playerToRoom s !! "C" = Some "BBBBBB" ∧
    removePlayerFromRoom "C" "ABCDEF" 9 s = (s', RoomOk room') ∧
    r_players room' = ["A"; "B"] ∧ status room' = Completed ∧
    winner (gameData room') = Some "A" ∧
    playerToRoom s' !! "C" = None.
Proof.
  assert (run bystander_ops constructor = Some (after bystander_ops)) as Hrun
    by (vm_compute; reflexivity).
  opose proof* (C10_non_member_removal "C" "ABCDEF" _ 9 (after bystander_ops))
    as (room' & Hcall & Hps & _ & _ & Hst & _ & _ & Hwin & Hidx);
    [ exact (run_reachable _ _ _ reachable_init Hrun)
    | vm_compute; reflexivity | reflexivity
    | vm_compute; intros H; repeat (apply elem_of_cons in H as [H|H]; [discriminate|]);
      by apply elem_of_nil in H
    | ].
  rewrite Hcall in Hidx.
  eexists (after bystander_ops), _, room'.
  split_and!; [exact Hrun | vm_compute; reflexivity | exact Hcall
              | exact Hps | exact Hst | exact Hwin | exact Hidx].
Defined.

(** ** Failure results and the state *)

(** The registry operations that validate before they write leave the
    manager untouched when they fail. *)
Lemma addPlayerToRoom_failure p r now s s' e :
  addPlayerToRoom p r now s = (s', Failure e) → s' = s.
Proof.
  unfold addPlayerToRoom. intros H.
  repeat (case_match || case_decide); by simplify_eq.
Qed.

Lemma removePlayerFromRoom_failure p r now s s' e :
  removePlayerFromRoom p r now s = (s', Failure e) → s' = s.
Proof.
  unfold removePlayerFromRoom. intros H. repeat case_match; by simplify_eq.
Qed.

Lemma startGame_failure r now s s' e :
  startGame r now s = (s', Returned (Failure e)) → s' = s.
Proof.
  unfold startGame. intros H.
  repeat (case_match || case_decide); by simplify_eq.
Qed.

(** [setPlayerCharacter] writes the player before it looks for the room. *)
Lemma setPlayerCharacter_failure_after_write :
  ∃ s s' pl pl',
    run [OpRegisterPlayer "A" None 0] constructor = Some s ∧
    setPlayerCharacter "A" mage 1 s = (s', Failure "Player not in a room") ∧
    players s !! "A" = Some pl ∧ players s' !! "A" = Some pl' ∧
    health pl = 0%Z ∧ health pl' = 100%Z ∧ character pl' = Some mage.
Proof. do 4 eexists. split_and!; by_compute. Qed.

(** C1 fails on the code.  In the match of scenario A the host submits an
    ability the character does not declare: [processGameAction] returns
    [{success: false, error: 'Ability not found'}], and yet the room has
    passed the turn to the guest, the turn counter has gone from 1 to 2 and
    a line has been added to the battle log. *)
Theorem C1_failed_ability_advances_turn :
  ∃ s s' res room room',
    run match_ops constructor = Some s ∧
    processGameAction "A" (useAbility "nope") 8 s = (s', Returned res) ∧
    success res = false ∧ error res = Some "Ability not found" ∧
    rooms s !! "ABCDEF" = Some room ∧ rooms s' !! "ABCDEF" = Some room' ∧
    currentTurn (gameData room) = Some "A" ∧ turnCount (gameData room) = 1%Z ∧
    currentTurn (gameData room') = Some "B" ∧ turnCount (gameData room') = 2%Z ∧
    length (battleLog (gameData room')) = S (length (battleLog (gameData room))) ∧
    s' ≠ s.
Proof.
  exists (after match_ops). do 4 eexists.
  split_and!; [by_compute..|].
  intros Heq.
  apply (f_equal (λ st, (λ rm, turnCount (gameData rm)) <$> rooms st !! "ABCDEF")) in Heq.
  vm_compute in Heq. discriminate.
Qed.

(** ** The reverse index *)

(** C3 fails on the code.  A player who asks to join the room they host
    alone is first taken out of it by [leaveAllRooms], which deletes the
    room; the roster push and the index write that follow land on the
    deleted room object.  The index then names a room that is not in the
    rooms table. *)
Theorem C3_rejoining_own_room_breaks_index :
  ∃ s,
    run rejoin_ops constructor = Some s ∧
    playerToRoom s !! "A" = Some "ABCDEF" ∧
    rooms s !! "ABCDEF" = None ∧
    ¬ index_consistent s.
Proof.
  exists (after rejoin_ops). split_and!; [by_compute..|].
  intros Hc. destruct (Hc "A" "ABCDEF") as [Hto _].
  destruct Hto as (room & Hroom & _); [by_compute|].
  vm_compute in Hroom. discriminate.
Qed.

(** Two more ways out of consistency: [createRoom] with a supplied code
    that is in use replaces the room and strands its occupants' entries;
    [removePlayerFromRoom] for a room the player has no seat in deletes the
    entry of a player seated elsewhere. *)
Lemma createRoom_over_live_code_breaks_index :
  ∃ s room,
    run overwrite_ops constructor = Some s ∧
    playerToRoom s !! "A" = Some "ABCDEF" ∧
    rooms s !! "ABCDEF" = Some room ∧ r_players room = ["B"] ∧
    ¬ index_consistent s.
Proof.
  exists (after overwrite_ops). eexists. split_and!; [by_compute..|].
  intros Hc. destruct (Hc "A" "ABCDEF") as [Hto _].
  destruct Hto as (room & Hroom & Hin); [by_compute|].
  vm_compute in Hroom. injection Hroom as <-. simpl in Hin.
  apply list_elem_of_singleton in Hin. discriminate.
Qed.

Lemma removing_non_member_breaks_index :
  ∃ s s' room,
    run bystander_ops constructor = Some s ∧
    s' = (removePlayerFromRoom "C" "ABCDEF" 9 s).1 ∧
    playerToRoom s' !! "C" = None ∧
    rooms s' !! "BBBBBB" = Some room ∧ r_players room = ["C"] ∧
    ¬ index_consistent s'.
Proof.
  exists (after bystander_ops). do 2 eexists. split_and!; [by_compute..|].
  intros Hc. destruct (Hc "C" "BBBBBB") as [_ Hfrom].
  assert (∃ room, rooms (removePlayerFromRoom "C" "ABCDEF" 9 (after bystander_ops)).1
                    !! "BBBBBB" = Some room ∧ "C" ∈ r_players room) as Hseat.
  { eexists. split; [by_compute|]. by apply list_elem_of_singleton. }
  apply Hfrom in Hseat. vm_compute in Hseat. discriminate.
Qed.

(** ** Rosters *)

(** What holds of every registered room after every sequence of
    operations: one or two seats, the host in the first, a guest field
    exactly when there is a second seat and then naming its occupant. *)
Lemma rosters_well_formed s r room :
  reachable s → rooms s !! r = Some room →
  (1 ≤ length (r_players room) ≤ 2)%nat ∧
  head (r_players room) = Some (hostId room) ∧
  (is_Some (guestId room) ↔ length (r_players room) = 2%nat) ∧
  guestId room = r_players room !! 1%nat.
Proof.
  intros Hreach Hr.
  destruct (reachable_rooms_ok _ Hreach _ _ Hr) as [[_ Hshape] _].
  destruct (r_players room) as [|a [|b [|c ps]]]; try done;
    destruct Hshape as [-> ->]; simpl; split_and!; try done; lia.
Qed.

(** What the guard on removals is needed for.  [removePlayerFromRoom]
    itself does not look at the roster: called for a room the player has
    no seat in, it deletes the player's index entry while the player still
    hosts a room, and joining that room then seats the player a second
    time, as guest next to themselves.  No caller in the repository makes
    such a call. *)
Lemma unguarded_removal_seats_host_twice :
  ∃ s room,
    run double_seat_ops constructor = Some s ∧
    rooms s !! "ABCDEF" = Some room ∧
    r_players room = ["A"; "A"] ∧
    hostId room = "A" ∧ guestId room = Some (hostId room).
Proof. exists (after double_seat_ops). eexists. split_and!; by_compute. Qed.

(** ** Chat *)

Lemma gameState_is_free : "gameState" ∉ handleChatMessage_scope.
Proof.
  unfold handleChatMessage_scope. intros H.
  repeat (apply elem_of_cons in H as [H|H]; [discriminate|]).
  by apply elem_of_nil in H.
Qed.

(** Every message that passes the validation reaches the unbound
    identifier. *)
Lemma handleChatMessage_valid_throws socketId roomId text now :
  trim text ≠ EmptyString →
  handleChatMessage globalObject socketId (chat roomId text) now =
    Thrown "ReferenceError: gameState is not defined".
Proof.
  intros Htrim. unfold handleChatMessage, chat; simpl.
  destruct text as [|c text]; [done|]. simpl.
  by rewrite bool_decide_false.
Qed.

Lemma handleChatMessage_no_data socketId now :
  handleChatMessage globalObject socketId JsUndefined now =
    Thrown "TypeError: Cannot read properties of undefined (reading 'roomId')".
Proof. reflexivity. Qed.

(** C9 fails on the code.  [handleChatMessage] reads [gameState], which is
    neither a parameter nor a binding of its module, so an ordinary chat
    line ends in a [ReferenceError] instead of a broadcast. *)
Theorem C9_chat_message_throws :
  handleChatMessage globalObject "A" (chat "ABCDEF" "hi") 9 =
    Thrown "ReferenceError: gameState is not defined".
Proof. reflexivity. Qed.

(** ** The sweep *)

Lemma lookup_foldr_delete {V} (m : gmap string V) (l : list string) p :
  foldr delete m l !! p = if decide (p ∈ l) then None else m !! p.
Proof.
  induction l as [|a l IH]; simpl.
  - destruct (decide (p ∈ [])) as [H|H]; [by apply elem_of_nil in H|done].
  - destruct (decide (a = p)) as [->|Hne].
    + rewrite lookup_delete_eq.
      destruct (decide (p ∈ p :: l)) as [H|H]; [done|].
      exfalso. apply H, elem_of_cons; auto.
    + rewrite lookup_delete_ne by done. rewrite IH.
      destruct (decide (p ∈ l)) as [Hin|Hnin], (decide (p ∈ a :: l)) as [H|H];
        try done.
      * exfalso. apply H, elem_of_cons; auto.
      * apply elem_of_cons in H as [?|?]; congruence.
Qed.

Lemma cleanupInactive_index rt pt now s p :
  (evicted_occupant rt now s p → playerToRoom (cleanupInactive rt pt now s) !! p = None) ∧
  (¬ evicted_occupant rt now s p →
   playerToRoom (cleanupInactive rt pt now s) !! p = playerToRoom s !! p).
Proof.
  unfold cleanupInactive; simpl. rewrite lookup_foldr_delete.
  set (occ := map_to_list _ ≫= _).
  assert (p ∈ occ ↔ evicted_occupant rt now s p) as Hocc.
  { unfold occ, evicted_occupant. rewrite list_elem_of_bind. split.
    - intros ([r room] & Hin & Hel). apply elem_of_map_to_list in Hel.
      apply map_lookup_filter_Some in Hel as [? ?]. eauto.
    - intros (r & room & Hr & Hexp & Hin). exists (r, room). split; [done|].
      apply elem_of_map_to_list. by apply map_lookup_filter_Some. }
  split; intros H; [rewrite decide_True | rewrite decide_False]; tauto.
Qed.

Lemma cleanupInactive_rooms rt pt now s r :
  rooms (cleanupInactive rt pt now s) !! r =
    match rooms s !! r with
    | Some room => if decide (lastActivity room < now - rt)%Z then None else Some room
    | None => None
    end.
Proof.
  unfold cleanupInactive; simpl.
  destruct (rooms s !! r) as [room|] eqn:Hr.
  - case_decide as Hold.
    + apply map_lookup_filter_None. right. intros room' Hr' Hkeep; simpl in *.
      apply Hkeep. unfold room_expired. simplify_eq. lia.
    + apply map_lookup_filter_Some. split; [done|]. simpl.
      unfold room_expired. lia.
  - apply map_lookup_filter_None. by left.
Qed.

Lemma cleanupInactive_players rt pt now s p :
  players (cleanupInactive rt pt now s) !! p =
    match players s !! p with
    | Some pl =>
        if decide ((lastActive pl < now - pt)%Z ∧
                   playerToRoom (cleanupInactive rt pt now s) !! p = None)
        then None else Some pl
    | None => None
    end.
Proof.
  unfold cleanupInactive; simpl.
  destruct (players s !! p) as [pl|] eqn:Hp.
  - case_decide as Hold.
    + apply map_lookup_filter_None. right. intros pl' Hp' Hkeep; simpl in *.
      apply Hkeep. simplify_eq. destruct Hold. split; [lia|done].
    + apply map_lookup_filter_Some. split; [done|]. simpl.
      intros [? ?]. apply Hold. split; [lia|done].
  - apply map_lookup_filter_None. by left.
Qed.

(** C8, as the code has it.  The sweep removes exactly the rooms whose
    [lastActivity] is strictly older than [now - R], as they are (a room
    exactly [R] old stays); it deletes the index entry of every name on the
    roster of a removed room and no other entry; and it removes exactly the
    players whose [lastActive] is strictly older than [now - P] and who have
    no index entry once those deletions are made.  A player whose entry
    survives the room pass is never removed. *)
Theorem C8_sweep rt pt now s :
  let s' := cleanupInactive rt pt now s in
  (∀ r, rooms s' !! r =
        match rooms s !! r with
        | Some room => if decide (lastActivity room < now - rt)%Z then None else Some room
        | None => None
        end) ∧
  (∀ r room, rooms s !! r = Some room → lastActivity room = (now - rt)%Z →
             rooms s' !! r = Some room) ∧
  (∀ p, evicted_occupant rt now s p → playerToRoom s' !! p = None) ∧
  (∀ p, ¬ evicted_occupant rt now s p → playerToRoom s' !! p = playerToRoom s !! p) ∧
  (∀ p, players s' !! p =
        match players s !! p with
        | Some pl =>
            if decide ((lastActive pl < now - pt)%Z ∧ playerToRoom s' !! p = None)
            then None else Some pl
        | None => None
        end) ∧
  (∀ p, is_Some (playerToRoom s' !! p) → players s' !! p = players s !! p).
Proof.
  intros s'. split_and!.
  - apply cleanupInactive_rooms.
  - intros r room Hr Hage. unfold s'. rewrite cleanupInactive_rooms, Hr.
    rewrite decide_False; [done|lia].
  - intros p. apply cleanupInactive_index.
  - intros p. apply cleanupInactive_index.
  - apply cleanupInactive_players.
  - intros p [r Hi]. unfold s' in *. rewrite cleanupInactive_players.
    destruct (players s !! p) as [pl|]; [|done].
    rewrite decide_False; [done|]. intros [_ ?]. congruence.
Qed.

(** Scenario E under the default half-hour room timeout: at minute 31 the
    room last touched at minute 0 is gone with its occupant's index entry,
    the one last touched at minute 2 is untouched, and both players are
    still registered. *)
Lemma C8_scenario_E :
  rooms (cleanupInactive defaultRoomTimeout defaultPlayerTimeout (minutes 31)
           (after idle_ops)) !! "ABCDEF" = None ∧
  playerToRoom (cleanupInactive defaultRoomTimeout defaultPlayerTimeout (minutes 31)
                  (after idle_ops)) !! "A" = None ∧
  rooms (cleanupInactive defaultRoomTimeout defaultPlayerTimeout (minutes 31)
           (after idle_ops)) !! "BBBBBB" = rooms (after idle_ops) !! "BBBBBB" ∧
  players (cleanupInactive defaultRoomTimeout defaultPlayerTimeout (minutes 31)
             (after idle_ops)) !! "A" = players (after idle_ops) !! "A".
Proof.
  destruct (C8_sweep defaultRoomTimeout defaultPlayerTimeout (minutes 31) (after idle_ops))
    as (Hrooms & _ & Hgone & _ & Hplayers & _).
  split_and!.
  - etrans; [apply Hrooms|]. by_compute.
  - apply Hgone. exists "ABCDEF". eexists. split_and!; [by_compute| |].
    + unfold room_expired. by_compute.
    + apply list_elem_of_singleton. reflexivity.
  - etrans; [apply Hrooms|]. by_compute.
  - etrans; [apply Hplayers|]. by_compute.
Defined.

(** C8 fails on the code in its last clause: a player seated in a room
    that the sweep evicts loses the index entry in the room pass and, idle
    for longer than the player timeout, is removed by the player pass of
    the same sweep. *)
Lemma C8_idle_occupant_is_removed :
  ∃ s room,
    run lobby_ops constructor = Some s ∧
    playerToRoom s !! "A" = Some "ABCDEF" ∧
    rooms s !! "ABCDEF" = Some room ∧ r_players room = ["A"] ∧
    is_Some (players s !! "A") ∧
    players (cleanupInactive defaultRoomTimeout defaultPlayerTimeout (minutes 61) s)
      !! "A" = None.
Proof.
  exists (after lobby_ops). eexists.
  split_and!; [by_compute..|vm_compute; by eexists|by_compute].
Qed.

(** ** The terminal status *)

Lemma step_closed_at r op s s' :
  closed_at r s → step op s = Some s' → closed_at r s' ∨ creates_at r op s.
Proof.
  unfold closed_at. intros Hc Hstep.
  destruct (rooms s' !! r) as [room'|] eqn:Hr'; [|by left].
  destruct (step_room _ _ _ _ _ Hstep Hr') as [(room & Hr & [_ Hkeep])|Hcr].
  - rewrite Hr in Hc. auto.
  - right. destruct Hcr as (h & rd & rand & now & -> & Hres & _).
    by exists h, rd, rand, now.
Qed.

Lemma run_closed_at r ops s s' :
  closed_at r s → run ops s = Some s' → closed_at r s' ∨ creates_during r ops s.
Proof.
  revert s. induction ops as [|op ops IH]; simpl; intros s Hc Hrun.
  - left. by simplify_eq.
  - destruct (step op s) as [s1|] eqn:Hstep; [|done].
    destruct (step_closed_at _ _ _ _ Hc Hstep) as [Hc1|Hcr]; [|by auto].
    destruct (IH _ Hc1 Hrun); auto.
Qed.

(** The manager on its own, under any sequence of calls.  Once the room
    under code [r] is completed: every [processGameAction] by a player
    whose index entry names [r] fails with 'Game is not in progress' and
    changes nothing; every operation leaves under [r] a completed room or
    no room, unless it is a [createRoom] that is handed [r] as its room
    code; and along every sequence of operations the room under [r] is
    completed or gone unless one of the calls creates a room at [r]. *)
Lemma completed_under_operations s r room :
  reachable s → rooms s !! r = Some room → status room = Completed →
  (∀ p a now, playerToRoom s !! p = Some r →
     processGameAction p a now s = (s, Returned (failed "Game is not in progress"))) ∧
  (∀ op s', step op s = Some s' →
     closed_at r s' ∨
     ∃ h rd rand now, op = OpCreateRoom h rd rand now ∧ rd_roomId rd = Some r) ∧
  (∀ ops s', run ops s = Some s' → closed_at r s' ∨ creates_during r ops s).
Proof.
  intros Hreach Hr Hst.
  assert (closed_at r s) as Hc by (unfold closed_at; by rewrite Hr).
  split_and!.
  - intros p a now Hi. unfold processGameAction. rewrite Hi.
    destruct (reachable_rooms_ok _ Hreach _ _ Hr) as [_ Hne].
    apply truthy_nonempty in Hne. rewrite Hne; simpl. rewrite Hr.
    rewrite decide_True; [done|]. by rewrite Hst.
  - intros op s' Hstep.
    destruct (step_closed_at _ _ _ _ Hc Hstep) as [?|Hcr]; [by left|right].
    destruct Hcr as (h & rd & rand & now & -> & Hres).
    exists h, rd, rand, now. split; [done|].
    eapply resolveRoomId_live; eauto.
  - intros ops s'. by apply run_closed_at.
Qed.

(** [createRoom] does not look at what is registered under a room id it
    is handed: given the code of a completed room it files a new room, in
    status [Waiting], under that code.  [handleCreateRoom], its one caller,
    never hands it a room id. *)
Lemma createRoom_given_the_code_of_a_completed_room :
  ∃ s s' room room',
    run finished_ops constructor = Some s ∧
    rooms s !! "ABCDEF" = Some room ∧ status room = Completed ∧
    step reuse_code s = Some s' ∧
    rooms s' !! "ABCDEF" = Some room' ∧ status room' = Waiting.
Proof. exists (after finished_ops). do 3 eexists. split_and!; by_compute. Qed.

(** ** Turn order *)

Lemma startGame_success r now s s' room :
  startGame r now s = (s', Returned (RoomOk room)) →
  rooms s' !! r = Some room ∧ status room = InProgress ∧
  currentTurn (gameData room) = Some (hostId room) ∧
  turnCount (gameData room) = 1%Z ∧
  ∃ room0, rooms s !! r = Some room0 ∧ status room0 = Ready ∧
           same_seats room0 room ∧ length (r_players room0) = 2%nat.
Proof.
  unfold startGame.
  destruct (rooms s !! r) as [room0|] eqn:Hr; [|done].
  case_decide as Hst; [done|]. case_decide as Hlen; [done|].
  destruct (players s !! hostId (set_status room0 InProgress)); [|done].
  intros [= <- <-]; simpl. rewrite lookup_insert_eq.
  split_and!; try done. exists room0.
  split_and!; try done; first [lia | by destruct (status room0)].
Qed.

Lemma processGameAction_turn p a now s s' out r room :
  processGameAction p a now s = (s', out) → rooms s !! r = Some room →
  ∃ room', rooms s' !! r = Some room' ∧ same_seats room room' ∧
    ((room' = room ∧
      (playerToRoom s !! p = Some r →
       (∃ e, out = Returned (failed e)) ∨ (∃ e, out = Thrown e))) ∨
     (playerToRoom s !! p = Some r ∧ status room = InProgress ∧
      currentTurn (gameData room) = Some p ∧
      ((status room' = Completed ∧
        turnCount (gameData room') = turnCount (gameData room)) ∨
       (status room' = InProgress ∧
        turnCount (gameData room') = (turnCount (gameData room) + 1)%Z ∧
        currentTurn (gameData room') = next_turn room)))).
Proof.
  intros Hcall Hr.
  apply processGameAction_cases in Hcall
    as [[-> (e & -> & _)]|[[-> (e & ? & ? & ? & ? & ? & -> & _)]|Hcall]].
  { exists room. split_and!; [done|apply same_seats_refl|]. left. eauto. }
  { exists room. split_and!; [done|apply same_seats_refl|]. left. eauto. }
  destruct Hcall as (rid & room0 & t & ap & tp & ps & room1 & res & Hi & _ & Hr0 &
                     Hst & Hturn & _ & _ & _ & Hd & Hfin).
  apply dispatch_room in Hd as (Hseats & Hst1 & Htc & Hct).
  apply finishAction_room in Hfin as (roomF & Hrooms & _ & HseatsF & Hfin).
  rewrite Hrooms. destruct (decide (rid = r)) as [->|Hne].
  - rewrite lookup_insert_eq. assert (room0 = room) as -> by congruence.
    exists roomF. split; [done|].
    destruct Hseats as (? & ? & ? & ?), HseatsF as (? & ? & ? & ?).
    split; [repeat split; congruence|].
    right. split_and!; [done..|].
    unfold next_turn in *.
    destruct Hfin as [(? & ? & ?)|(? & ? & Hn)]; [left|right]; split_and!; try congruence.
    rewrite Hn. repeat case_decide; congruence.
  - rewrite lookup_insert_ne by done. exists room.
    split_and!; [done|apply same_seats_refl|]. left. split; [done|]. congruence.
Qed.

Lemma Z_odd_succ_flip n : Z.odd (n + 1) = negb (Z.odd n).
Proof. by rewrite Z.add_1_r, Z.odd_succ, Z.negb_odd. Qed.

Lemma match_inv_action h g p a now s s' out r room :
  h ≠ g → match_inv h g room → rooms s !! r = Some room →
  processGameAction p a now s = (s', out) →
  ∃ room', rooms s' !! r = Some room' ∧ match_inv h g room' ∧
           action_effect h g p room room' ∧
           (playerToRoom s !! p = Some r →
            (∃ res, out = Returned res ∧ success res = true) → room' ≠ room).
Proof.
  intros Hne (Hps & Hh & Hg & Hinv) Hr Hcall.
  destruct (processGameAction_turn _ _ _ _ _ _ _ _ Hcall Hr)
    as (room' & Hr' & (Hps' & Hh' & Hg' & _) & Hcase).
  exists room'. split; [done|].
  destruct Hcase as [[-> Hrej]|(Hi & Hst & Hturn & Hcase)].
  - split_and!; [by repeat split|by left|].
    intros Hi (res & -> & Hs). by destruct (Hrej Hi) as [(e & [= ->])|(e & [=])].
  - destruct Hinv as [?|(_ & Hone & Hcur)]; [congruence|].
    assert (Some p = Some (turn_of h g (turnCount (gameData room)))) as [= Hp]
      by congruence.
    assert (next_turn room = Some (if decide (p = h) then g else h)) as Hnext.
    { unfold next_turn. rewrite Hturn, Hh, Hg. repeat case_decide; congruence. }
    destruct Hcase as [(Hst' & Htc)|(Hst' & Htc & Hcur')].
    + split_and!.
      * repeat split; try congruence. by left.
      * right. split_and!; try done. by left.
      * intros _ _ ->. congruence.
    + split_and!.
      * split; [congruence|]. split; [congruence|]. split; [congruence|].
        right. split_and!; [done|lia|].
        rewrite Hcur', Hnext, Htc. f_equal. unfold turn_of in *.
        rewrite Z_odd_succ_flip.
        destruct (Z.odd (turnCount (gameData room))); simpl;
          case_decide; congruence.
      * right. split_and!; try done. right. by rewrite Hcur', Hnext.
      * intros _ _ ->. lia.
Qed.

Lemma match_inv_play h g r calls s room :
  h ≠ g → match_inv h g room → rooms s !! r = Some room →
  ∃ room', rooms (play calls s) !! r = Some room' ∧ match_inv h g room'.
Proof.
  intros Hne. revert s room.
  induction calls as [|[[p a] now] calls IH]; simpl; intros s room Hinv Hr; [by eauto|].
  destruct (processGameAction p a now s) as [s' out] eqn:Hcall.
  destruct (match_inv_action _ _ _ _ _ _ _ _ _ _ Hne Hinv Hr Hcall)
    as (room' & Hr' & Hinv' & _).
  simpl. eauto.
Qed.

(** C2.  After a successful [startGame], in a reachable state, on a room
    whose host and guest are different players, the roster is host then
    guest, the turn is the host's and the counter is 1.  From then on,
    whatever [processGameAction] calls are made, the room is in progress or
    completed, and while it is in progress the turn owner is the host on
    odd counts and the guest on even ones.  Each further call leaves the
    room as it was (the call was refused by a guard, or concerns another
    room), or ends the match without touching the counter, or passes the
    turn to the other player and adds exactly one to the counter; a call by
    an occupant's entry that returns success is never of the first kind. *)
Theorem C2_turns_alternate r now0 s0 s1 room g :
  reachable s0 →
  startGame r now0 s0 = (s1, Returned (RoomOk room)) →
  guestId room = Some g → hostId room ≠ g →
  let h := hostId room in
  (rooms s1 !! r = Some room ∧ r_players room = [h; g] ∧
   status room = InProgress ∧
   currentTurn (gameData room) = Some h ∧ turnCount (gameData room) = 1%Z) ∧
  ∀ calls, ∃ room',
    rooms (play calls s1) !! r = Some room' ∧ r_players room' = [h; g] ∧
    (status room' = InProgress ∨ status room' = Completed) ∧
    (status room' = InProgress →
     (1 ≤ turnCount (gameData room'))%Z ∧
     currentTurn (gameData room') = Some (turn_of h g (turnCount (gameData room')))) ∧
    ∀ p a now, ∃ room'',
      rooms (processGameAction p a now (play calls s1)).1 !! r = Some room'' ∧
      action_effect h g p room' room'' ∧
      (playerToRoom (play calls s1) !! p = Some r →
       (∃ res, (processGameAction p a now (play calls s1)).2 = Returned res ∧
               success res = true) →
       room'' ≠ room').
Proof.
  intros Hreach Hstart Hg Hne h.
  apply startGame_success in Hstart
    as (Hr & Hst & Hturn & Htc & room0 & Hr0 & _ & (Hps & Hh0 & Hg0 & _) & Hlen).
  assert (r_players room = [h; g]) as Hroster.
  { destruct (reachable_rooms_ok _ Hreach _ _ Hr0) as [[_ Hshape] _].
    rewrite Hps. unfold h. rewrite Hh0. rewrite Hg0 in Hg.
    destruct (r_players room0) as [|a [|b [|c ps]]]; try done.
    destruct Hshape as [-> ?]. congruence. }
  split; [done|].
  assert (match_inv h g room) as Hinv.
  { split_and!; [done..|]. right. split_and!; [done|lia|]. by rewrite Hturn, Htc. }
  intros calls.
  destruct (match_inv_play h g r calls s1 room Hne Hinv Hr) as (room' & Hr' & Hinv').
  exists room'. split; [done|].
  split; [by destruct Hinv'|].
  split; [destruct Hinv' as (_ & _ & _ & [?|(? & _)]); auto|].
  split.
  { intros Hst'. destruct Hinv' as (_ & _ & _ & [?|(_ & ? & ?)]); [congruence|done]. }
  intros p a now.
  destruct (processGameAction p a now (play calls s1)) as [s' out] eqn:Hcall.
  destruct (match_inv_action _ _ _ _ _ _ _ _ _ _ Hne Hinv' Hr' Hcall)
    as (room'' & Hr'' & _ & Heff & Hsucc).
  exists room''. simpl. auto.
Qed.

(** Scenario A followed by one ability each: the counter is 3 and the turn
    is back with the host. *)
Lemma C2_two_turns :
  ∃ room',
    rooms (play [("A", useAbility "bolt", 8%Z); ("B", useAbility "smash", 9%Z)]
                (after match_ops)) !! "ABCDEF" = Some room' ∧
    status room' = InProgress ∧
    turnCount (gameData room') = 3%Z ∧
    currentTurn (gameData room') = Some "A".
Proof.
  assert (run ready_ops constructor = Some (after ready_ops)) as Hrun
    by (vm_compute; reflexivity).
  opose proof* (C2_turns_alternate "ABCDEF" 7 (after ready_ops) (after match_ops) _ "B")
    as (_ & Hplay);
    [ exact (run_reachable _ _ _ reachable_init Hrun)
    | vm_compute; reflexivity | reflexivity | discriminate | ].
  destruct (Hplay [("A", useAbility "bolt", 8%Z); ("B", useAbility "smash", 9%Z)])
    as (room' & Hr' & _ & _ & Hturn & _).
  exists room'. split; [exact Hr'|].
  vm_compute in Hr'. injection Hr' as <-.
  repeat split; reflexivity.
Defined.


(** * Further properties *)

(** ** Generated room codes *)

Lemma pick_in_alphabet n :
  ∃ c, pick n = String c EmptyString ∧ c ∈ list_ascii_of_string chars.
Proof.
  unfold pick, charAt.
  assert (n mod String.length chars < 32)%nat as Hlt
    by (apply Nat.mod_upper_bound; discriminate).
  revert Hlt. generalize (n mod String.length chars)%nat. intros i Hi.
  do 32 (destruct i as [|i];
         [simpl; eexists; split; [reflexivity|];
          repeat first [apply list_elem_of_here | apply list_elem_of_further] |]).
  lia.
Qed.

Lemma code_of_draw_shape d :
  String.length (code_of_draw d) = 6%nat ∧
  ∀ c, c ∈ list_ascii_of_string (code_of_draw d) → c ∈ list_ascii_of_string chars.
Proof.
  destruct d as [[[[[a b] c] d] e] f]. unfold code_of_draw.
  destruct (pick_in_alphabet a) as (x1 & -> & H1), (pick_in_alphabet b) as (x2 & -> & H2),
    (pick_in_alphabet c) as (x3 & -> & H3), (pick_in_alphabet d) as (x4 & -> & H4),
    (pick_in_alphabet e) as (x5 & -> & H5), (pick_in_alphabet f) as (x6 & -> & H6).
  cbv beta iota delta [String.append]. split; [reflexivity|].
  intros ch Hch. simpl in Hch.
  repeat (apply elem_of_cons in Hch as [->|Hch]; [assumption|]).
  by apply elem_of_nil in Hch.
Qed.

(** X1.  [generateRoomCode] returns the first drawn code that no
    registered room uses: six characters, each from the 32-symbol alphabet
    (so never one of 0, O, 1, I), every earlier draw being a code in use. *)
Theorem generateRoomCode_first_unused rms rand code :
  generateRoomCode rms rand = Some code →
  String.length code = 6%nat ∧
  (∀ c, c ∈ list_ascii_of_string code →
        c ∈ list_ascii_of_string chars ∧
        c ∉ ["0"%char; "O"%char; "1"%char; "I"%char]) ∧
  rms !! code = None ∧
  ∃ skipped d rest,
    rand = (skipped ++ d :: rest)%list ∧ code = code_of_draw d ∧
    Forall (λ d', is_Some (rms !! code_of_draw d')) skipped.
Proof.
  induction rand as [|d rand IH]; simpl; [done|].
  destruct (rms !! code_of_draw d) as [room|] eqn:Hl.
  - intros (Hlen & Hchars & Hfresh & skipped & d' & rest & -> & -> & Hsk)%IH.
    split_and!; [done..|].
    exists (d :: skipped), d', rest. split_and!; [done..|].
    constructor; [by eexists|done].
  - intros [= <-]. destruct (code_of_draw_shape d) as [Hlen Hchars].
    split_and!; [done| |done|].
    + intros c Hc. specialize (Hchars c Hc). split; [done|].
      intros Hbad. vm_compute in Hchars.
      repeat (apply elem_of_cons in Hbad as [->|Hbad];
              [repeat (apply elem_of_cons in Hchars as [Hchars|Hchars]; [discriminate|]);
               by apply elem_of_nil in Hchars|]).
      by apply elem_of_nil in Hbad.
    + exists [], d, rand. by split_and!.
Qed.

Lemma generateRoomCode_first_unused_example :
  generateRoomCode (rooms (after lobby_ops)) [draw1; draw2] = Some "BBBBBB" ∧
  String.length "BBBBBB" = 6%nat ∧ rooms (after lobby_ops) !! "BBBBBB" = None.
Proof.
  opose proof* (generateRoomCode_first_unused (rooms (after lobby_ops)) [draw1; draw2] "BBBBBB")
    as (Hlen & _ & Hfresh & _); [by_compute|].
  split_and!; [by_compute | exact Hlen | exact Hfresh].
Defined.

(** X2.  The generator terminates as soon as the random source offers one
    code that is not in use. *)
Theorem generateRoomCode_total rms rand d :
  d ∈ rand → rms !! code_of_draw d = None →
  is_Some (generateRoomCode rms rand).
Proof.
  induction rand as [|d' rand IH]; [by intros ?%elem_of_nil|].
  intros [->|Hin]%elem_of_cons Hfree; simpl.
  - rewrite Hfree. by eexists.
  - destruct (rms !! code_of_draw d'); [by apply IH|by eexists].
Qed.

Lemma generateRoomCode_total_example :
  is_Some (generateRoomCode (rooms (after lobby_ops)) [draw1; draw2]).
Proof.
  apply (generateRoomCode_total _ _ draw2).
  - apply list_elem_of_further, list_elem_of_here.
  - by_compute.
Defined.


(** ** Failures that leave the manager alone *)

Lemma leaveAllRooms_failure p now s s' e :
  leaveAllRooms p now s = (s', Failure e) → s' = s.
Proof.
  unfold leaveAllRooms. destruct (playerToRoom s !! p); [|done].
  apply removePlayerFromRoom_failure.
Qed.

(** X3.  [addPlayerToRoom], [removePlayerFromRoom], [leaveAllRooms] and
    [startGame] make all their checks before their first write: whenever
    one of them returns a failure result the manager is exactly as it was. *)
Theorem checked_failures_keep_state p r now s s' e :
  addPlayerToRoom p r now s = (s', Failure e) ∨
  removePlayerFromRoom p r now s = (s', Failure e) ∨
  leaveAllRooms p now s = (s', Failure e) ∨
  startGame r now s = (s', Returned (Failure e)) →
  s' = s.
Proof.
  intros [H|[H|[H|H]]];
    eauto using addPlayerToRoom_failure, removePlayerFromRoom_failure,
                leaveAllRooms_failure, startGame_failure.
Qed.

Lemma checked_failures_keep_state_example :
  addPlayerToRoom "B" "ABCDEF" 9 (after match_ops) =
    (after match_ops, Failure "Room is full").
Proof.
  assert (∃ s', addPlayerToRoom "B" "ABCDEF" 9 (after match_ops) =
                  (s', Failure "Room is full")) as [s' Hcall]
    by (eexists; by_compute).
  rewrite Hcall. f_equal.
  apply (checked_failures_keep_state "B" "ABCDEF" 9 _ _ "Room is full"). by left.
Defined.

Lemma finishAction_keeps_verdict p t rid ap tp now s ps room res s' res' :
  finishAction p t rid ap tp now s ps room res = (s', Returned res') →
  success res' = success res ∧ error res' = error res.
Proof.
  unfold finishAction. intros H. case_all; done.
Qed.

(** X4.  A [processGameAction] call that returns a failure for any reason
    other than the two refusals of [processAbilityUse] has changed
    nothing. *)
Theorem guard_failures_keep_state p a now s s' res :
  processGameAction p a now s = (s', Returned res) →
  success res = false →
  error res ≠ Some "Ability not found" → error res ≠ Some "Not enough mana" →
  s' = s.
Proof.
  intros Hcall Hfail Hne1 Hne2.
  apply processGameAction_cases in Hcall as [[-> _]|[[-> _]|Hcall]]; [done..|].
  destruct Hcall as (rid & room & t & ap & tp & ps & room1 & res0 & _ & _ & _ & _ &
                     _ & _ & _ & _ & Hd & Hfin).
  apply finishAction_keeps_verdict in Hfin as [Hs He].
  rewrite Hs in Hfail. rewrite He in Hne1, Hne2.
  unfold dispatch, processAbilityUse, processSurrender in Hd.
  case_all; done.
Qed.

Lemma guard_failures_keep_state_example :
  (processGameAction "B" (useAbility "bolt") 8 (after match_ops)).1 = after match_ops.
Proof.
  destruct (processGameAction "B" (useAbility "bolt") 8 (after match_ops))
    as [s' out] eqn:Hcall.
  assert (out = Returned (failed "Not your turn")) as ->.
  { apply (f_equal snd) in Hcall. simpl in Hcall. rewrite <- Hcall. by_compute. }
  simpl. by apply (guard_failures_keep_state _ _ _ _ _ _ Hcall).
Defined.

(** ** Leaving *)

Lemma removePlayerFromRoom_index p r now s s' res :
  removePlayerFromRoom p r now s = (s', res) →
  (∃ e, res = Failure e ∧ s' = s) ∨
  (rooms s !! r ≠ None ∧ playerToRoom s' = delete p (playerToRoom s) ∧
   players s' = players s).
Proof.
  unfold removePlayerFromRoom. destruct (rooms s !! r) as [room|] eqn:Hr.
  - destruct (depart p now room); intros [= <- <-]; right; by split_and!.
  - intros [= <- <-]. left. eauto.
Qed.

(** X5.  [leaveAllRooms] is idempotent on the manager: a second call right
    after the first changes nothing more, and when the first call removed
    the player the second answers with the no-room result. *)
Theorem leaveAllRooms_idempotent p now now' s :
  (leaveAllRooms p now' (leaveAllRooms p now s).1).1 = (leaveAllRooms p now s).1 ∧
  (is_failure (leaveAllRooms p now s).2 = false →
   (leaveAllRooms p now' (leaveAllRooms p now s).1).2 = NoRoomFound).
Proof.
  destruct (leaveAllRooms p now s) as [s1 res] eqn:Hfirst; simpl.
  unfold leaveAllRooms in Hfirst.
  destruct (playerToRoom s !! p) as [r|] eqn:Hi.
  - destruct (removePlayerFromRoom_index _ _ _ _ _ _ Hfirst)
      as [(e & -> & ->)|(Hroom & Hidx & _)].
    + split; [|done]. unfold leaveAllRooms. rewrite Hi.
      unfold removePlayerFromRoom in *.
      destruct (rooms s !! r) as [room|]; [|done].
      destruct (depart p now room); done.
    + unfold leaveAllRooms. rewrite Hidx, lookup_delete_eq. done.
  - injection Hfirst as <- <-. unfold leaveAllRooms. by rewrite Hi.
Qed.

(** ** Unregistering *)

Lemma GSM_eq (a b : GameStateManager) :
  rooms a = rooms b → players a = players b → playerToRoom a = playerToRoom b →
  a = b.
Proof. destruct a, b; simpl; congruence. Qed.

Lemma depart_players p now room room' :
  depart p now room = Some room' →
  r_players room' = filter (λ id, id ≠ p) (r_players room).
Proof.
  destruct room as [i n h g st pr mp ps sp gd ca la].
  unfold depart; simpl. intros Hd. case_all; done.
Qed.

Lemma unregisterPlayer_tables p now s :
  players (unregisterPlayer p now s) = delete p (players s) ∧
  playerToRoom (unregisterPlayer p now s) = delete p (playerToRoom s).
Proof.
  unfold unregisterPlayer; simpl.
  destruct (playerToRoom s !! p) as [r|]; [|done].
  destruct (removePlayerFromRoom p r now s) as [s1 res] eqn:Hrem; simpl.
  destruct (removePlayerFromRoom_index _ _ _ _ _ _ Hrem)
    as [(e & -> & ->)|(_ & -> & ->)]; [done|].
  split; [done|]. apply map_eq. intros q.
  destruct (decide (q = p)) as [->|Hne];
    [by rewrite !lookup_delete_eq | by rewrite !lookup_delete_ne].
Qed.

(** X6.  [unregisterPlayer] forgets the player: the record and the index
    entry are gone, the room the index named no longer seats the player,
    and no other player's record or index entry is touched. *)
Theorem unregisterPlayer_forgets p now s :
  players (unregisterPlayer p now s) !! p = None ∧
  playerToRoom (unregisterPlayer p now s) !! p = None ∧
  (∀ q, q ≠ p →
        players (unregisterPlayer p now s) !! q = players s !! q ∧
        playerToRoom (unregisterPlayer p now s) !! q = playerToRoom s !! q) ∧
  (∀ r room', playerToRoom s !! p = Some r →
              rooms (unregisterPlayer p now s) !! r = Some room' →
              p ∉ r_players room').
Proof.
  destruct (unregisterPlayer_tables p now s) as [-> ->].
  split; [apply lookup_delete_eq|]. split; [apply lookup_delete_eq|]. split.
  - intros q Hne. by rewrite !lookup_delete_ne.
  - intros r room' Hi. unfold unregisterPlayer; simpl. rewrite Hi.
    unfold removePlayerFromRoom. destruct (rooms s !! r) as [room|] eqn:Hr; simpl.
    + destruct (depart p now room) as [room1|] eqn:Hd; simpl.
      * rewrite lookup_insert_eq. intros [= <-].
        apply depart_players in Hd. rewrite Hd.
        rewrite list_elem_of_filter. by intros [? _].
      * by rewrite lookup_delete_eq.
    + by rewrite Hr.
Qed.

(** X7.  The disconnect handler's own call of [removePlayerFromRoom] adds
    nothing: it leaves the manager in the state [unregisterPlayer] alone
    produces. *)
Theorem handleUserDisconnection_is_unregister p now s :
  handleUserDisconnection p now s = unregisterPlayer p now s.
Proof.
  unfold handleUserDisconnection.
  destruct (playerToRoom s !! p) as [r|] eqn:Hi; [|done].
  destruct (rooms s !! r) as [room|] eqn:Hr; [|done].
  destruct (removePlayerFromRoom p r now s) as [s1 res] eqn:Hrem; simpl.
  assert (playerToRoom s1 !! p = None) as Hgone.
  { destruct (removePlayerFromRoom_index _ _ _ _ _ _ Hrem)
      as [(e & -> & ->)|(_ & -> & _)]; [|apply lookup_delete_eq].
    unfold removePlayerFromRoom in Hrem. rewrite Hr in Hrem.
    destruct (depart p now room); done. }
  unfold unregisterPlayer. by rewrite Hi, Hgone, Hrem.
Qed.


(** ** A room for as long as it is registered *)

Lemma same_room_refl room : same_room room room.
Proof. by repeat split. Qed.

Lemma depart_same_room p now room room' :
  depart p now room = Some room' → same_room room room'.
Proof.
  destruct room as [i n h g st pr mp ps sp gd ca la].
  unfold depart, same_room; simpl. intros Hd.
  destruct st; case_all; split_and!; simpl; try done; lia.
Qed.

Lemma leaveAllRooms_players p now s : players (leaveAllRooms p now s).1 = players s.
Proof.
  unfold leaveAllRooms. destruct (playerToRoom s !! p) as [r|]; [|done].
  destruct (removePlayerFromRoom p r now s) as [s1 res] eqn:Hrem; simpl.
  by destruct (removePlayerFromRoom_index _ _ _ _ _ _ Hrem)
    as [(e & -> & ->)|(_ & _ & ->)].
Qed.

(** The effect of a successful [addPlayerToRoom], table by table. *)
Lemma addPlayerToRoom_tables p r now s s' res :
  addPlayerToRoom p r now s = (s', res) →
  (s' = s ∧ is_failure res = true) ∨
  (∃ room,
     rooms s !! r = Some room ∧ is_Some (players s !! p) ∧
     (length (r_players room) < maxPlayers room)%nat ∧ status room = Waiting ∧
     players s' = players s ∧
     playerToRoom s' = <[p := r]> (playerToRoom (leaveAllRooms p now s).1) ∧
     rooms s' = match rooms (leaveAllRooms p now s).1 !! r with
                | Some room1 => <[r := seat p now room1]> (rooms (leaveAllRooms p now s).1)
                | None => rooms (leaveAllRooms p now s).1
                end ∧
     res = RoomOk (seat p now
                     (default (set_players room (filter (λ id, id ≠ p) (r_players room)))
                              (rooms (leaveAllRooms p now s).1 !! r)))).
Proof.
  unfold addPlayerToRoom.
  destruct (rooms s !! r) as [room|] eqn:Hr; [|intros [= <- <-]; by left].
  destruct (players s !! p) as [pl|] eqn:Hp; [|intros [= <- <-]; by left].
  destruct (maxPlayers room <=? length (r_players room))%nat eqn:Hfull;
    [intros [= <- <-]; by left|].
  apply Nat.leb_gt in Hfull.
  case_decide as Hst; [intros [= <- <-]; by left|].
  assert (status room = Waiting) as Hw by (by destruct (status room)).
  intros [= <- <-]. right. exists room. simpl.
  rewrite leaveAllRooms_players.
  split_and!; try done.
  destruct (rooms (leaveAllRooms p now s).1 !! r); done.
Qed.

Lemma addPlayerToRoom_room p r now s r' room' :
  rooms (addPlayerToRoom p r now s).1 !! r' = Some room' →
  ∃ room, rooms s !! r' = Some room ∧
    (room' = room ∨ depart p now room = Some room' ∨
     (r' = r ∧ status room = Waiting ∧
      (length (r_players room) < maxPlayers room)%nat ∧
      ∃ room1, (room1 = room ∨ depart p now room = Some room1) ∧
               room' = seat p now room1)).
Proof.
  destruct (addPlayerToRoom p r now s) as [s' res] eqn:Hcall; simpl.
  apply addPlayerToRoom_tables in Hcall
    as [[-> _]|(room & Hr & _ & Hlen & Hst & _ & _ & Hrooms & _)]; [by eauto|].
  rewrite Hrooms.
  destruct (rooms (leaveAllRooms p now s).1 !! r) as [room1|] eqn:Hreg.
  - rewrite lookup_insert_Some. intros [[<- <-]|[Hne Hl]].
    + apply leaveAllRooms_room in Hreg as (room0 & Hr0 & Hcase).
      assert (room0 = room) as -> by congruence.
      exists room. split; [done|]. right; right. split_and!; [done..|].
      exists room1. split; [|done]. destruct Hcase as [->|[_ ?]]; auto.
    + apply leaveAllRooms_room in Hl as (room0 & Hr0 & [->|[_ ?]]); eauto.
  - intros Hl. apply leaveAllRooms_room in Hl as (room0 & Hr0 & [->|[_ ?]]); eauto.
Qed.

(** The effect of a [createRoom] that returns, table by table. *)
Lemma createRoom_tables h rd rand now s s' res :
  createRoom h rd rand now s = Some (s', res) →
  ∃ roomId, resolveRoomId rd rand s = Some roomId ∧
    match res with
    | None => players s !! h = None ∧ s' = (leaveAllRooms h now s).1
    | Some room =>
        (∃ host, players s !! h = Some host ∧
           room = mkRoom roomId (or_else (rd_name rd) (p_name host +:+ "'s Room"))
                         h None Waiting (default false (rd_isPrivate rd)) 2 [h] []
                         (mkGameData 0 None [] None None None) now now) ∧
        rooms s' = <[roomId := room]> (rooms (leaveAllRooms h now s).1) ∧
        players s' = players s ∧
        playerToRoom s' = <[h := roomId]> (playerToRoom (leaveAllRooms h now s).1)
    end.
Proof.
  unfold createRoom.
  destruct (resolveRoomId rd rand s) as [roomId|]; [|done].
  rewrite leaveAllRooms_players.
  destruct (players s !! h) as [host|] eqn:Hh; intros [= <- <-]; exists roomId.
  - split; [done|]. simpl. rewrite ?leaveAllRooms_players.
    split_and!; try done. by exists host.
  - done.
Qed.

Lemma createRoom_room h rd rand now s s' res r' room' :
  createRoom h rd rand now s = Some (s', res) →
  rooms s' !! r' = Some room' →
  (∃ room, rooms s !! r' = Some room ∧
           (room' = room ∨ depart h now room = Some room')) ∨
  (resolveRoomId rd rand s = Some r' ∧ res = Some room' ∧ r_id room' = r' ∧
   r_players room' = [h] ∧ is_Some (players s !! h)).
Proof.
  intros (roomId & Hres & Hcase)%createRoom_tables.
  destruct res as [room|].
  - destruct Hcase as ((host & Hh & ->) & -> & _ & _).
    rewrite lookup_insert_Some. intros [[<- <-]|[_ Hl]].
    + right. split_and!; try done; by eexists.
    + left. apply leaveAllRooms_room in Hl as (room0 & ? & [->|[_ ?]]); eauto.
  - destruct Hcase as [_ ->]. intros Hl. left.
    apply leaveAllRooms_room in Hl as (room0 & ? & [->|[_ ?]]); eauto.
Qed.

Lemma seat_same_room p now room : status room = Waiting → same_room room (seat p now room).
Proof.
  intros Hst. unfold seat, same_room. case_decide; simpl; split_and!; done.
Qed.

Lemma same_room_trans a b c : same_room a b → same_room b c → same_room a c.
Proof.
  unfold same_room. intros (? & ? & ? & ? & ? & ?) (? & ? & ? & ? & ? & ?).
  split_and!; try congruence. lia.
Qed.

Lemma touch_same_room room room' :
  r_id room' = r_id room → r_name room' = r_name room →
  isPrivate room' = isPrivate room → maxPlayers room' = maxPlayers room →
  createdAt room' = createdAt room →
  (status_rank (status room) ≤ status_rank (status room'))%nat →
  same_room room room'.
Proof. by repeat split. Qed.

Lemma setPlayerCharacter_same_room p c now s r' room' :
  rooms (setPlayerCharacter p c now s).1 !! r' = Some room' →
  ∃ room, rooms s !! r' = Some room ∧ same_room room room'.
Proof.
  unfold setPlayerCharacter.
  pose proof (updatePlayer_rooms p (assign_character c) now s) as Hrooms.
  destruct (updatePlayer p (assign_character c) now s) as [s1 [pl|]]; simpl in *;
    [|by eauto using same_room_refl].
  destruct (playerToRoom s1 !! p) as [rid|]; simpl; rewrite Hrooms;
    [|by eauto using same_room_refl].
  destruct (truthy rid); simpl; rewrite ?Hrooms; [|by eauto using same_room_refl].
  destruct (rooms s !! rid) as [room|] eqn:Hr; simpl; rewrite ?Hrooms;
    [|by eauto using same_room_refl].
  rewrite lookup_insert_Some. intros [[<- <-]|[? ?]]; [|by eauto using same_room_refl].
  exists room. split; [done|]. by apply touch_same_room.
Qed.

Lemma setPlayerReady_same_room p b now s r' room' :
  rooms (setPlayerReady p b now s).1 !! r' = Some room' →
  ∃ room, rooms s !! r' = Some room ∧ same_room room room'.
Proof.
  unfold setPlayerReady.
  pose proof (updatePlayer_rooms p (λ q, set_isReady q b) now s) as Hrooms.
  destruct (updatePlayer p (λ q, set_isReady q b) now s) as [s1 [pl|]]; simpl in *;
    [|by eauto using same_room_refl].
  destruct (playerToRoom s1 !! p) as [rid|]; simpl; rewrite Hrooms;
    [|by eauto using same_room_refl].
  destruct (truthy rid); simpl; rewrite ?Hrooms; [|by eauto using same_room_refl].
  destruct (rooms s !! rid) as [room|] eqn:Hr; simpl; rewrite ?Hrooms;
    [|by eauto using same_room_refl].
  destruct (if decide (length (r_players room) = 2%nat)
            then every_isReady (players s1) (r_players room)
            else Returned false) as [all|e]; simpl; rewrite ?Hrooms;
    [|by eauto using same_room_refl].
  rewrite lookup_insert_Some. intros [[<- <-]|[? ?]]; [|by eauto using same_room_refl].
  exists room. split; [done|].
  destruct all, (status room) eqn:Hst; simpl; apply touch_same_room; simpl;
    rewrite ?Hst; simpl; try done; lia.
Qed.

Lemma startGame_same_room r now s r' room' :
  rooms (startGame r now s).1 !! r' = Some room' →
  ∃ room, rooms s !! r' = Some room ∧ same_room room room'.
Proof.
  unfold startGame.
  destruct (rooms s !! r) as [room|] eqn:Hr; simpl; [|by eauto using same_room_refl].
  case_decide as Hst; simpl; [by eauto using same_room_refl|].
  case_decide as Hlen; simpl; [by eauto using same_room_refl|].
  assert (status room = Ready) as Hready by (by destruct (status room)).
  destruct (players s !! hostId room) as [host|]; simpl;
    rewrite lookup_insert_Some;
    (intros [[<- <-]|[? ?]]; [|by eauto using same_room_refl]);
    exists room; (split; [done|]); apply touch_same_room; simpl; try done;
    rewrite Hready; simpl; lia.
Qed.

Lemma processGameAction_same_room p a now s r' room' :
  rooms (processGameAction p a now s).1 !! r' = Some room' →
  ∃ room, rooms s !! r' = Some room ∧ same_room room room'.
Proof.
  destruct (processGameAction p a now s) as [s' out] eqn:Hcall; simpl.
  apply processGameAction_cases in Hcall as [[-> _]|[[-> _]|Hcall]];
    [by eauto using same_room_refl..|].
  destruct Hcall as (rid & room & t & ap & tp & ps & room1 & res & _ & _ & Hr &
                     Hst & _ & _ & _ & _ & Hd & Hfin).
  assert (same_room room room1) as H1.
  { unfold dispatch, processAbilityUse, processSurrender in Hd.
    case_all; by apply touch_same_room. }
  assert (∃ roomF, rooms s' = <[rid := roomF]> (rooms s) ∧ same_room room1 roomF)
    as (roomF & -> & H2).
  { unfold finishAction in Hfin.
    destruct H1 as (_ & _ & _ & _ & _ & Hrank). rewrite Hst in Hrank.
    case_all; eexists; (split; [reflexivity|]); apply touch_same_room; simpl;
      try done; destruct (status room1); simpl in *; lia. }
  rewrite lookup_insert_Some. intros [[<- <-]|[? ?]]; [|by eauto using same_room_refl].
  eauto using same_room_trans.
Qed.

(** One call: the room under a code stays the same room unless the call
    creates a room there. *)
Lemma step_same_room op s s' r room room' :
  step op s = Some s' → rooms s !! r = Some room → rooms s' !! r = Some room' →
  same_room room room' ∨ creates_at r op s.
Proof.
  intros Hstep Hr Hr'.
  assert ((∃ room0, rooms s !! r = Some room0 ∧ same_room room0 room') ∨
          ∃ h rd rand now, op = OpCreateRoom h rd rand now ∧
                           resolveRoomId rd rand s = Some r) as [Hsame|Hnew].
  { destruct op; simpl in Hstep; try (injection Hstep as <-).
    - left. eauto using same_room_refl.
    - left. unfold unregisterPlayer in Hr'; simpl in Hr'.
      destruct (playerToRoom s !! socketId) as [r0|]; [|by eauto using same_room_refl].
      apply removePlayerFromRoom_room in Hr' as (room0 & ? & [->|[_ ?]]);
        eauto using same_room_refl, depart_same_room.
    - apply fmap_Some in Hstep as ([s1 res] & Hc & ->).
      destruct (createRoom_room _ _ _ _ _ _ _ _ _ Hc Hr')
        as [(room0 & ? & [->|?])|(? & _)];
        [left; eauto using same_room_refl | left; eauto using depart_same_room|].
      right. by exists hostId_, roomData, rand, now.
    - left. apply addPlayerToRoom_room in Hr'
        as (room0 & ? & [->|[?|(_ & Hst & _ & room1 & Hcase & ->)]]);
        [eauto using same_room_refl | eauto using depart_same_room |].
      exists room0. split; [done|].
      destruct Hcase as [->|Hd]; [by apply seat_same_room|].
      eapply same_room_trans; [by eapply depart_same_room|].
      apply seat_same_room. erewrite depart_status; [done..|]. by rewrite Hst.
    - left. apply removePlayerFromRoom_room in Hr' as (room0 & ? & [->|[_ ?]]);
        eauto using same_room_refl, depart_same_room.
    - left. apply leaveAllRooms_room in Hr' as (room0 & ? & [->|[_ ?]]);
        eauto using same_room_refl, depart_same_room.
    - left. eauto using setPlayerCharacter_same_room.
    - left. eauto using setPlayerReady_same_room.
    - left. eauto using startGame_same_room.
    - left. eauto using processGameAction_same_room.
    - left. apply cleanupInactive_room in Hr' as [? _]. eauto using same_room_refl. }
  - left. destruct Hsame as (room0 & ? & ?). by assert (room0 = room) as -> by congruence.
  - by right.
Qed.

Lemma run_absent r ops s s' :
  rooms s !! r = None → run ops s = Some s' →
  rooms s' !! r = None ∨ creates_during r ops s.
Proof.
  revert s. induction ops as [|op ops IH]; simpl; intros s Hr Hrun.
  - left. by simplify_eq.
  - destruct (step op s) as [s1|] eqn:Hstep; [|done].
    destruct (rooms s1 !! r) as [room1|] eqn:Hr1.
    + right. left.
      destruct (step_room _ _ _ _ _ Hstep Hr1) as [(room & ? & _)|Hcr]; [congruence|].
      destruct Hcr as (h & rd & rand & now & -> & Hres & _).
      by exists h, rd, rand, now.
    + destruct (IH _ Hr1 Hrun); auto.
Qed.

(** X8.  Along any sequence of operations in which no [createRoom] call
    resolves to the code [r], the room found under [r] at the end is the
    room that was there at the start: same id, name, privacy flag, capacity
    and creation time, and a status that has not moved backwards along
    waiting, ready, in-progress, completed. *)
Theorem room_identity_and_status ops s s' r room room' :
  run ops s = Some s' → ¬ creates_during r ops s →
  rooms s !! r = Some room → rooms s' !! r = Some room' →
  same_room room room'.
Proof.
  revert s room. induction ops as [|op ops IH]; simpl; intros s room Hrun Hncr Hr Hr'.
  - simplify_eq. apply same_room_refl.
  - destruct (step op s) as [s1|] eqn:Hstep; [|done].
    destruct (rooms s1 !! r) as [room1|] eqn:Hr1.
    + destruct (step_same_room _ _ _ _ _ _ Hstep Hr Hr1) as [Hsame|Hcr];
        [|by destruct Hncr; left].
      eapply same_room_trans; [exact Hsame|].
      apply (IH s1); [done| |done..]. intros Hcr. apply Hncr. by right.
    + destruct (run_absent _ _ _ _ Hr1 Hrun) as [?|Hcr]; [congruence|].
      destruct Hncr. by right.
Qed.

Lemma room_identity_and_status_example :
  ∃ room room',
    rooms (after ready_ops) !! "ABCDEF" = Some room ∧
    rooms (after match_ops) !! "ABCDEF" = Some room' ∧
    same_room room room'.
Proof.
  assert (∃ room, rooms (after ready_ops) !! "ABCDEF" = Some room) as [room Hr]
    by (eexists; by_compute).
  assert (∃ room', rooms (after match_ops) !! "ABCDEF" = Some room') as [room' Hr']
    by (eexists; by_compute).
  exists room, room'. split_and!; [done..|].
  apply (room_identity_and_status [OpStartGame "ABCDEF" 7] (after ready_ops)
           (after match_ops) "ABCDEF" room room'); [by_compute| |exact Hr|exact Hr'].
  cbn [creates_during]. intros [(h & rd & rand & now & Hop & _)|Hrest]; [discriminate|].
  by destruct (step (OpStartGame "ABCDEF" 7) (after ready_ops)).
Defined.

(** Rooms are filed under their own id. *)
Lemma reachable_rooms_keyed s : reachable s → rooms_keyed s.
Proof.
  induction 1 as [|op s s' _ IH Hstep].
  { intros r room. unfold constructor; simpl. by rewrite lookup_empty. }
  intros r room' Hr'.
  assert ((∃ room0, rooms s !! r = Some room0 ∧ same_room room0 room') ∨
          r_id room' = r) as [(room0 & Hr0 & Hsame)|?]; [| |done].
  { destruct (rooms s !! r) as [room0|] eqn:Hr0.
    - destruct (step_same_room _ _ _ _ _ _ Hstep Hr0 Hr')
        as [?|(h & rd & rand & now & -> & _)]; [by eauto|].
      simpl in Hstep. apply fmap_Some in Hstep as ([s1 res] & Hc & ->).
      destruct (createRoom_room _ _ _ _ _ _ _ _ _ Hc Hr')
        as [(room1 & ? & [->|?])|(_ & _ & ? & _)]; [left|left|by right];
        exists room1; (split; [congruence|]);
        eauto using same_room_refl, depart_same_room.
    - destruct (step_room _ _ _ _ _ Hstep Hr') as [(room1 & ? & _)|Hcr];
        [congruence|].
      destruct Hcr as (h & rd & rand & now & -> & _).
      simpl in Hstep. apply fmap_Some in Hstep as ([s1 res] & Hc & ->).
      destruct (createRoom_room _ _ _ _ _ _ _ _ _ Hc Hr')
        as [(room1 & ? & _)|(_ & _ & ? & _)]; [congruence|by right]. }
  destruct Hsame as (Hid & _). rewrite Hid. by apply IH in Hr0.
Qed.


(** ** The public listing *)

Lemma getPublicRooms_elem s sm :
  sm ∈ getPublicRooms s ↔
  ∃ r room, rooms s !! r = Some room ∧ listed room ∧ sm = summary s room.
Proof.
  unfold getPublicRooms. rewrite list_elem_of_fmap. split.
  - intros (room & -> & Hin). apply list_elem_of_filter in Hin as [Hl Hin].
    apply list_elem_of_fmap in Hin as ([r room'] & -> & Hin).
    apply elem_of_map_to_list in Hin. by exists r, room'.
  - intros (r & room & Hr & Hl & ->). exists room. split; [done|].
    apply list_elem_of_filter. split; [done|].
    apply list_elem_of_fmap. exists (r, room). split; [done|].
    by apply elem_of_map_to_list.
Qed.

Lemma reachable_after ops s : run ops constructor = Some s → reachable s.
Proof. apply run_reachable, reachable_init. Qed.

(** X9.  Whatever the operations so far, every entry of the public
    listing stands for a registered room that is public, waiting and has
    its host as only occupant, shows 1 of 2 seats taken, and a join by any
    registered player under the listed id returns success. *)
Theorem listed_rooms_accept_joins s sm p now :
  reachable s → sm ∈ getPublicRooms s → is_Some (players s !! p) →
  rs_players sm = 1%nat ∧ rs_maxPlayers sm = 2%nat ∧
  (∃ room, rooms s !! rs_id sm = Some room ∧ isPrivate room = false ∧
           status room = Waiting ∧ r_players room = [rs_hostId sm]) ∧
  ∃ s' room', addPlayerToRoom p (rs_id sm) now s = (s', RoomOk room').
Proof.
  intros Hreach (r & room & Hr & (Hpriv & Hst & Hlen) & ->)%getPublicRooms_elem [pl Hp].
  destruct (reachable_rooms_ok _ Hreach _ _ Hr) as [[Hmax Hshape] _].
  pose proof (reachable_rooms_keyed _ Hreach _ _ Hr) as Hid.
  simpl. rewrite Hid, Hmax. rewrite Hmax in Hlen.
  destruct (r_players room) as [|a [|b ps]] eqn:Hps; simpl in *; try done; [|lia].
  destruct Hshape as [Hh _].
  split_and!; [done..| |].
  - exists room. by rewrite Hh, Hps.
  - unfold addPlayerToRoom. rewrite Hr, Hp, Hmax, Hps; simpl.
    rewrite decide_False by (by intros []). eauto.
Qed.

Lemma listed_rooms_accept_joins_example :
  ∃ sm s' room',
    sm ∈ getPublicRooms (after lobby_ops) ∧ rs_id sm = "ABCDEF" ∧
    rs_players sm = 1%nat ∧
    addPlayerToRoom "B" "ABCDEF" 2 (after lobby_ops) = (s', RoomOk room').
Proof.
  assert (∃ room, rooms (after lobby_ops) !! "ABCDEF" = Some room ∧ listed room)
    as (room & Hr & Hl).
  { eexists. split; [by_compute|]. vm_compute. by split_and!. }
  assert (summary (after lobby_ops) room ∈ getPublicRooms (after lobby_ops)) as Hin.
  { apply getPublicRooms_elem. by exists "ABCDEF", room. }
  assert (rs_id (summary (after lobby_ops) room) = "ABCDEF") as Hid.
  { vm_compute in Hr. injection Hr as <-. reflexivity. }
  opose proof* (listed_rooms_accept_joins (after lobby_ops) _ "B" 2 _ Hin)
    as (Hone & _ & _ & s' & room' & Hjoin);
    [apply (reachable_after lobby_ops); by_compute | vm_compute; by eexists |].
  rewrite Hid in Hjoin.
  exists (summary (after lobby_ops) room), s', room'. by split_and!.
Defined.

(** X10.  After a successful join the room no longer appears in the
    listing: it is full, or the join was the host's own and closed it. *)
Theorem joined_room_is_unlisted p r now s s' room' :
  reachable s → addPlayerToRoom p r now s = (s', RoomOk room') →
  ∀ sm, sm ∈ getPublicRooms s' → rs_id sm ≠ r.
Proof.
  intros Hreach Hcall sm (r' & room & Hr' & (_ & _ & Hlen) & ->)%getPublicRooms_elem.
  simpl. intros Hid.
  assert (reachable s') as Hreach'.
  { eapply (reachable_step (OpAddPlayerToRoom p r now)); [done|]. simpl. by rewrite Hcall. }
  assert (reachable (leaveAllRooms p now s).1) as Hreach1.
  { eapply (reachable_step (OpLeaveAllRooms p now)); [exact Hreach|reflexivity]. }
  rewrite (reachable_rooms_keyed _ Hreach' _ _ Hr') in Hid. subst r'.
  destruct (reachable_rooms_ok _ Hreach' _ _ Hr') as [[Hmax _] _].
  rewrite Hmax in Hlen.
  apply addPlayerToRoom_tables in Hcall
    as [[_ ?]|(room0 & _ & _ & _ & _ & _ & _ & Hrooms & _)]; [done|].
  rewrite Hrooms in Hr'.
  destruct (rooms (leaveAllRooms p now s).1 !! r) as [room1|] eqn:Hreg; [|congruence].
  rewrite lookup_insert_eq in Hr'. injection Hr' as <-.
  destruct (reachable_rooms_ok _ Hreach1 _ _ Hreg) as [[_ Hshape] _].
  unfold seat in Hlen. case_decide; simpl in Hlen; rewrite length_app in Hlen;
    destruct (r_players room1); simpl in *; try done; lia.
Qed.

Lemma joined_room_is_unlisted_example :
  Forall (λ sm, rs_id sm ≠ "ABCDEF")
         (getPublicRooms (addPlayerToRoom "B" "ABCDEF" 2 (after lobby_ops)).1).
Proof.
  apply Forall_forall.
  destruct (addPlayerToRoom "B" "ABCDEF" 2 (after lobby_ops)) as [s' res] eqn:Hcall.
  assert (∃ room', res = RoomOk room') as [room' ->].
  { apply (f_equal snd) in Hcall. simpl in Hcall. rewrite <- Hcall.
    eexists. by_compute. }
  simpl. eapply joined_room_is_unlisted; [|exact Hcall].
  apply (reachable_after lobby_ops). by_compute.
Defined.

(** X11.  A room that [createRoom] has just registered is on the public
    listing exactly when it was not asked to be private; it then shows one
    occupant out of two. *)
Theorem created_room_listing h rd rand now s s' room :
  reachable s → createRoom h rd rand now s = Some (s', Some room) →
  (summary s' room ∈ getPublicRooms s' ↔ default false (rd_isPrivate rd) = false) ∧
  rs_players (summary s' room) = 1%nat ∧ rs_maxPlayers (summary s' room) = 2%nat.
Proof.
  intros Hreach Hcall.
  assert (reachable s') as Hreach'.
  { eapply (reachable_step (OpCreateRoom h rd rand now)); [done|]. simpl. by rewrite Hcall. }
  apply createRoom_tables in Hcall
    as (roomId & _ & (host & _ & Hroom) & Hrooms & _ & _).
  assert (rooms s' !! roomId = Some room) as Hr
    by (rewrite Hrooms; apply lookup_insert_eq).
  split; [|by subst room].
  split.
  - intros (r' & room' & Hr' & (Hpriv & _) & Heq)%getPublicRooms_elem.
    assert (r' = roomId) as ->.
    { rewrite <- (reachable_rooms_keyed _ Hreach' _ _ Hr').
      apply (f_equal rs_id) in Heq. simpl in Heq. rewrite <- Heq. by subst room. }
    assert (room' = room) as -> by congruence. by subst room.
  - intros Hpub. apply getPublicRooms_elem. exists roomId, room.
    split_and!; [done| |done]. subst room. unfold listed; simpl. split_and!; [done..|lia].
Qed.

Lemma created_room_listing_example :
  ∃ s' room,
    createRoom "B" unnamed [draw2] 2 (after lobby_ops) = Some (s', Some room) ∧
    summary s' room ∈ getPublicRooms s' ∧ rs_players (summary s' room) = 1%nat.
Proof.
  assert (∃ s' room, createRoom "B" unnamed [draw2] 2 (after lobby_ops) =
                       Some (s', Some room)) as (s' & room & Hcall)
    by (do 2 eexists; by_compute).
  opose proof* (created_room_listing "B" unnamed [draw2] 2 (after lobby_ops) s' room)
    as ([_ Hlisted] & Hone & _);
    [apply (reachable_after lobby_ops); by_compute | exact Hcall |].
  exists s', room. split_and!; [exact Hcall | by apply Hlisted | exact Hone].
Defined.


(** ** Player records *)

Lemma battle_step_refl s pl : battle_step s pl pl.
Proof. split; [by repeat split|]. split; by left. Qed.

Lemma find_ability_Some c aid ab :
  find_ability c aid = Some ab →
  ∃ ch, c = Some ch ∧ ab ∈ abilities ch ∧ Some (ab_id ab) = aid.
Proof.
  unfold find_ability. destruct c as [ch|]; simpl; [|done].
  intros Hf. apply List.find_some in Hf as [Hin Hid].
  exists ch. split_and!; [done|by apply list_elem_of_In|].
  by apply bool_decide_eq_true in Hid.
Qed.

Lemma dispatch_players p t ap tp a room s ps room1 res k :
  players s !! p = Some ap → players s !! t = Some tp →
  dispatch p t ap tp a room (players s) = Returned (Some (ps, room1, res)) →
  option_Forall2 (battle_step s) (players s !! k) (ps !! k).
Proof.
  intros Hap Htp. unfold dispatch, processAbilityUse, processSurrender.
  destruct a as [a|]; [|done]. intros Hd.
  assert (∀ o : option Player, option_Forall2 (battle_step s) o o) as Hrefl.
  { intros [pl|]; constructor. apply battle_step_refl. }
  destruct (decide (a_type a = "ability")) as [_|_].
  - destruct (abilities_missing (character ap)); [done|].
    destruct (find_ability (character ap) (abilityId a)) as [ab|] eqn:Hfind;
      [|by simplify_eq].
    apply find_ability_Some in Hfind as (ch & Hch & Hin & _).
    destruct (mana ap <? manaCost ab)%Z; [by simplify_eq|].
    injection Hd as <- _ _.
    rewrite !lookup_alter.
    destruct (decide (t = k)) as [->|Hnt], (decide (p = k)) as [->|Hnp]; simpl.
    + assert (tp = ap) as -> by congruence. rewrite Hap. constructor.
      split; [by repeat split|]. split; [right|right; right]; eauto 10.
    + rewrite Htp. constructor.
      split; [by repeat split|]. split; [by left|right; right]. eauto 10.
    + rewrite Hap. constructor.
      split; [by repeat split|]. split; [right|by left]. eauto.
    + apply Hrefl.
  - destruct (decide (a_type a = "surrender")) as [_|_]; [|done].
    injection Hd as <- _ _. rewrite lookup_alter.
    destruct (decide (p = k)) as [->|Hnp]; simpl; [|apply Hrefl].
    rewrite Hap. constructor. split; [by repeat split|]. split; [by left|right; by left].
Qed.

Lemma finishAction_tables p t rid ap tp now s ps room res s' out :
  finishAction p t rid ap tp now s ps room res = (s', out) →
  players s' = ps ∧ playerToRoom s' = playerToRoom s.
Proof. unfold finishAction. intros H. case_all; done. Qed.

(** One call: the records it finds and what it leaves of them. *)
Lemma processGameAction_battle p a now s k :
  option_Forall2 (battle_step s) (players s !! k)
                 (players (processGameAction p a now s).1 !! k) ∧
  playerToRoom (processGameAction p a now s).1 = playerToRoom s.
Proof.
  destruct (processGameAction p a now s) as [s' out] eqn:Hcall; simpl.
  apply processGameAction_cases in Hcall as [[-> _]|[[-> _]|Hcall]];
    [split; [|done]; destruct (players s !! k); constructor; apply battle_step_refl..|].
  destruct Hcall as (rid & room & t & ap & tp & ps & room1 & res & _ & _ & _ &
                     _ & _ & Hap & Htp & _ & Hd & Hfin).
  apply finishAction_tables in Hfin as [-> ->]. split; [|done].
  exact (dispatch_players p t ap tp a room s ps room1 res k Hap Htp Hd).
Qed.

Lemma updatePlayer_players p f now s k :
  players (updatePlayer p f now s).1 !! k =
    if decide (k = p) then (λ pl, set_lastActive (f pl) now) <$> players s !! k
    else players s !! k.
Proof.
  unfold updatePlayer. destruct (players s !! p) as [pl|] eqn:Hp; simpl.
  - case_decide as Hk; [subst; by rewrite lookup_insert_eq, Hp|].
    by rewrite lookup_insert_ne.
  - case_decide; [subst; by rewrite Hp|done].
Qed.

Lemma setPlayerCharacter_tables p c now s :
  players (setPlayerCharacter p c now s).1 = players (updatePlayer p (assign_character c) now s).1 ∧
  playerToRoom (setPlayerCharacter p c now s).1 = playerToRoom s.
Proof.
  unfold setPlayerCharacter.
  pose proof (updatePlayer_index p (assign_character c) now s) as Hidx.
  destruct (updatePlayer p (assign_character c) now s) as [s1 [pl|]] eqn:Hup; simpl in *.
  - repeat case_match; simpl; done.
  - unfold updatePlayer in Hup. destruct (players s !! p); by simplify_eq.
Qed.

Lemma setPlayerReady_tables p b now s :
  players (setPlayerReady p b now s).1 = players (updatePlayer p (λ q, set_isReady q b) now s).1 ∧
  playerToRoom (setPlayerReady p b now s).1 = playerToRoom s.
Proof.
  unfold setPlayerReady.
  pose proof (updatePlayer_index p (λ q, set_isReady q b) now s) as Hidx.
  destruct (updatePlayer p (λ q, set_isReady q b) now s) as [s1 [pl|]] eqn:Hup; simpl in *.
  - repeat case_match; simpl; done.
  - unfold updatePlayer in Hup. destruct (players s !! p); by simplify_eq.
Qed.

Lemma startGame_tables r now s :
  players (startGame r now s).1 = players s ∧
  playerToRoom (startGame r now s).1 = playerToRoom s.
Proof. unfold startGame. repeat (case_match || case_decide); done. Qed.

Lemma removePlayerFromRoom_players p r now s :
  players (removePlayerFromRoom p r now s).1 = players s.
Proof.
  destruct (removePlayerFromRoom p r now s) as [s1 res] eqn:Hrem; simpl.
  by destruct (removePlayerFromRoom_index _ _ _ _ _ _ Hrem)
    as [(e & -> & ->)|(_ & _ & ->)].
Qed.

(** Where the records of the players table come from. *)
Lemma step_players op s s' k pl' :
  step op s = Some s' → players s' !! k = Some pl' →
  (∃ pl, players s !! k = Some pl ∧
     (pl' = pl ∨ battle_step s pl pl' ∨
      (∃ c now, op = OpSetPlayerCharacter k c now ∧
                pl' = set_lastActive (assign_character c pl) now) ∨
      (∃ b now, pl' = set_lastActive (set_isReady pl b) now))) ∨
  (∃ n now, op = OpRegisterPlayer k n now ∧
            pl' = mkPlayer k (or_else n ("Player_" +:+ String.substring 0 5 k))
                           true None false 0 0 0 0 now).
Proof.
  assert (∀ pl, players s !! k = Some pl →
    (∃ pl0, players s !! k = Some pl0 ∧
       (pl = pl0 ∨ battle_step s pl0 pl ∨
        (∃ c now, op = OpSetPlayerCharacter k c now ∧
                  pl = set_lastActive (assign_character c pl0) now) ∨
        (∃ b now, pl = set_lastActive (set_isReady pl0 b) now))) ∨
    (∃ n now, op = OpRegisterPlayer k n now ∧
              pl = mkPlayer k (or_else n ("Player_" +:+ String.substring 0 5 k))
                            true None false 0 0 0 0 now)) as Hkeep.
  { intros pl Hpl. left. exists pl. split; [done|by left]. }
  destruct op; simpl; intros Hstep Hl; try (injection Hstep as <-).
  - simpl in Hl. apply lookup_insert_Some in Hl as [[<- <-]|[_ ?]]; [|by auto].
    right. by exists name, now.
  - destruct (unregisterPlayer_tables socketId now s) as [Hp _]. rewrite Hp in Hl.
    apply lookup_delete_Some in Hl as [_ ?]. auto.
  - apply fmap_Some in Hstep as ([s1 res] & Hc & ->).
    apply createRoom_tables in Hc as (roomId & _ & Hcase).
    destruct res; [destruct Hcase as (_ & _ & Hp & _)|destruct Hcase as [_ ->]];
      simpl in Hl; rewrite ?Hp, ?leaveAllRooms_players in Hl; auto.
  - destruct (addPlayerToRoom socketId roomId now s) as [s1 res] eqn:Hcall.
    apply addPlayerToRoom_tables in Hcall
      as [[-> _]|(room & _ & _ & _ & _ & Hp & _)]; simpl in Hl;
      rewrite ?Hp in Hl; auto.
  - rewrite removePlayerFromRoom_players in Hl. auto.
  - rewrite leaveAllRooms_players in Hl. auto.
  - destruct (setPlayerCharacter_tables socketId c now s) as [Hp _].
    rewrite Hp, updatePlayer_players in Hl. case_decide as Hk; [|by auto].
    subst. apply fmap_Some in Hl as (pl & ? & ->). left. exists pl.
    split; [done|]. right; right; left. by exists c, now.
  - destruct (setPlayerReady_tables socketId ready now s) as [Hp _].
    rewrite Hp, updatePlayer_players in Hl. case_decide as Hk; [|by auto].
    subst. apply fmap_Some in Hl as (pl & ? & ->). left. exists pl.
    split; [done|]. right; right; right. by exists ready, now.
  - destruct (startGame_tables roomId now s) as [Hp _]. rewrite Hp in Hl. auto.
  - destruct (processGameAction_battle socketId action now s k) as [Hb _].
    rewrite Hl in Hb. destruct (players s !! k) as [pl|] eqn:Hpl; [|by inversion Hb].
    assert (battle_step s pl pl') as Hbattle by (by inversion Hb).
    left. exists pl. split; [done|]. right; by left.
  - unfold cleanupInactive in Hl; simpl in Hl.
    apply map_lookup_filter_Some in Hl as [? _]. auto.
Qed.

Lemma reachable_players_ok s : reachable s → players_ok s.
Proof.
  induction 1 as [|op s s' _ IH Hstep].
  { intros k pl. unfold constructor; simpl. by rewrite lookup_empty. }
  intros k pl' Hl.
  destruct (step_players _ _ _ _ _ Hstep Hl)
    as [(pl & Hpl & Hcase)|(n & now & _ & ->)]; [|done].
  apply IH in Hpl.
  destruct Hcase as [->|[((? & _) & _)|[(c & now & _ & ->)|(b & now & ->)]]];
    simpl; congruence.
Qed.

Lemma same_identity_trans a b c : same_identity a b → same_identity b c → same_identity a c.
Proof.
  intros (? & ? & ? & ? & ? & ? & ? & ?) (? & ? & ? & ? & ? & ? & ? & ?).
  repeat split; congruence.
Qed.

Lemma dispatch_frame p t ap tp a room ps ps' room1 res k pl :
  dispatch p t ap tp a room ps = Returned (Some (ps', room1, res)) →
  ps !! k = Some pl →
  ∃ pl', ps' !! k = Some pl' ∧
    (k ≠ p → mana pl' = mana pl) ∧
    (k ≠ p → k ≠ t → health pl' = health pl) ∧
    (mana pl' = mana pl ∨ (0 ≤ mana pl')%Z) ∧
    (health pl' = health pl ∨ (0 ≤ health pl')%Z).
Proof.
  unfold dispatch, processAbilityUse, processSurrender.
  destruct a as [a|]; [|done]. intros Hd Hk.
  assert (∃ pl', ps !! k = Some pl' ∧
            (k ≠ p → mana pl' = mana pl) ∧
            (k ≠ p → k ≠ t → health pl' = health pl) ∧
            (mana pl' = mana pl ∨ (0 ≤ mana pl')%Z) ∧
            (health pl' = health pl ∨ (0 ≤ health pl')%Z)) as Hsame
    by (exists pl; split_and!; auto).
  destruct (decide (a_type a = "ability")) as [_|_].
  - destruct (abilities_missing (character ap)); [done|].
    destruct (find_ability (character ap) (abilityId a)) as [ab|];
      [|by simplify_eq].
    destruct (mana ap <? manaCost ab)%Z; [by simplify_eq|].
    injection Hd as <- _ _. rewrite !lookup_alter.
    destruct (decide (t = k)) as [->|Hnt]; destruct (decide (p = k)) as [->|Hnp];
      rewrite ?Hk; simpl; (eexists; split; [done|]); simpl;
      split_and!; try done; first [by left | right; lia].
  - destruct (decide (a_type a = "surrender")) as [_|_]; [|done].
    injection Hd as <- _ _. rewrite lookup_alter.
    destruct (decide (p = k)) as [->|Hnp];
      rewrite ?Hk; simpl; (eexists; split; [done|]); simpl;
      split_and!; try done; first [by left | right; lia].
Qed.

(** X12.  A game action keeps every player record in place and changes
    nothing of it but health and mana: id, name, connection flag,
    character, readiness, maxima and activity stamp stay.  Only the
    caller's mana can change, and only the health of the caller and of the
    host and the guest of the caller's room; a mana or health that has
    changed is not negative.  Over any run of game actions no record
    appears or disappears, the other fields stay as they were at the
    start, and the index is never touched. *)
Theorem processGameAction_players calls s k :
  playerToRoom (play calls s) = playerToRoom s ∧
  option_Forall2 same_identity (players s !! k) (players (play calls s) !! k) ∧
  ∀ p a now pl,
    players s !! k = Some pl →
    ∃ pl', players (processGameAction p a now s).1 !! k = Some pl' ∧
      (k ≠ p → mana pl' = mana pl) ∧
      (k ≠ p →
       (∀ r room, playerToRoom s !! p = Some r → rooms s !! r = Some room →
                  k ≠ hostId room ∧ guestId room ≠ Some k) →
       health pl' = health pl) ∧
      (mana pl' = mana pl ∨ (0 ≤ mana pl')%Z) ∧
      (health pl' = health pl ∨ (0 ≤ health pl')%Z).
Proof.
  split_and!.
  - revert s. induction calls as [|[[p a] now] calls IH]; intros s; simpl; [done|].
    rewrite IH. apply (processGameAction_battle p a now s k).
  - revert s. induction calls as [|[[p a] now] calls IH]; intros s; simpl.
    + destruct (players s !! k); constructor. by repeat split.
    + destruct (processGameAction_battle p a now s k) as [Hb _].
      specialize (IH (processGameAction p a now s).1).
      inversion Hb as [pl pl1 [Hid _] Hl Hl1|Hl Hl1]; rewrite <- Hl1 in IH.
      * inversion IH as [? pl2 Hid2|]; constructor. by eapply same_identity_trans.
      * inversion IH. constructor.
  - intros p a now pl Hk.
    destruct (processGameAction p a now s) as [s' out] eqn:Hcall; simpl.
    apply processGameAction_cases in Hcall as [[-> _]|[[-> _]|Hcall]];
      [exists pl; split_and!; auto..|].
    destruct Hcall as (rid & room & t & ap & tp & ps & room1 & res & Hi & _ & Hr &
                       _ & _ & _ & _ & Htarget & Hd & Hfin).
    apply finishAction_tables in Hfin as [-> _].
    destruct (dispatch_frame _ _ _ _ _ _ _ _ _ _ k pl Hd Hk)
      as (pl' & Hk' & Hmana & Hhealth & Hm0 & Hh0).
    exists pl'. split_and!; [done..| |done|done].
    intros Hnp Hroom. apply Hhealth; [done|].
    destruct (Hroom _ _ Hi Hr) as [Hnh Hng]. intros ->.
    case_decide; congruence.
Qed.

(** ** Game actions in reachable states *)




(** The two throws, on the match of scenario A: a call without an action,
    and an ability action of a player whose character came without an
    [abilities] array. *)
Lemma processGameAction_without_action :
  processGameAction "A" None 8 (after match_ops) =
    (after match_ops,
     Thrown "TypeError: Cannot read properties of undefined (reading 'type')").
Proof. by_compute. Qed.

Lemma processGameAction_without_abilities :
  processGameAction "A" (useAbility "bolt") 8 (after bare_ops) =
    (after bare_ops,
     Thrown "TypeError: Cannot read properties of undefined (reading 'find')").
Proof. by_compute. Qed.

(** X14.  A surrender by the turn owner of an in-progress room always ends
    the match there and then: the call succeeds with [gameOver], the
    opponent is the winner, the room is completed with the end time set and
    the turn counter as it was, and the surrendering player's health is
    zero. *)
Theorem surrender_forfeits p t rid room ap tp now s :
  reachable s →
  playerToRoom s !! p = Some rid → rooms s !! rid = Some room →
  status room = InProgress → currentTurn (gameData room) = Some p →
  (if decide (p = hostId room) then guestId room else Some (hostId room)) = Some t →
  players s !! p = Some ap → players s !! t = Some tp →
  ∃ s' res room' ap',
    processGameAction p doSurrender now s = (s', Returned res) ∧
    success res = true ∧ surrender res = true ∧
    gameOver res = true ∧ ar_winner res = Some t ∧
    rooms s' !! rid = Some room' ∧ status room' = Completed ∧
    winner (gameData room') = Some t ∧ endTime (gameData room') = Some now ∧
    turnCount (gameData room') = turnCount (gameData room) ∧
    players s' !! p = Some ap' ∧ health ap' = 0%Z.
Proof.
  intros Hreach Hi Hr Hst Hturn Htarget Hap Htp.
  pose proof (reachable_players_ok _ Hreach) as Hok.
  destruct (reachable_rooms_ok _ Hreach _ _ Hr) as [_ Hne].
  apply truthy_nonempty in Hne.
  unfold processGameAction. rewrite Hi, Hne; simpl. rewrite Hr.
  rewrite decide_False by (by intros []).
  rewrite decide_False by (by intros []).
  rewrite Hap, Htarget; simpl. rewrite Htp; simpl.
  unfold dispatch, processSurrender; simpl.
  unfold finishAction.
  set (ps := alter (λ q, set_health q 0) p (players s)).
  assert (ps !! p = Some (set_health ap 0)) as Hp'
    by (unfold ps; by rewrite lookup_alter_eq, Hap).
  assert (∃ t2, ps !! t = Some t2 ∧ p_id t2 = t) as (t2 & Ht' & Hidt).
  { unfold ps. destruct (decide (p = t)) as [<-|Hnt].
    - rewrite lookup_alter_eq, Hap. eexists. split; [reflexivity|]. simpl. by apply Hok.
    - rewrite lookup_alter_ne, Htp by done. eexists. split; [reflexivity|]. by apply Hok. }
  rewrite Hp', Ht'; simpl. rewrite Hidt, Ht'.
  do 4 eexists. split; [reflexivity|]. simpl. rewrite lookup_insert_eq.
  split_and!; done.
Qed.

Lemma surrender_forfeits_example :
  ∃ s' res room',
    processGameAction "A" doSurrender 8 (after match_ops) = (s', Returned res) ∧
    gameOver res = true ∧ ar_winner res = Some "B" ∧
    rooms s' !! "ABCDEF" = Some room' ∧ status room' = Completed.
Proof.
  opose proof* (surrender_forfeits "A" "B" "ABCDEF" _ _ _ 8 (after match_ops))
    as (s' & res & room' & ap' & Hcall & _ & _ & Hover & Hwin & Hr' & Hst & _);
    [ apply (reachable_after match_ops); by_compute
    | by_compute | by_compute | reflexivity | reflexivity | reflexivity
    | by_compute | by_compute | ].
  exists s', res, room'. by split_and!.
Defined.



(** ** Health and mana *)





(** ** One seat per player *)

Lemma seated_unseated s p :
  seated_once s → playerToRoom s !! p = None → unseated p s.
Proof.
  intros Hs Hi r room Hr Hin. destruct (Hs _ _ Hr) as [_ Hm].
  destruct (Hm _ Hin) as [? _]. congruence.
Qed.

Lemma removePlayerFromRoom_seated p r now s :
  seated_once s →
  (∀ r' room', rooms s !! r' = Some room' → p ∈ r_players room' → r' = r) →
  seated_once (removePlayerFromRoom p r now s).1 ∧
  unseated p (removePlayerFromRoom p r now s).1.
Proof.
  intros Hs Honly. unfold removePlayerFromRoom.
  destruct (rooms s !! r) as [room|] eqn:Hr; simpl.
  - assert (∀ r' room', r ≠ r' → rooms s !! r' = Some room' →
              NoDup (r_players room') ∧ (p ∉ r_players room') ∧
              (∀ q, q ∈ r_players room' →
                    delete p (playerToRoom s) !! q = Some r' ∧ is_Some (players s !! q)))
      as Hother.
    { intros r' room' Hne Hr'. destruct (Hs _ _ Hr') as [Hnd Hm].
      assert (p ∉ r_players room') as Hnotin
        by (intros Hin; apply Hne; symmetry; by apply (Honly _ _ Hr')).
      split_and!; [done..|]. intros q Hq. destruct (Hm _ Hq) as [? ?].
      assert (p ≠ q) by (by intros ->).
      by rewrite lookup_delete_ne. }
    destruct (depart p now room) as [room1|] eqn:Hd; simpl.
    + apply depart_players in Hd. destruct (Hs _ _ Hr) as [Hnd Hm]. split.
      * intros r' room' Hl; simpl in Hl;
          apply lookup_insert_Some in Hl as [[<- <-]|[Hne Hr']]; simpl.
        -- rewrite Hd. split; [by apply NoDup_filter|].
           intros q [Hqp Hq]%list_elem_of_filter. destruct (Hm _ Hq) as [? ?].
           by rewrite lookup_delete_ne.
        -- destruct (Hother _ _ Hne Hr') as (? & _ & ?). done.
      * intros r' room' Hl; simpl in Hl;
          apply lookup_insert_Some in Hl as [[<- <-]|[Hne Hr']].
        -- rewrite Hd. rewrite list_elem_of_filter. by intros [? _].
        -- by destruct (Hother _ _ Hne Hr') as (_ & ? & _).
    + split.
      * intros r' room' Hl; simpl in Hl;
          apply lookup_delete_Some in Hl as [Hne Hr']; simpl.
        destruct (Hother _ _ Hne Hr') as (? & _ & ?). done.
      * intros r' room' Hl; simpl in Hl;
          apply lookup_delete_Some in Hl as [Hne Hr'].
        by destruct (Hother _ _ Hne Hr') as (_ & ? & _).
  - split; [done|]. intros r' room' Hr' Hin.
    rewrite (Honly _ _ Hr' Hin) in Hr'. congruence.
Qed.

Lemma leaveAllRooms_seated p now s :
  seated_once s →
  seated_once (leaveAllRooms p now s).1 ∧ unseated p (leaveAllRooms p now s).1.
Proof.
  intros Hs. unfold leaveAllRooms.
  destruct (playerToRoom s !! p) as [r|] eqn:Hi.
  - apply removePlayerFromRoom_seated; [done|].
    intros r' room' Hr' Hin. destruct (Hs _ _ Hr') as [_ Hm].
    destruct (Hm _ Hin) as [? _]. congruence.
  - simpl. split; [done|]. by apply seated_unseated.
Qed.

Lemma leaveAllRooms_index_other p now s q :
  q ≠ p → playerToRoom (leaveAllRooms p now s).1 !! q = playerToRoom s !! q.
Proof.
  intros Hne. unfold leaveAllRooms. destruct (playerToRoom s !! p) as [r|]; [|done].
  destruct (removePlayerFromRoom p r now s) as [s1 res] eqn:Hrem; simpl.
  destruct (removePlayerFromRoom_index _ _ _ _ _ _ Hrem)
    as [(e & -> & ->)|(_ & -> & _)]; [done|].
  by rewrite lookup_delete_ne.
Qed.

Lemma seated_touch s s' :
  seated_once s →
  (∀ r room', rooms s' !! r = Some room' →
              ∃ room, rooms s !! r = Some room ∧ r_players room' = r_players room) →
  playerToRoom s' = playerToRoom s →
  (∀ q, is_Some (players s !! q) → is_Some (players s' !! q)) →
  seated_once s'.
Proof.
  intros Hs Hrooms Hidx Hkeys r room' Hr'.
  destruct (Hrooms _ _ Hr') as (room & Hr & ->).
  destruct (Hs _ _ Hr) as [Hnd Hm]. split; [done|].
  intros q Hq. destruct (Hm _ Hq) as [? ?]. rewrite Hidx. auto.
Qed.

Lemma updatePlayer_keeps p f now s q :
  is_Some (players s !! q) → is_Some (players (updatePlayer p f now s).1 !! q).
Proof.
  rewrite updatePlayer_players. case_decide; [|done].
  intros [pl ->]. by eexists.
Qed.

Lemma step_seated op s s' :
  seated_once s → guarded op s → step op s = Some s' → seated_once s'.
Proof.
  intros Hs Hg Hstep.
  destruct op; simpl in Hstep, Hg; try (injection Hstep as <-).
  - (* registerPlayer *)
    apply (seated_touch s); [done|by eauto|done|].
    intros q Hq. simpl. destruct (decide (socketId = q)) as [->|?];
      [rewrite lookup_insert_eq; by eexists | by rewrite lookup_insert_ne].
  - (* unregisterPlayer *)
    destruct (unregisterPlayer_tables socketId now s) as [Hp Hi].
    set (s1 := match playerToRoom s !! socketId with
               | Some r => (removePlayerFromRoom socketId r now s).1
               | None => s
               end).
    assert (rooms (unregisterPlayer socketId now s) = rooms s1) as Hrooms by done.
    assert (seated_once s1 ∧ unseated socketId s1 ∧ players s1 = players s ∧
            ∀ q r, playerToRoom s1 !! q = Some r → playerToRoom s !! q = Some r)
      as (Hs1 & Hun & Hp1 & Hi1).
    { unfold s1. destruct (playerToRoom s !! socketId) as [r|] eqn:Hidx.
      - destruct (removePlayerFromRoom_seated socketId r now s Hs) as [Hs1 Hun].
        { intros r' room' Hr' Hin. destruct (Hs _ _ Hr') as [_ Hm].
          destruct (Hm _ Hin) as [? _]. congruence. }
        split_and!; [done|done|apply removePlayerFromRoom_players|].
        destruct (removePlayerFromRoom socketId r now s) as [s2 res] eqn:Hrem.
        simpl. intros q r0.
        destruct (removePlayerFromRoom_index _ _ _ _ _ _ Hrem)
          as [(e & -> & ->)|(_ & -> & _)]; [done|].
        by intros [_ ?]%lookup_delete_Some.
      - split_and!; [done|by apply seated_unseated|done|done]. }
    intros r room' Hr'. rewrite Hrooms in Hr'.
    destruct (Hs1 _ _ Hr') as [Hnd Hm]. split; [done|].
    intros q Hq. destruct (Hm _ Hq) as [Hiq Hpq].
    assert (socketId ≠ q) by (intros ->; by apply (Hun _ _ Hr')).
    rewrite Hp, Hi, !lookup_delete_ne by done.
    rewrite Hp1 in Hpq. auto.
  - (* createRoom *)
    apply fmap_Some in Hstep as ([s1 res] & Hc & ->). simpl.
    destruct (leaveAllRooms_seated hostId_ now s Hs) as [Hs1 Hun].
    apply createRoom_tables in Hc as (roomId & _ & Hcase).
    destruct res as [room|]; [|by destruct Hcase as [_ ->]].
    destruct Hcase as ((host & Hhost & ->) & Hrooms & Hplayers & Hidx).
    intros r room' Hr'. rewrite Hrooms in Hr'. rewrite Hidx, Hplayers.
    apply lookup_insert_Some in Hr' as [[<- <-]|[Hne Hr']]; simpl.
    + split; [apply NoDup_singleton|].
      intros q ->%list_elem_of_singleton. rewrite lookup_insert_eq. by eauto.
    + destruct (Hs1 _ _ Hr') as [Hnd Hm]. split; [done|].
      intros q Hq. destruct (Hm _ Hq) as [Hiq Hpq].
      rewrite leaveAllRooms_players in Hpq.
      assert (q ≠ hostId_) by (intros ->; by apply (Hun _ _ Hr')).
      by rewrite lookup_insert_ne.
  - (* addPlayerToRoom *)
    destruct (addPlayerToRoom socketId roomId now s) as [s1 res] eqn:Hcall; simpl.
    destruct (leaveAllRooms_seated socketId now s Hs) as [Hs1 Hun].
    apply addPlayerToRoom_tables in Hcall
      as [[-> _]|(room & _ & Hreg & _ & _ & Hplayers & Hidx & Hrooms & _)]; [done|].
    assert (∀ r room', rooms (leaveAllRooms socketId now s).1 !! r = Some room' →
              NoDup (r_players room') ∧ (socketId ∉ r_players room') ∧
              (∀ q, q ∈ r_players room' →
                    r ≠ roomId →
                    playerToRoom s1 !! q = Some r ∧ is_Some (players s1 !! q))) as Hold.
    { intros r room' Hr'. destruct (Hs1 _ _ Hr') as [Hnd Hm].
      split_and!; [done|by apply (Hun _ _ Hr')|].
      intros q Hq Hne. destruct (Hm _ Hq) as [Hiq Hpq].
      rewrite leaveAllRooms_players in Hpq.
      assert (q ≠ socketId) by (intros ->; by apply (Hun _ _ Hr')).
      rewrite Hidx, Hplayers. by rewrite lookup_insert_ne. }
    intros r room' Hr'. rewrite Hrooms in Hr'.
    destruct (rooms (leaveAllRooms socketId now s).1 !! roomId) as [room1|] eqn:Hr1.
    + apply lookup_insert_Some in Hr' as [[<- <-]|[Hne Hr']].
      * destruct (Hs1 _ _ Hr1) as [Hnd Hm].
        assert (r_players (seat socketId now room1) = (r_players room1 ++ [socketId])%list)
          as -> by (unfold seat; by case_decide).
        split.
        -- apply NoDup_app. split_and!; [done| |apply NoDup_singleton].
           intros q Hq ->%list_elem_of_singleton. by apply (Hun _ _ Hr1).
        -- intros q [Hq| ->%list_elem_of_singleton]%elem_of_app.
           ++ destruct (Hm _ Hq) as [Hiq Hpq]. rewrite leaveAllRooms_players in Hpq.
              assert (q ≠ socketId) by (intros ->; by apply (Hun _ _ Hr1)).
              rewrite Hidx, Hplayers. by rewrite lookup_insert_ne.
           ++ rewrite Hidx, Hplayers. by rewrite lookup_insert_eq.
      * destruct (Hold _ _ Hr') as (? & _ & Hm). split; [done|].
        intros q Hq. by apply Hm.
    + destruct (Hold _ _ Hr') as (? & _ & Hm). split; [done|].
      intros q Hq. apply Hm; [done|]. intros ->. congruence.
  - (* removePlayerFromRoom, guarded *)
    apply removePlayerFromRoom_seated; [done|].
    intros r' room' Hr' Hin. destruct (Hs _ _ Hr') as [_ Hm].
    destruct (Hm _ Hin) as [? _]. congruence.
  - (* leaveAllRooms *)
    by apply leaveAllRooms_seated.
  - (* setPlayerCharacter *)
    destruct (setPlayerCharacter_tables socketId c now s) as [Hp Hi].
    apply (seated_touch s); [done| |done|].
    + intros r room' (room & ? & (? & _) & _)%setPlayerCharacter_moves. eauto.
    + intros q Hq. rewrite Hp. by apply updatePlayer_keeps.
  - (* setPlayerReady *)
    destruct (setPlayerReady_tables socketId ready now s) as [Hp Hi].
    apply (seated_touch s); [done| |done|].
    + intros r room' (room & ? & (? & _) & _)%setPlayerReady_moves. eauto.
    + intros q Hq. rewrite Hp. by apply updatePlayer_keeps.
  - (* startGame *)
    destruct (startGame_tables roomId now s) as [Hp Hi].
    apply (seated_touch s); [done| |done|].
    + intros r room' (room & ? & (? & _) & _)%startGame_moves. eauto.
    + intros q Hq. by rewrite Hp.
  - (* processGameAction *)
    apply (seated_touch s); [done| | |].
    + intros r room' (room & ? & (? & _) & _)%processGameAction_room. eauto.
    + apply (processGameAction_battle socketId action now s socketId).
    + intros q [pl Hq].
      destruct (processGameAction_battle socketId action now s q) as [Hb _].
      rewrite Hq in Hb. inversion Hb. by eexists.
  - (* cleanupInactive *)
    intros r room' [Hr' Hkeep]%cleanupInactive_room.
    destruct (Hs _ _ Hr') as [Hnd Hm]. split; [done|].
    intros q Hq. destruct (Hm _ Hq) as [Hiq [pl Hpq]].
    assert (playerToRoom (cleanupInactive roomTimeout playerTimeout now s) !! q = Some r)
      as Hiq'.
    { rewrite <- Hiq. apply cleanupInactive_index.
      intros (r0 & room0 & Hr0 & Hexp & Hin).
      destruct (Hs _ _ Hr0) as [_ Hm0]. destruct (Hm0 _ Hin) as [? _].
      assert (r0 = r) as -> by congruence.
      assert (room0 = room') as -> by congruence. done. }
    split; [done|]. rewrite cleanupInactive_players, Hpq.
    rewrite decide_False; [by eexists|]. intros [_ ?]. congruence.
Qed.

Lemma reachable_guarded_reachable s : reachable_guarded s → reachable s.
Proof. induction 1; [constructor|by eapply reachable_step]. Qed.

Lemma reachable_guarded_seated s : reachable_guarded s → seated_once s.
Proof.
  induction 1 as [|op s s' _ IH Hg Hstep]; [|by eapply step_seated].
  intros r room. unfold constructor; simpl. by rewrite lookup_empty.
Qed.

(** X17.  If [removePlayerFromRoom] is only ever called for the room the
    index names for the player, then after any sequence of operations every
    name on a roster is registered and indexed to that room, no roster
    lists a name twice, nobody is seated in two rooms, and a room's guest
    is never its host. *)
Theorem one_seat_per_player s :
  reachable_guarded s →
  (∀ r room p, rooms s !! r = Some room → p ∈ r_players room →
               playerToRoom s !! p = Some r ∧ is_Some (players s !! p)) ∧
  (∀ r room, rooms s !! r = Some room → NoDup (r_players room)) ∧
  (∀ r1 r2 room1 room2 p,
     rooms s !! r1 = Some room1 → rooms s !! r2 = Some room2 →
     p ∈ r_players room1 → p ∈ r_players room2 → r1 = r2) ∧
  (∀ r room g, rooms s !! r = Some room → guestId room = Some g → g ≠ hostId room).
Proof.
  intros Hg. pose proof (reachable_guarded_seated _ Hg) as Hs.
  pose proof (reachable_rooms_ok _ (reachable_guarded_reachable _ Hg)) as Hok.
  split_and!.
  - intros r room p Hr Hin. destruct (Hs _ _ Hr) as [_ Hm]. by apply Hm.
  - intros r room Hr. by destruct (Hs _ _ Hr).
  - intros r1 r2 room1 room2 p Hr1 Hr2 H1 H2.
    destruct (Hs _ _ Hr1) as [_ Hm1], (Hs _ _ Hr2) as [_ Hm2].
    destruct (Hm1 _ H1) as [? _], (Hm2 _ H2) as [? _]. congruence.
  - intros r room g Hr Hguest. destruct (Hs _ _ Hr) as [Hnd _].
    destruct (Hok _ _ Hr) as [[_ Hshape] _].
    destruct (r_players room) as [|a [|b [|c ps]]]; try done;
      destruct Hshape as [-> Hg']; [congruence|].
    assert (g = b) as -> by congruence.
    apply NoDup_cons in Hnd as [Hnotin _]. intros ->. apply Hnotin. by left.
Qed.

Lemma run_guarded ops s s' :
  reachable_guarded s → Forall (λ op, ∀ st, guarded op st) ops →
  run ops s = Some s' → reachable_guarded s'.
Proof.
  intros Hg Hall. revert s Hg.
  induction Hall as [|op ops Hop _ IH]; simpl; intros s Hg Hrun; [by simplify_eq|].
  destruct (step op s) as [s1|] eqn:Hstep; [|done].
  eapply IH; [|done]. by eapply guarded_step.
Qed.

Lemma after_match_guarded : reachable_guarded (after match_ops).
Proof.
  apply (run_guarded match_ops constructor); [apply guarded_init| |by_compute].
  unfold match_ops, ready_ops, lobby_ops. simpl.
  repeat (apply Forall_cons; split; [intros st; exact I|]). constructor.
Qed.

(** C4.  After every sequence of manager calls in which
    [removePlayerFromRoom] is called for the room the index names for the
    player, as all its callers do ([handleLeaveRoom] behind its guard,
    [handleUserDisconnection], [unregisterPlayer], [leaveAllRooms]), every
    registered room has one or two seats and none is empty, the host sits
    in the first seat, the guest field is set exactly when there are two
    seats, and it then names the occupant of the second seat, who is not
    the host. *)
Theorem C4_rosters_well_formed s r room :
  reachable_guarded s → rooms s !! r = Some room →
  (1 ≤ length (r_players room) ≤ 2)%nat ∧
  head (r_players room) = Some (hostId room) ∧
  (is_Some (guestId room) ↔ length (r_players room) = 2%nat) ∧
  ∀ g, guestId room = Some g →
       r_players room = [hostId room; g] ∧ g ≠ hostId room.
Proof.
  intros Hg Hr.
  destruct (rosters_well_formed s r room (reachable_guarded_reachable _ Hg) Hr)
    as (Hlen & Hhead & Hguest & Hsecond).
  split_and!; [lia|lia|done|done|].
  intros g Hgu. destruct (reachable_guarded_seated _ Hg _ _ Hr) as [Hnd _].
  rewrite Hgu in Hsecond.
  destruct (r_players room) as [|a [|b [|c ps]]]; simplify_eq/=; try lia.
  split; [done|]. apply NoDup_cons in Hnd as [Hnotin _].
  intros ->. apply Hnotin. by left.
Qed.

Lemma C4_match_room :
  ∃ room, rooms (after match_ops) !! "ABCDEF" = Some room ∧
          r_players room = ["A"; "B"] ∧ hostId room = "A" ∧ guestId room = Some "B".
Proof.
  assert (∃ room, rooms (after match_ops) !! "ABCDEF" = Some room ∧
                  guestId room = Some "B" ∧ hostId room = "A")
    as (room & Hr & Hgu & Hh) by (eexists; split_and!; by_compute).
  destruct (C4_rosters_well_formed _ _ _ after_match_guarded Hr) as (_ & _ & _ & Hseats).
  destruct (Hseats "B" Hgu) as [Hps _].
  exists room. split_and!; [done| |done..]. by rewrite Hps, Hh.
Defined.

Lemma one_seat_per_player_example :
  ∃ room, rooms (after match_ops) !! "ABCDEF" = Some room ∧
          NoDup (r_players room) ∧ guestId room ≠ Some (hostId room).
Proof.
  assert (reachable_guarded (after match_ops)) as Hg.
  { apply (run_guarded match_ops constructor); [apply guarded_init| |by_compute].
    unfold match_ops, ready_ops, lobby_ops. simpl.
    repeat (apply Forall_cons; split; [intros st; exact I|]). constructor. }
  destruct (one_seat_per_player _ Hg) as (_ & Hnd & _ & Hguest).
  assert (∃ room, rooms (after match_ops) !! "ABCDEF" = Some room) as [room Hr]
    by (eexists; by_compute).
  exists room. split_and!; [done|by eapply Hnd|].
  intros Heq. by eapply Hguest.
Defined.


(** ** What the socket handlers can reach *)

Lemma handle_guarded ev s s' :
  reachable_guarded s → handle ev s = Some s' → reachable_guarded s'.
Proof.
  intros Hg. destruct ev; simpl; intros Hstep; try (injection Hstep as <-).
  - by eapply (guarded_step (OpRegisterPlayer socketId _ now)).
  - unfold handleUserDisconnection.
    destruct (playerToRoom s !! socketId) as [r|] eqn:Hi;
      [|by eapply (guarded_step (OpUnregisterPlayer socketId now))].
    destruct (rooms s !! r) as [room|];
      [|by eapply (guarded_step (OpUnregisterPlayer socketId now))].
    eapply (guarded_step (OpUnregisterPlayer socketId now)); [|done|done].
    by eapply (guarded_step (OpRemovePlayerFromRoom socketId r now) s).
  - by eapply (guarded_step (OpCreateRoom socketId _ rand now)).
  - by eapply (guarded_step (OpAddPlayerToRoom socketId roomId now)).
  - unfold handleLeaveRoom. case_decide as Hi; [done|].
    destruct roomId as [r|]; [|done].
    destruct (removePlayerFromRoom socketId r now s) as [s1 res] eqn:Hrem.
    eapply (guarded_step (OpRemovePlayerFromRoom socketId r now) s); [done| |].
    + simpl. by destruct (decide (playerToRoom s !! socketId = Some r)).
    + simpl. by rewrite Hrem.
  - unfold handleCharacterSelect. destruct (in_a_room socketId s); [|done].
    by eapply (guarded_step (OpSetPlayerCharacter socketId c now)).
  - unfold handlePlayerReady. destruct (in_a_room socketId s); [|done].
    destruct (getPlayer socketId s) as [pl|]; [|done].
    destruct (character pl); [|done].
    by eapply (guarded_step (OpSetPlayerReady socketId ready now)).
  - by eapply (guarded_step (OpStartGame roomId now)).
  - unfold handleGameAction. destruct action as [act|]; [|done].
    destruct (in_a_room socketId s); [|done].
    by eapply (guarded_step (OpProcessGameAction socketId (Some act) now)).
Qed.

Lemma served_guarded s : served s → reachable_guarded s.
Proof. induction 1; [constructor|by eapply handle_guarded]. Qed.

Lemma every_isReady_returns ps roster :
  (∀ q, q ∈ roster → is_Some (ps !! q)) → ∃ b, every_isReady ps roster = Returned b.
Proof.
  induction roster as [|q roster IH]; simpl; intros Hall; [by eauto|].
  destruct (Hall q) as [pl ->]; [by left|].
  destruct (isReady pl); [|by eauto].
  apply IH. intros q' Hq'. apply Hall. by right.
Qed.

(** X18.  Every state the socket handlers can produce is reached by
    guarded manager calls, and in such a state [setPlayerReady] and
    [startGame] always return a result object: their reads of [.isReady]
    and [.name] on looked-up players never meet [undefined]. *)
Theorem served_calls_return s :
  served s →
  reachable_guarded s ∧
  (∀ p b now, ∃ res, (setPlayerReady p b now s).2 = Returned res) ∧
  (∀ r now, ∃ res, (startGame r now s).2 = Returned res).
Proof.
  intros Hserved. pose proof (served_guarded _ Hserved) as Hg.
  pose proof (reachable_guarded_seated _ Hg) as Hs.
  pose proof (reachable_guarded_reachable _ Hg) as Hreach.
  split_and!; [done| |].
  - intros p b now. unfold setPlayerReady.
    pose proof (updatePlayer_rooms p (λ q, set_isReady q b) now s) as Hrooms.
    pose proof (λ q, updatePlayer_keeps p (λ q, set_isReady q b) now s q) as Hkeys.
    destruct (updatePlayer p (λ q, set_isReady q b) now s) as [s1 [pl|]];
      simpl in *; [|by eauto].
    destruct (playerToRoom s1 !! p) as [rid|]; [|by eauto].
    destruct (truthy rid); simpl; [|by eauto].
    rewrite Hrooms. destruct (rooms s !! rid) as [room|] eqn:Hr; [|by eauto].
    case_decide; simpl; [|by eauto].
    destruct (every_isReady_returns (players s1) (r_players room)) as [ok ->];
      [|simpl; by eauto].
    intros q Hq. apply Hkeys. destruct (Hs _ _ Hr) as [_ Hm]. by apply Hm.
  - intros r now. unfold startGame.
    destruct (rooms s !! r) as [room|] eqn:Hr; [|by eauto].
    case_decide; [by eauto|]. case_decide; [by eauto|]. simpl.
    destruct (Hs _ _ Hr) as [_ Hm].
    destruct (reachable_rooms_ok _ Hreach _ _ Hr) as [[_ Hshape] _].
    assert (hostId room ∈ r_players room) as Hin.
    { destruct (r_players room) as [|a [|b [|c ps]]]; try done;
        destruct Hshape as [-> _]; by left. }
    destruct (Hm _ Hin) as [_ [host ->]]. simpl. by eauto.
Qed.

Lemma serve_served evs s s' : served s → serve evs s = Some s' → served s'.
Proof.
  revert s. induction evs as [|ev evs IH]; simpl; intros s Hs Hrun; [by simplify_eq|].
  destruct (handle ev s) as [s1|] eqn:Hev; [|done].
  eapply IH; [|done]. by eapply served_event.
Qed.

Lemma served_calls_return_example :
  ∃ s res, serve match_events constructor = Some s ∧
           (startGame "ABCDEF" 7 s).2 = Returned res.
Proof.
  assert (∃ s, serve match_events constructor = Some s) as [s Hs]
    by (eexists; by_compute).
  destruct (served_calls_return s) as (_ & _ & Hstart);
    [exact (serve_served _ _ _ served_init Hs)|].
  destruct (Hstart "ABCDEF" 7%Z) as [res Hres].
  exists s, res. split; [exact Hs|exact Hres].
Defined.

(** ** A completed room on a running server *)

Lemma handle_closed_at r ev s s' :
  closed_at r s → handle ev s = Some s' → closed_at r s' ∨ rooms s !! r = None.
Proof.
  intros Hc.
  assert (∀ op s0 s1, closed_at r s0 → step op s0 = Some s1 →
            (∀ h rd rand now, op ≠ OpCreateRoom h rd rand now) → closed_at r s1)
    as Hplain.
  { intros op s0 s1 Hc0 Hstep Hop.
    destruct (step_closed_at _ _ _ _ Hc0 Hstep) as [?|(h & rd & rand & now & ? & _)];
      [done|]. by destruct (Hop h rd rand now). }
  destruct ev; simpl; intros Hstep; try (injection Hstep as <-).
  - left. by apply (Hplain (OpRegisterPlayer socketId
                              (Some ("Player_" +:+ String.substring 0 5 socketId)) now) s).
  - left. unfold handleUserDisconnection.
    destruct (playerToRoom s !! socketId) as [r0|];
      [|by apply (Hplain (OpUnregisterPlayer socketId now) s)].
    destruct (rooms s !! r0);
      [|by apply (Hplain (OpUnregisterPlayer socketId now) s)].
    apply (Hplain (OpUnregisterPlayer socketId now)
                  (removePlayerFromRoom socketId r0 now s).1); [|done..].
    by apply (Hplain (OpRemovePlayerFromRoom socketId r0 now) s).
  - destruct (step_closed_at r (OpCreateRoom socketId (mkRoomData name isPrivate_ None)
                                  rand now) s s' Hc Hstep)
      as [?|(h & rd & rand' & now' & [= <- <- <- <-] & Hres)]; [by left|right].
    unfold resolveRoomId in Hres; simpl in Hres.
    by apply generateRoomCode_fresh in Hres as [? _].
  - left. by apply (Hplain (OpAddPlayerToRoom socketId roomId now) s).
  - left. unfold handleLeaveRoom. case_decide; [done|].
    destruct roomId as [r0|]; [|done].
    destruct (removePlayerFromRoom socketId r0 now s) as [s1 res] eqn:Hrem.
    apply (Hplain (OpRemovePlayerFromRoom socketId r0 now) s); [done| |done].
    simpl. by rewrite Hrem.
  - left. unfold handleCharacterSelect. destruct (in_a_room socketId s); [|done].
    by apply (Hplain (OpSetPlayerCharacter socketId c now) s).
  - left. unfold handlePlayerReady. destruct (in_a_room socketId s); [|done].
    destruct (getPlayer socketId s) as [pl|]; [|done].
    destruct (character pl); [|done].
    by apply (Hplain (OpSetPlayerReady socketId ready now) s).
  - left. by apply (Hplain (OpStartGame roomId now) s).
  - left. unfold handleGameAction. destruct action as [act|]; [|done].
    destruct (in_a_room socketId s); [|done].
    by apply (Hplain (OpProcessGameAction socketId (Some act) now) s).
Qed.

Lemma serve_closed_at r evs s s' :
  is_Some (rooms s !! r) → closed_at r s → serve evs s = Some s' →
  closed_at r s' ∨ vacated_during r evs s.
Proof.
  revert s. induction evs as [|ev evs IH]; simpl; intros s Hreg Hc Hrun.
  - left. by simplify_eq.
  - destruct (handle ev s) as [s1|] eqn:Hev; [|done].
    destruct (handle_closed_at _ _ _ _ Hc Hev) as [Hc1|Hnone];
      [|destruct Hreg; congruence].
    destruct (rooms s1 !! r) as [room1|] eqn:Hr1; [|by right; left].
    destruct (IH s1) as [?|?]; [by eexists|done|done|by left|by right; right].
Qed.

(** C7.  On a server driven by socket events, once the room under code [r]
    is completed: every [processGameAction] by a player on its roster fails
    with 'Game is not in progress' and changes nothing, and so
    [handleGameAction] leaves the manager as it is; every event leaves
    under [r] a completed room or no room; and along every sequence of
    events the room under [r] is completed for as long as it is registered:
    at the end it is completed or gone, unless the code was free at some
    point in between (a room found under it afterwards is another room,
    created under a code that was drawn again). *)
Theorem C7_completed_stays_completed s r room :
  served s → rooms s !! r = Some room → status room = Completed →
  (∀ p a now, p ∈ r_players room →
     processGameAction p a now s = (s, Returned (failed "Game is not in progress")) ∧
     handleGameAction p a now s = s) ∧
  (∀ ev s', handle ev s = Some s' → closed_at r s') ∧
  (∀ evs s', serve evs s = Some s' → closed_at r s' ∨ vacated_during r evs s).
Proof.
  intros Hserved Hr Hst.
  pose proof (served_guarded _ Hserved) as Hg.
  assert (closed_at r s) as Hc by (unfold closed_at; by rewrite Hr).
  split_and!.
  - intros p a now Hin.
    destruct (reachable_guarded_seated _ Hg _ _ Hr) as [_ Hm].
    destruct (Hm _ Hin) as [Hi _].
    destruct (completed_under_operations s r room
                (reachable_guarded_reachable _ Hg) Hr Hst) as (Hact & _).
    split; [by apply Hact|].
    unfold handleGameAction. rewrite (Hact p a now Hi).
    destruct a; [|done]. by destruct (in_a_room p s).
  - intros ev s' Hev.
    destruct (handle_closed_at _ _ _ _ Hc Hev) as [?|?]; [done|congruence].
  - intros evs s' Hrun. apply serve_closed_at; [by eexists|done..].
Qed.

Lemma C7_after_surrender :
  ∃ s, serve finished_events constructor = Some s ∧
       processGameAction "B" (useAbility "bolt") 9 s =
         (s, Returned (failed "Game is not in progress")) ∧
       closed_at "ABCDEF" (handleLeaveRoom "B" (Some "ABCDEF") 9 s).1.
Proof.
  assert (∃ s room, serve finished_events constructor = Some s ∧
                    rooms s !! "ABCDEF" = Some room ∧ status room = Completed ∧
                    r_players room = ["A"; "B"])
    as (s & room & Hs & Hr & Hst & Hps)
    by (do 2 eexists; split_and!; by_compute).
  destruct (C7_completed_stays_completed s "ABCDEF" room
              (serve_served _ _ _ served_init Hs) Hr Hst) as (Hact & Hev & _).
  exists s. split_and!; [exact Hs| |].
  - apply Hact. rewrite Hps. apply list_elem_of_further, list_elem_of_here.
  - exact (Hev (EvLeaveRoom "B" (Some "ABCDEF") 9) _ eq_refl).
Defined.

(** ** The sweep, twice *)

(** X19.  A sweep is idempotent: running it again with the same timeouts
    at the same instant removes nothing more. *)
Theorem cleanupInactive_idempotent rt pt now s :
  cleanupInactive rt pt now (cleanupInactive rt pt now s) = cleanupInactive rt pt now s.
Proof.
  set (s1 := cleanupInactive rt pt now s).
  assert (playerToRoom (cleanupInactive rt pt now s1) = playerToRoom s1) as Hidx.
  { apply map_eq. intros p. apply cleanupInactive_index.
    intros (r & room & Hr & Hexp & _).
    by apply cleanupInactive_room in Hr as [_ ?]. }
  apply GSM_eq; [| |done].
  - apply map_eq. intros r. rewrite cleanupInactive_rooms.
    unfold s1 at 1. rewrite cleanupInactive_rooms.
    destruct (rooms s !! r) as [room|] eqn:Hr.
    + unfold s1. rewrite cleanupInactive_rooms, Hr.
      case_decide; [done|]. by rewrite decide_False.
    + unfold s1. by rewrite cleanupInactive_rooms, Hr.
  - apply map_eq. intros p. rewrite cleanupInactive_players, Hidx.
    destruct (players s1 !! p) as [pl|] eqn:Hp; [|done].
    case_decide as Hold; [|done]. exfalso.
    unfold s1 in Hp. rewrite cleanupInactive_players in Hp.
    destruct (players s !! p) as [pl0|]; [|done].
    case_decide as Hkeep; [done|]. injection Hp as ->. by apply Hkeep.
Qed.


(** ** Joining *)

Lemma depart_None p now room :
  depart p now room = None →
  p = hostId room ∧ filter (λ id, id ≠ p) (r_players room) = [].
Proof.
  destruct room as [i n h g st pr mp ps sp gd ca la].
  unfold depart; simpl. intros Hd. case_all; done.
Qed.

Lemma leaveAllRooms_closed p now s r room :
  rooms s !! r = Some room → rooms (leaveAllRooms p now s).1 !! r = None →
  playerToRoom s !! p = Some r ∧ depart p now room = None.
Proof.
  intros Hr. unfold leaveAllRooms.
  destruct (playerToRoom s !! p) as [r0|]; [|simpl; congruence].
  unfold removePlayerFromRoom.
  destruct (rooms s !! r0) as [room0|] eqn:Hr0; [|simpl; congruence].
  destruct (depart p now room0) as [room1|] eqn:Hd; simpl.
  - rewrite lookup_insert_None. intros [? ?]. congruence.
  - rewrite lookup_delete_None. intros [->|?]; [|congruence].
    split; [done|]. congruence.
Qed.

(** X20.  A successful join in a reachable state writes the player's
    index entry and ends in one of two ways.  Either the room stays
    registered, now with the host in the first seat and the joiner in the
    second as guest, still waiting; or the joiner was the room's only
    occupant with the index naming it, in which case the room has been
    closed by the implied leave and the room object returned, seating the
    joiner alone, is not in the rooms table. *)
Theorem join_outcome p r now s s' room' :
  reachable s → addPlayerToRoom p r now s = (s', RoomOk room') →
  playerToRoom s' !! p = Some r ∧
  ((rooms s' !! r = Some room' ∧ r_players room' = [hostId room'; p] ∧
    guestId room' = Some p ∧ status room' = Waiting) ∨
   (rooms s' !! r = None ∧ r_players room' = [p] ∧
    playerToRoom s !! p = Some r ∧
    ∃ old, rooms s !! r = Some old ∧ r_players old = [p])).
Proof.
  intros Hreach Hcall.
  assert (reachable (leaveAllRooms p now s).1) as Hreach1.
  { eapply (reachable_step (OpLeaveAllRooms p now)); [exact Hreach|reflexivity]. }
  apply addPlayerToRoom_tables in Hcall
    as [[_ ?]|(room & Hr & _ & Hlen & Hst & _ & Hidx & Hrooms & Hres)]; [done|].
  injection Hres as ->.
  split; [rewrite Hidx; apply lookup_insert_eq|].
  destruct (reachable_rooms_ok _ Hreach _ _ Hr) as [[Hmax Hshape] _].
  rewrite Hmax in Hlen. rewrite Hrooms.
  destruct (rooms (leaveAllRooms p now s).1 !! r) as [room1|] eqn:Hr1; simpl.
  - left. rewrite lookup_insert_eq. split; [done|].
    destruct (reachable_rooms_ok _ Hreach1 _ _ Hr1) as [[_ Hshape1] _].
    apply leaveAllRooms_moves in Hr1 as (room0 & Hr0 & _ & Hlen1 & Hkeep).
    assert (room0 = room) as -> by congruence.
    assert (status room1 = Waiting) as Hst1 by (rewrite Hkeep; [done|by rewrite Hst]).
    unfold seat.
    destruct (r_players room1) as [|a [|b ps]] eqn:Hps; simpl in *; try done; [|lia].
    destruct Hshape1 as [Hh _]. by rewrite Hh.
  - right. destruct (leaveAllRooms_closed _ _ _ _ _ Hr Hr1) as [Hi Hd].
    apply depart_None in Hd as [-> Hempty].
    split; [done|]. rewrite Hempty. split; [done|]. split; [done|].
    exists room. split; [done|].
    destruct (r_players room) as [|a [|b ps]]; simpl in *; try done; [|lia].
    destruct Hshape as [<- _]. done.
Qed.

Lemma join_outcome_example :
  ∃ s' room',
    addPlayerToRoom "A" "ABCDEF" 2 (after lobby_ops) = (s', RoomOk room') ∧
    playerToRoom s' !! "A" = Some "ABCDEF" ∧ rooms s' !! "ABCDEF" = None ∧
    r_players room' = ["A"].
Proof.
  assert (∃ s' room', addPlayerToRoom "A" "ABCDEF" 2 (after lobby_ops) =
                        (s', RoomOk room')) as (s' & room' & Hcall)
    by (do 2 eexists; by_compute).
  opose proof* (join_outcome "A" "ABCDEF" 2 (after lobby_ops) s' room')
    as (Hidx & [(Hr & _)|(Hr & Hps & _)]);
    [apply (reachable_after lobby_ops); by_compute | exact Hcall | |].
  - exfalso. apply (f_equal fst) in Hcall. simpl in Hcall. rewrite <- Hcall in Hr.
    vm_compute in Hr. discriminate.
  - exists s', room'. by split_and!.
Defined.

(** ** Readiness *)

Lemma every_isReady_true ps roster :
  every_isReady ps roster = Returned true ↔
  ∀ q, q ∈ roster → ∃ pl, ps !! q = Some pl ∧ isReady pl = true.
Proof.
  induction roster as [|q roster IH]; simpl.
  - split; [|done]. by intros _ q ?%elem_of_nil.
  - destruct (ps !! q) as [pl|] eqn:Hq.
    + destruct (isReady pl) eqn:Hready.
      * rewrite IH. split.
        -- intros Hall q' [->|?]%elem_of_cons; eauto.
        -- intros Hall q' Hq'. apply Hall. by right.
      * split; [done|]. intros Hall. destruct (Hall q) as (pl' & ? & ?); [by left|].
        congruence.
    + split; [done|]. intros Hall. destruct (Hall q) as (pl' & ? & ?); [by left|].
      congruence.
Qed.

(** X21.  When [setPlayerReady] succeeds, the returned player is the
    caller's stored record carrying the requested flag, the returned room
    is the stored room the index names, and [allReady] is true exactly when
    that room seats two players whose stored records are all ready; a room
    reported all-ready is no longer waiting. *)
Theorem allReady_means_everyone_ready p b now s s' pl room ar :
  setPlayerReady p b now s = (s', Returned (ReadyOk pl room ar)) →
  players s' !! p = Some pl ∧ isReady pl = b ∧
  (∃ r, playerToRoom s !! p = Some r ∧ rooms s' !! r = Some room) ∧
  (ar = true ↔
   length (r_players room) = 2%nat ∧
   ∀ q, q ∈ r_players room → ∃ plq, players s' !! q = Some plq ∧ isReady plq = true) ∧
  (ar = true → status room ≠ Waiting).
Proof.
  unfold setPlayerReady, updatePlayer.
  destruct (players s !! p) as [pl0|] eqn:Hp; simpl; [|done].
  destruct (playerToRoom s !! p) as [r|] eqn:Hi; [|done].
  destruct (truthy r); simpl; [|done].
  destruct (rooms s !! r) as [room0|] eqn:Hr; [|done].
  destruct (if decide (length (r_players room0) = 2%nat)
            then every_isReady (<[p:=set_lastActive (set_isReady pl0 b) now]> (players s))
                               (r_players room0)
            else Returned false) as [ok|e] eqn:Hall; [|done].
  intros [= <- <- <- <-]. simpl. rewrite !lookup_insert_eq.
  set (room1 := if ok && bool_decide (status room0 = Waiting)
                then set_status room0 Ready else room0).
  assert (r_players room1 = r_players room0) as Hps
    by (unfold room1; by destruct (ok && bool_decide (status room0 = Waiting))).
  rewrite Hps.
  split_and!; [done|done|exists r; by rewrite lookup_insert_eq| |].
  - case_decide as Hlen.
    + rewrite <- every_isReady_true, Hall.
      split; [intros ->; by split|intros [_ [= ->]]; done].
    + injection Hall as <-. split; [done|]. by intros [? _].
  - intros ->. unfold room1. simpl.
    destruct (bool_decide (status room0 = Waiting)) eqn:Hb; simpl; [done|].
    by apply bool_decide_eq_false in Hb.
Qed.

Lemma allReady_means_everyone_ready_example :
  ∃ s' pl room,
    setPlayerReady "B" true 6
      (after (lobby_ops ++ [OpAddPlayerToRoom "B" "ABCDEF" 2;
                            OpSetPlayerCharacter "A" mage 3;
                            OpSetPlayerCharacter "B" mage 4;
                            OpSetPlayerReady "A" true 5])%list)
      = (s', Returned (ReadyOk pl room true)) ∧
    status room ≠ Waiting ∧ length (r_players room) = 2%nat.
Proof.
  set (s := after _).
  assert (∃ s' pl room, setPlayerReady "B" true 6 s =
                          (s', Returned (ReadyOk pl room true)))
    as (s' & pl & room & Hcall) by (do 3 eexists; by_compute).
  destruct (allReady_means_everyone_ready _ _ _ _ _ _ _ _ Hcall)
    as (_ & _ & _ & [Hall _] & Hst).
  exists s', pl, room. split_and!; [exact Hcall | by apply Hst | by apply Hall].
Defined.

(** ** Chat messages that are ignored *)

(** X22.  Whatever the ambient [gameState] is, [handleChatMessage] called
    with an object whose [message] is missing, not a string, or blank after
    trimming (made of white space and line terminators only, no-break and
    other Unicode spaces included) returns without a broadcast and without
    throwing. *)
Theorem handleChatMessage_ignores_invalid globals socketId fields now :
  (∀ text, get_prop (JsObj fields) "message" = Returned (JsStr text) →
           trim text = EmptyString) →
  handleChatMessage globals socketId (JsObj fields) now = Returned Ignored.
Proof.
  intros Hblank. unfold handleChatMessage, get_prop in *.
  destruct (default JsUndefined
              (snd <$> find (λ kv : string * JsVal, bool_decide (kv.1 = "message")) fields))
    as [| |flag|n|text|fs] eqn:Hm; try done.
  rewrite (Hblank text eq_refl), bool_decide_true by done.
  by rewrite orb_true_r.
Qed.

Lemma handleChatMessage_ignores_invalid_example :
  handleChatMessage globalObject "A" (chat "ABCDEF" (" " +:+ nbsp +:+ " ")) 9 =
    Returned Ignored.
Proof.
  apply handleChatMessage_ignores_invalid.
  intros text [= <-]. reflexivity.
Defined.

(** ** Stored records *)

Lemma or_else_nonempty x y : y ≠ EmptyString → or_else x y ≠ EmptyString.
Proof. unfold or_else. destruct x as [[|c v]|]; simpl; done. Qed.

(** X23.  Whatever has been called, every stored player record is filed
    under its own id, has a non-empty name, is marked connected (the flag
    is never cleared: a disconnect deletes the record), and has the maxima
    of the character it carries, zero when it carries none. *)
Theorem records_are_well_formed s k pl :
  reachable s → players s !! k = Some pl → record_ok k pl.
Proof.
  intros Hreach. revert k pl. induction Hreach as [|op s s' _ IH Hstep].
  { intros k pl. unfold constructor; simpl. by rewrite lookup_empty. }
  intros k pl' Hl.
  destruct (step_players _ _ _ _ _ Hstep Hl)
    as [(pl & Hpl & Hcase)|(n & now & _ & ->)].
  - apply IH in Hpl. destruct Hpl as (Hid & Hname & Hconn & Hmax).
    destruct Hcase as [->|[(Hsame & _)|[(c & now & _ & ->)|(b & now & ->)]]];
      unfold record_ok; simpl; [done| |done|done].
    destruct Hsame as (-> & -> & -> & -> & _ & -> & -> & _). done.
  - unfold record_ok; simpl. split_and!; try done. by apply or_else_nonempty.
Qed.

Lemma records_are_well_formed_example :
  ∃ pl, players (after match_ops) !! "B" = Some pl ∧ record_ok "B" pl.
Proof.
  assert (∃ pl, players (after match_ops) !! "B" = Some pl) as [pl Hpl]
    by (eexists; by_compute).
  exists pl. split; [exact Hpl|].
  apply (records_are_well_formed (after match_ops)); [|exact Hpl].
  apply (reachable_after match_ops). by_compute.
Defined.

(** X24.  [setPlayerCharacter] and [setPlayerReady] write the player record
    before they look for the room: for a registered player whose index
    entry is missing, empty or names no registered room, both return the
    same failure and leave the record rewritten, everything else as it
    was. *)
Theorem record_written_before_room_lookup p c b now s pl :
  players s !! p = Some pl →
  (∀ r, playerToRoom s !! p = Some r → r = EmptyString ∨ rooms s !! r = None) →
  ∃ e,
    setPlayerCharacter p c now s =
      (set_playersMap s (<[p := set_lastActive (assign_character c pl) now]> (players s)),
       Failure e) ∧
    setPlayerReady p b now s =
      (set_playersMap s (<[p := set_lastActive (set_isReady pl b) now]> (players s)),
       Returned (Failure e)).
Proof.
  intros Hp Hidx. unfold setPlayerCharacter, setPlayerReady, updatePlayer.
  rewrite Hp. simpl.
  destruct (playerToRoom s !! p) as [r|]; [|by eexists].
  destruct (Hidx r eq_refl) as [->|Hr]; simpl; [by eexists|].
  rewrite Hr. destruct (truthy r); simpl; by eexists.
Qed.

Lemma record_written_before_room_lookup_example :
  ∃ e s' pl',
    setPlayerCharacter "A" mage 1 (registerPlayer "A" None 0 constructor).1 =
      (s', Failure e) ∧
    players s' !! "A" = Some pl' ∧ character pl' = Some mage ∧ health pl' = 100%Z.
Proof.
  destruct (record_written_before_room_lookup "A" mage true 1
              (registerPlayer "A" None 0 constructor).1
              (registerPlayer "A" None 0 constructor).2)
    as (e & Hc & _); [reflexivity|intros r Hr; discriminate|].
  eexists e, _, _. split; [exact Hc|]. simpl. rewrite lookup_insert_eq. done.
Defined.

(** ** Readiness is not revoked *)

Lemma setPlayerReady_keeps_room p b now s r room :
  rooms s !! r = Some room →
  ∃ room1, rooms (setPlayerReady p b now s).1 !! r = Some room1 ∧
           same_seats room room1 ∧ (status room = Ready → status room1 = Ready).
Proof.
  intros Hr.
  assert (∃ room1, rooms (setPlayerReady p b now s).1 !! r = Some room1) as [room1 Hr1].
  { unfold setPlayerReady, updatePlayer.
    destruct (players s !! p) as [pl|]; simpl; [|by eauto].
    destruct (playerToRoom s !! p) as [rid|]; simpl; [|by eauto].
    destruct (truthy rid); simpl; [|by eauto].
    destruct (rooms s !! rid) as [room0|] eqn:Hr0; simpl; [|by eauto].
    destruct (if decide (length (r_players room0) = 2%nat) then _ else _);
      simpl; [|by eauto].
    destruct (decide (rid = r)) as [->|Hne];
      [rewrite lookup_insert_eq|rewrite lookup_insert_ne by done]; eauto. }
  exists room1. split; [done|].
  apply setPlayerReady_moves in Hr1 as (room0 & Hr0 & Hseats & Hst).
  assert (room0 = room) as -> by congruence.
  destruct Hseats as (? & ? & ? & ?).
  split; [by repeat split|]. intros Hready.
  destruct Hst as [?|[? _]]; congruence.
Qed.

Lemma setPlayerCharacter_keeps_room p c now s r room :
  rooms s !! r = Some room →
  ∃ room1, rooms (setPlayerCharacter p c now s).1 !! r = Some room1 ∧
           same_seats room room1 ∧ status room1 = status room.
Proof.
  intros Hr.
  assert (∃ room1, rooms (setPlayerCharacter p c now s).1 !! r = Some room1)
    as [room1 Hr1].
  { unfold setPlayerCharacter, updatePlayer.
    destruct (players s !! p) as [pl|]; simpl; [|by eauto].
    destruct (playerToRoom s !! p) as [rid|]; simpl; [|by eauto].
    destruct (truthy rid); simpl; [|by eauto].
    destruct (rooms s !! rid) as [room0|] eqn:Hr0; simpl; [|by eauto].
    destruct (decide (rid = r)) as [->|Hne];
      [rewrite lookup_insert_eq|rewrite lookup_insert_ne by done]; eauto. }
  exists room1. split; [done|].
  apply setPlayerCharacter_moves in Hr1 as (room0 & Hr0 & Hseats & Hst).
  assert (room0 = room) as -> by congruence.
  destruct Hseats as (? & ? & ? & ?). split; [by repeat split|done].
Qed.

Lemma startGame_starts r now s room :
  rooms s !! r = Some room → status room = Ready →
  length (r_players room) = 2%nat → is_Some (players s !! hostId room) →
  ∃ s' room', startGame r now s = (s', Returned (RoomOk room')) ∧
              status room' = InProgress ∧ players s' = players s.
Proof.
  intros Hr Hst Hlen [host Hhost]. unfold startGame. rewrite Hr.
  rewrite decide_False by (intros Hne; by apply Hne).
  rewrite decide_False by (intros Hne; by apply Hne).
  simpl. rewrite Hhost. by do 2 eexists.
Qed.

(** X25.  The ready status of a room is not taken back.  Once a room with
    two seats is ready and its host is registered, a player withdrawing
    readiness or choosing another character (which resets that player's
    ready flag) leaves the room ready: [startGame] still succeeds, with
    that player's record, if there is one, not ready. *)
Theorem ready_status_is_latched p c now now' s r room :
  rooms s !! r = Some room → status room = Ready →
  length (r_players room) = 2%nat → is_Some (players s !! hostId room) →
  ∀ s1, s1 = (setPlayerReady p false now s).1 ∨
        s1 = (setPlayerCharacter p c now s).1 →
  ∃ s2 room2,
    startGame r now' s1 = (s2, Returned (RoomOk room2)) ∧
    status room2 = InProgress ∧
    ∀ pl, players s2 !! p = Some pl → isReady pl = false.
Proof.
  intros Hr Hst Hlen Hhost s1 Hs1.
  assert (∃ room1, rooms s1 !! r = Some room1 ∧ same_seats room room1 ∧
                   status room1 = Ready) as (room1 & Hr1 & Hseats & Hst1).
  { destruct Hs1 as [->| ->].
    - destruct (setPlayerReady_keeps_room p false now s r room Hr)
        as (room1 & ? & ? & ?). eauto.
    - destruct (setPlayerCharacter_keeps_room p c now s r room Hr)
        as (room1 & ? & ? & ?). exists room1. split_and!; [done..|congruence]. }
  assert ((∀ q, is_Some (players s !! q) → is_Some (players s1 !! q)) ∧
          ∀ pl, players s1 !! p = Some pl → isReady pl = false) as [Hkeep Hready].
  { destruct Hs1 as [->| ->].
    - destruct (setPlayerReady_tables p false now s) as [-> _]. split.
      + intros q. apply updatePlayer_keeps.
      + intros pl. rewrite updatePlayer_players, decide_True by done.
        by intros (pl0 & _ & ->)%fmap_Some.
    - destruct (setPlayerCharacter_tables p c now s) as [-> _]. split.
      + intros q. apply updatePlayer_keeps.
      + intros pl. rewrite updatePlayer_players, decide_True by done.
        by intros (pl0 & _ & ->)%fmap_Some. }
  destruct Hseats as (Hps & Hh & _).
  destruct (startGame_starts r now' s1 room1) as (s2 & room2 & Hstart & Hst2 & Hp2);
    [done|done|by rewrite Hps|rewrite Hh; by apply Hkeep|].
  exists s2, room2. split_and!; [done..|].
  intros pl. rewrite Hp2. apply Hready.
Qed.

Lemma ready_status_is_latched_example :
  ∃ s2 room2 pl,
    startGame "ABCDEF" 8 (setPlayerReady "B" false 7 (after ready_ops)).1 =
      (s2, Returned (RoomOk room2)) ∧
    status room2 = InProgress ∧ players s2 !! "B" = Some pl ∧ isReady pl = false.
Proof.
  assert (∃ room, rooms (after ready_ops) !! "ABCDEF" = Some room ∧
                  status room = Ready ∧ length (r_players room) = 2%nat ∧
                  is_Some (players (after ready_ops) !! hostId room))
    as (room & Hr & Hst & Hlen & Hhost).
  { eexists. split_and!; [by_compute..|]. eexists. by_compute. }
  destruct (ready_status_is_latched "B" mage 7 8 (after ready_ops) "ABCDEF" room
              Hr Hst Hlen Hhost _ (or_introl eq_refl))
    as (s2 & room2 & Hstart & Hst2 & Hready).
  assert (is_Some (players s2 !! "B")) as [pl Hpl].
  { apply (f_equal fst) in Hstart. simpl in Hstart. rewrite <- Hstart.
    eexists. by_compute. }
  exists s2, room2, pl. split_and!; [done..|]. by apply Hready.
Defined.

(** ** Leaving through the handler *)



(** The request without a room id, from a player who is in no room. *)
Lemma handleLeaveRoom_without_room_id :
  handleLeaveRoom "Z" None 8 (after match_ops) =
    (after match_ops, Some (Failure "Room not found")).
Proof. by_compute. Qed.

(** ** Room codes on a running server *)

Lemma generateRoomCode_draw rms rand code :
  generateRoomCode rms rand = Some code → ∃ d, code = code_of_draw d.
Proof.
  induction rand as [|d rand IH]; simpl; [done|].
  destruct (rms !! code_of_draw d); [done|]. intros [= <-]. by exists d.
Qed.

Lemma step_room_key op s s' r room' :
  step op s = Some s' → rooms s' !! r = Some room' →
  (∀ h rd rand now, op = OpCreateRoom h rd rand now → rd_roomId rd = None) →
  is_Some (rooms s !! r) ∨ ∃ d, r = code_of_draw d.
Proof.
  intros Hstep Hl Hgen.
  destruct (step_room _ _ _ _ _ Hstep Hl) as [(room & -> & _)|Hcr]; [by left|].
  destruct Hcr as (h & rd & rand & now & -> & Hres & _). right.
  unfold resolveRoomId in Hres. rewrite (Hgen _ _ _ _ eq_refl) in Hres.
  by eapply generateRoomCode_draw.
Qed.

Lemma handle_room_key ev s s' r room' :
  handle ev s = Some s' → rooms s' !! r = Some room' →
  is_Some (rooms s !! r) ∨ ∃ d, r = code_of_draw d.
Proof.
  destruct ev; simpl; intros Hstep Hl; try (injection Hstep as <-).
  - by left; eexists.
  - unfold handleUserDisconnection in Hl.
    assert (∀ s0, rooms (unregisterPlayer socketId now s0) !! r = Some room' →
                  is_Some (rooms s0 !! r)) as Hun.
    { intros s0 Hl0.
      destruct (step_room_key (OpUnregisterPlayer socketId now) s0 _ r room' eq_refl Hl0)
        as [?|?]; [discriminate|done|].
      apply unregisterPlayer_room in Hl0 as (room & -> & _). by eexists. }
    apply Hun in Hl as [room1 Hl].
    destruct (playerToRoom s !! socketId) as [r0|]; [|by left; eexists].
    destruct (rooms s !! r0); [|by left; eexists].
    by apply (step_room_key (OpRemovePlayerFromRoom socketId r0 now) s _ r room1 eq_refl).
  - eapply (step_room_key (OpCreateRoom socketId _ rand now)); [exact Hstep|exact Hl|].
    by intros h rd rand' now' [= <- <- <- <-].
  - by apply (step_room_key (OpAddPlayerToRoom socketId roomId now) s _ r room' eq_refl).
  - unfold handleLeaveRoom in Hl. case_decide; [by left; eexists|].
    destruct roomId as [r0|]; [|by left; eexists].
    destruct (removePlayerFromRoom socketId r0 now s) as [s1 res] eqn:Hrem.
    apply (step_room_key (OpRemovePlayerFromRoom socketId r0 now) s s1 r room');
      [simpl; by rewrite Hrem|done|done].
  - unfold handleCharacterSelect in Hl.
    destruct (in_a_room socketId s); [|by left; eexists].
    by apply (step_room_key (OpSetPlayerCharacter socketId c now) s _ r room' eq_refl).
  - unfold handlePlayerReady in Hl.
    destruct (in_a_room socketId s); [|by left; eexists].
    destruct (getPlayer socketId s) as [pl|]; [|by left; eexists].
    destruct (character pl); [|by left; eexists].
    by apply (step_room_key (OpSetPlayerReady socketId ready now) s _ r room' eq_refl).
  - by apply (step_room_key (OpStartGame roomId now) s _ r room' eq_refl).
  - unfold handleGameAction in Hl. destruct action as [act|]; [|by left; eexists].
    destruct (in_a_room socketId s); [|by left; eexists].
    by apply (step_room_key (OpProcessGameAction socketId (Some act) now) s _ r room'
                eq_refl).
Qed.

(** X27.  The handlers never pass a room id of their own to [createRoom],
    so on a server driven by socket events every registered room sits
    under a generated code: six characters of the code alphabet, equal to
    the room's own [id]. *)
Theorem served_room_codes s r room :
  served s → rooms s !! r = Some room →
  String.length r = 6%nat ∧
  (∀ c, c ∈ list_ascii_of_string r → c ∈ list_ascii_of_string chars) ∧
  r_id room = r.
Proof.
  intros Hserved Hr.
  assert (∃ d, r = code_of_draw d) as [d ->].
  { revert r room Hr. induction Hserved as [|ev s s' _ IH Hev]; intros r room Hr.
    - unfold constructor in Hr; simpl in Hr. by rewrite lookup_empty in Hr.
    - destruct (handle_room_key _ _ _ _ _ Hev Hr) as [[room0 Hr0]|?]; [|done].
      by eapply IH. }
  destruct (code_of_draw_shape d) as [Hlen Hchars].
  split_and!; [done..|].
  apply (reachable_rooms_keyed s); [|done].
  by apply reachable_guarded_reachable, served_guarded.
Qed.

Lemma served_room_codes_example :
  ∃ s room, serve match_events constructor = Some s ∧
            rooms s !! "ABCDEF" = Some room ∧ r_id room = "ABCDEF".
Proof.
  assert (∃ s room, serve match_events constructor = Some s ∧
                    rooms s !! "ABCDEF" = Some room) as (s & room & Hs & Hr)
    by (do 2 eexists; split; by_compute).
  exists s, room. split_and!; [exact Hs|exact Hr|].
  by destruct (served_room_codes s "ABCDEF" room (serve_served _ _ _ served_init Hs) Hr)
    as (_ & _ & ?).
Defined.
